(** * EnvsCollectionService and the logging facade: a shallow embedding

    The service of [envsCollectionService.ts] lives on a single JavaScript
    event loop.  Promises are modelled as numbered cells of a store, the
    callbacks the source passes to [then] and [catch] are defunctionalised
    into [Handler], and the microtask queue is an explicit list of jobs.
    Everything the collaborators (locator, cache, telemetry, logger) are asked
    to do is appended to an observation log. *)

From Stdlib Require Import String List Arith Lia Bool.
From stdpp Require Import base option list strings.
Import ListNotations.
Open Scope string_scope.
Open Scope list_scope.
Open Scope nat_scope.

(** ** Data *)

(** A [PythonLocatorQuery] is a JavaScript object; the [Map] of the service
    compares its keys by reference, so a query is its reference and
    [undefined] is [None]. *)
Definition QueryRef := nat.
Definition Query := option QueryRef.

(** Modelled from the spec: [PythonEnvInfo] is declared in [info/index.ts],
    which is not part of the sources; a record is "an opaque discovered entity
    with a resolvable identity and a completeness state". *)
Record PythonEnvInfo := mkEnv { executablePath : string; completeness : nat }.

(** Where a thrown value comes from. *)
Inductive Err :=
| IterErr (msg : string)      (* the locator's iterator throws *)
| CacheErr (msg : string)     (* [cache.addEnv] / [cache.updateEnv] throws *)
| ValidateErr (msg : string)  (* [cache.validateCache()] rejects *)
| FlushErr (msg : string).    (* [cache.flush()] rejects *)

Record ChangeEvent := mkChange { ev_type : nat; searchLocation : option string }.

#[global] Instance PythonEnvInfo_eq_dec : EqDecision PythonEnvInfo.
Proof. solve_decision. Defined.
#[global] Instance Err_eq_dec : EqDecision Err.
Proof. solve_decision. Defined.
#[global] Instance ChangeEvent_eq_dec : EqDecision ChangeEvent.
Proof. solve_decision. Defined.

(** ** Promises *)

Definition PromiseId := nat.

Inductive PState := Pending | Fulfilled | Rejected (e : Err).

#[global] Instance PState_eq_dec : EqDecision PState.
Proof. solve_decision. Defined.

(** The callbacks of the source, one constructor per arrow function. *)
Inductive Handler :=
| HForward                                   (* no callback: pass the settlement on *)
| HThenSettle (q : Query) (deferred : PromiseId)  (* startRefresh, [.then(async () => ...)] *)
| HCatchReject (deferred : PromiseId)        (* startRefresh, [.catch((ex) => deferred.reject(ex))] *)
| HStartRefresh (q : Query)                  (* triggerNewRefresh, [() => this.startRefresh(query)] *)
| HFire (ev : ChangeEvent)                   (* constructor, [() => this.fire(...)] *)
| HIgnore                                    (* [ignoreErrors()]: [.catch(noop)] *)
| HAllResolve (pall : PromiseId)             (* Promise.all, element resolved *)
| HAllReject (pall : PromiseId).             (* Promise.all, element rejected *)

Record Reaction := mkReaction
  { onFulfilled : Handler; onRejected : Handler; derived : PromiseId }.

Record Promise := mkPromise { pstate : PState; reactions : list Reaction }.

(** A microtask: a reaction together with the settlement it reacts to
    ([None] fulfilled, [Some e] rejected with [e]). *)
Definition Job := (Reaction * option Err)%type.

(** ** One drain: the activation of [addEnvsToCacheFromIterator] *)

Inductive Phase :=
| Draining          (* inside [for await (const env of iterator)] *)
| AwaitingUpdates   (* at [await updatesDone.promise] *)
| Validating        (* at [await this.cache.validateCache()] *)
| Finished          (* returned *)
| Failed.           (* threw *)

#[global] Instance Phase_eq_dec : EqDecision Phase.
Proof. solve_decision. Defined.

Record Drain := mkDrain
  { d_query : Query;
    d_promise : PromiseId;       (* the promise of the async function *)
    d_onUpdated : bool;          (* [iterator.onUpdated !== undefined] *)
    d_listening : bool;          (* listener subscribed and not disposed *)
    d_seen : list (option PythonEnvInfo);   (* [seen], a JS array (with holes) *)
    d_done : bool;               (* [state.done] *)
    d_pending : nat;             (* [state.pending] *)
    d_updatesDone : bool;        (* [updatesDone] resolved *)
    d_phase : Phase }.

(** JavaScript arrays: reading past the end gives [undefined], writing past
    the end extends the array with holes, [push] appends. *)
Definition js_get {A} (l : list (option A)) (i : nat) : option A := mjoin (l !! i).
Definition js_set {A} (l : list (option A)) (i : nat) (v : A) : list (option A) :=
  if i <? length l then <[i := Some v]> l
  else l ++ replicate (i - length l) None ++ [Some v].
Definition js_push {A} (l : list (option A)) (v : A) : list (option A) := l ++ [Some v].

(** ** Observations *)

Inductive LogEntry :=
| LRefreshStarted                       (* [this.refreshStarted.fire()] *)
| LIterEnvs (q : Query)                 (* [this.locator.iterEnvs(query)] *)
| LAddEnv (env : PythonEnvInfo)         (* [this.cache.addEnv(env)] *)
| LUpdateEnv (old new : option PythonEnvInfo)  (* [this.cache.updateEnv(..)] *)
| LValidateCache (d : nat)              (* [this.cache.validateCache()] *)
| LFlush (d : nat)                      (* [this.cache.flush()] *)
| LTelemetry (interpreters : nat)       (* [sendTelemetryEvent(...)] *)
| LTraceError (msg : string)            (* [traceError(...)] *)
| LFire (ev : ChangeEvent).             (* [this.fire(...)] *)

#[global] Instance LogEntry_eq_dec : EqDecision LogEntry.
Proof. solve_decision. Defined.

(** ** The collaborators *)

(** [IEnvsCollectionCache]: the synchronous operations.  [addEnv] and
    [updateEnv] may throw (the message of the exception is returned on the
    left).  [validateCache] and [flush] return promises; their outcome
    arrives later, as an event. *)
Class IEnvsCollectionCache (C : Type) := {
  getEnv : C -> string -> option PythonEnvInfo;
  getAllEnvs : C -> list PythonEnvInfo;
  addEnv : C -> PythonEnvInfo -> string + C;
  updateEnv : C -> option PythonEnvInfo -> option PythonEnvInfo -> string + C;
  validated : C -> C   (* what a successful [validateCache] leaves *)
}.

(** [IResolvingLocator.iterEnvs]: whether the iterator returned by the
    [n]-th call has an [onUpdated] side channel. *)
Class IResolvingLocator := { iter_onUpdated : nat -> Query -> bool }.

(** ** The service *)

Section Service.
Context {C : Type} `{!IEnvsCollectionCache C} `{!IResolvingLocator}.

(** [getQueryFilter] of [locatorUtils.ts], not part of the sources. *)
Variable getQueryFilter : QueryRef -> PythonEnvInfo -> bool.

Record State := mkState
  { cache : C;                                  (* [this.cache] *)
    refreshPromises : list (Query * PromiseId); (* [this.refreshPromises], in insertion order *)
    promises : list Promise;                    (* the promise store *)
    jobs : list Job;                            (* the microtask queue *)
    drains : list Drain;                        (* activations of [addEnvsToCacheFromIterator] *)
    alls : list (PromiseId * nat);              (* [Promise.all]: elements still awaited *)
    flushes : list PromiseId;                   (* promises returned by [cache.flush()] *)
    log : list LogEntry }.                      (* observations, oldest first *)

Definition set_cache (c : C) (s : State) : State :=
  mkState c (refreshPromises s) (promises s) (jobs s) (drains s) (alls s) (flushes s) (log s).
Definition set_refreshPromises (m : list (Query * PromiseId)) (s : State) : State :=
  mkState (cache s) m (promises s) (jobs s) (drains s) (alls s) (flushes s) (log s).
Definition set_promises (ps : list Promise) (s : State) : State :=
  mkState (cache s) (refreshPromises s) ps (jobs s) (drains s) (alls s) (flushes s) (log s).
Definition set_jobs (js : list Job) (s : State) : State :=
  mkState (cache s) (refreshPromises s) (promises s) js (drains s) (alls s) (flushes s) (log s).
Definition set_drains (ds : list Drain) (s : State) : State :=
  mkState (cache s) (refreshPromises s) (promises s) (jobs s) ds (alls s) (flushes s) (log s).
Definition set_alls (a : list (PromiseId * nat)) (s : State) : State :=
  mkState (cache s) (refreshPromises s) (promises s) (jobs s) (drains s) a (flushes s) (log s).
Definition set_flushes (f : list PromiseId) (s : State) : State :=
  mkState (cache s) (refreshPromises s) (promises s) (jobs s) (drains s) (alls s) f (log s).
Definition emit (e : LogEntry) (s : State) : State :=
  mkState (cache s) (refreshPromises s) (promises s) (jobs s) (drains s) (alls s) (flushes s)
          (log s ++ [e]).

(** *** [Map<PythonLocatorQuery | undefined, Promise<void>>] *)

Fixpoint map_get (q : Query) (m : list (Query * PromiseId)) : option PromiseId :=
  match m with
  | [] => None
  | (k, v) :: m' => if decide (k = q) then Some v else map_get q m'
  end.

Fixpoint map_set (q : Query) (p : PromiseId) (m : list (Query * PromiseId))
  : list (Query * PromiseId) :=
  match m with
  | [] => [(q, p)]
  | (k, v) :: m' => if decide (k = q) then (k, p) :: m' else (k, v) :: map_set q p m'
  end.

Fixpoint map_delete (q : Query) (m : list (Query * PromiseId)) : list (Query * PromiseId) :=
  match m with
  | [] => []
  | (k, v) :: m' => if decide (k = q) then m' else (k, v) :: map_delete q m'
  end.

(** *** Promise primitives *)

Definition settlement (v : option Err) : PState :=
  match v with None => Fulfilled | Some e => Rejected e end.

Definition pstateOf (s : State) (p : PromiseId) : PState :=
  match promises s !! p with Some pr => pstate pr | None => Pending end.

Definition newPromise (s : State) : PromiseId * State :=
  (length (promises s), set_promises (promises s ++ [mkPromise Pending []]) s).

(** Resolve or reject a promise; a settled promise stays as it is.  The
    reactions registered so far become microtasks. *)
Definition settle (p : PromiseId) (v : option Err) (s : State) : State :=
  match promises s !! p with
  | Some (mkPromise Pending rs) =>
      set_jobs (jobs s ++ map (fun r => (r, v)) rs)
        (set_promises (<[p := mkPromise (settlement v) []]> (promises s)) s)
  | _ => s
  end.

(** Register a reaction: kept while the promise is pending, queued at once
    when it is already settled. *)
Definition subscribe (p : PromiseId) (r : Reaction) (s : State) : State :=
  match promises s !! p with
  | Some (mkPromise Pending rs) =>
      set_promises (<[p := mkPromise Pending (rs ++ [r])]> (promises s)) s
  | Some (mkPromise Fulfilled _) => set_jobs (jobs s ++ [(r, None)]) s
  | Some (mkPromise (Rejected e) _) => set_jobs (jobs s ++ [(r, Some e)]) s
  | None => s
  end.

(** [p.then(onF, onR)]: a new promise settled by the reaction. *)
Definition then_ (p : PromiseId) (onF onR : Handler) (s : State) : PromiseId * State :=
  let '(d, s1) := newPromise s in (d, subscribe p (mkReaction onF onR d) s1).

(** Resolving [outer] with the promise [inner] (what the [return] of an
    async function, or of a [then] callback, does with a promise). *)
Definition adopt (inner outer : PromiseId) (s : State) : State :=
  subscribe inner (mkReaction HForward HForward outer) s.

Definition is_iterEnvs (e : LogEntry) : bool :=
  match e with LIterEnvs _ => true | _ => false end.

(** Number of calls of [locator.iterEnvs] so far. *)
Definition iterEnvsCalls (s : State) : nat := length (List.filter is_iterEnvs (log s)).

(** *** [addEnvsToCacheFromIterator], up to its first suspension

    The listener is subscribed when the iterator has [onUpdated], otherwise
    [updatesDone] is resolved at once; then the function suspends in
    [for await]. *)
Definition addEnvsToCacheFromIterator (q : Query) (hasOnUpdated : bool) (s : State)
  : PromiseId * State :=
  let '(promise, s1) := newPromise s in
  let d := {| d_query := q; d_promise := promise;
              d_onUpdated := hasOnUpdated; d_listening := hasOnUpdated;
              d_seen := []; d_done := false; d_pending := 0;
              d_updatesDone := negb hasOnUpdated; d_phase := Draining |} in
  (promise, set_drains (drains s1 ++ [d]) s1).

(** *** [startRefresh] *)
Definition startRefresh (q : Query) (s : State) : PromiseId * State :=
  let '(deferred, s1) := newPromise s in
  let s2 := set_refreshPromises (map_set q deferred (refreshPromises s1)) s1 in
  let s3 := emit LRefreshStarted s2 in
  let hasOnUpdated := iter_onUpdated (iterEnvsCalls s3) q in
  let s4 := emit (LIterEnvs q) s3 in
  let '(promise, s5) := addEnvsToCacheFromIterator q hasOnUpdated s4 in
  let '(p_then, s6) := then_ promise (HThenSettle q deferred) HForward s5 in
  let '(p_catch, s7) := then_ p_then HForward (HCatchReject deferred) s6 in
  (* the promise of the async function itself, resolved with the chain *)
  let '(p_async, s8) := newPromise s7 in
  (p_async, adopt p_catch p_async s8).

(** *** [getRefreshPromiseForQuery] *)
Definition getRefreshPromiseForQuery (q : Query) (s : State) : option PromiseId :=
  match map_get q (refreshPromises s) with
  | Some p => Some p
  | None => map_get None (refreshPromises s)
  end.

(** *** [triggerRefresh] *)
Definition triggerRefresh (q : Query) (s : State) : PromiseId * State :=
  match getRefreshPromiseForQuery q s with
  | Some refreshPromise => (refreshPromise, s)
  | None => startRefresh q s
  end.

(** *** [triggerNewRefresh] *)
Definition triggerNewRefresh (q : Query) (s : State) : PromiseId * State :=
  let '(nextRefreshPromise, s1) :=
    match getRefreshPromiseForQuery q s with
    | Some refreshPromise => then_ refreshPromise (HStartRefresh q) HForward s
    | None => startRefresh q s
    end in
  let '(p_async, s2) := newPromise s1 in
  (p_async, adopt nextRefreshPromise p_async s2).

(** *** The two subscriptions of the constructor *)
Definition onLocatorChanged (ev : ChangeEvent) (s : State) : State :=
  let '(p, s1) := triggerNewRefresh None s in
  snd (then_ p (HFire (mkChange (ev_type ev) (searchLocation ev))) HForward s1).

Definition onCacheChanged (e : ChangeEvent) (s : State) : State := emit (LFire e) s.

(** *** [resolveEnv] *)
Inductive Resolved :=
| FromCache (env : PythonEnvInfo)   (* [return cachedEnv] *)
| FromLocator (path : string).      (* [return this.locator.resolveEnv(executablePath)] *)

Definition resolveEnv (executablePath : string) (s : State) : Resolved :=
  match getEnv (cache s) executablePath with
  | Some cachedEnv =>
      if length (refreshPromises s) =? 0 then FromCache cachedEnv
      else FromLocator executablePath
  | None => FromLocator executablePath
  end.

(** *** [getEnvs] *)
Definition refresh_error_msg : string :=
  "Refresh should have already been triggered when activating discovery component".

Definition getEnvs (query : Query) (s : State) : list PythonEnvInfo * State :=
  let cachedEnvs := getAllEnvs (cache s) in
  let s' :=
    if (length cachedEnvs =? 0) && (length (refreshPromises s) =? 0) then
      let s1 := emit (LTraceError refresh_error_msg) s in
      let '(p, s2) := triggerRefresh None s1 in
      snd (then_ p HForward HIgnore s2)           (* [.ignoreErrors()] *)
    else s in
  (match query with
   | Some q => List.filter (getQueryFilter q) cachedEnvs
   | None => cachedEnvs
   end, s').

(** *** [refreshPromise]: [Promise.all(values).then()] *)
Definition promiseAll (vals : list PromiseId) (s : State) : PromiseId * State :=
  let '(pall, s1) := newPromise s in
  match vals with
  | [] => (pall, settle pall None s1)
  | _ =>
      (pall,
       fold_left (fun st v => snd (then_ v (HAllResolve pall) (HAllReject pall) st))
                 vals (set_alls (alls s1 ++ [(pall, length vals)]) s1))
  end.

Definition refreshPromise (s : State) : PromiseId * State :=
  let '(pall, s1) := promiseAll (map snd (refreshPromises s)) s in
  then_ pall HForward HForward s1.

(** *** Running a callback *)

Inductive Outcome :=
| OPass                  (* no callback at this side: the settlement passes through *)
| OReturn                (* the callback returns (nothing, or a promise that fulfils) *)
| OAdopt (p : PromiseId).  (* the callback returns the promise [p] *)

Fixpoint all_dec (pall : PromiseId) (a : list (PromiseId * nat)) : list (PromiseId * nat) * bool :=
  match a with
  | [] => ([], false)
  | (k, n) :: a' =>
      if k =? pall then ((k, pred n) :: a', pred n =? 0)
      else let '(a'', b) := all_dec pall a' in ((k, n) :: a'', b)
  end.

Definition runHandler (h : Handler) (v : option Err) (s : State) : State * Outcome :=
  match h with
  | HForward => (s, OPass)
  | HThenSettle q deferred =>
      (* deferred.resolve(); this.refreshPromises.delete(query); sendTelemetryEvent(..) *)
      let s1 := settle deferred None s in
      let s2 := set_refreshPromises (map_delete q (refreshPromises s1)) s1 in
      (emit (LTelemetry (length (getAllEnvs (cache s2)))) s2, OReturn)
  | HCatchReject deferred =>
      (* deferred.reject(ex) *)
      (match v with Some ex => settle deferred (Some ex) s | None => s end, OReturn)
  | HStartRefresh q =>
      let '(p, s1) := startRefresh q s in (s1, OAdopt p)
  | HFire ev => (emit (LFire ev) s, OReturn)
  | HIgnore => (s, OReturn)
  | HAllResolve pall =>
      let '(a, last) := all_dec pall (alls s) in
      let s1 := set_alls a s in
      (if last then settle pall None s1 else s1, OReturn)
  | HAllReject pall => (settle pall v s, OReturn)
  end.

Definition runJob (j : Job) (s : State) : State :=
  let '(r, v) := j in
  let h := match v with None => onFulfilled r | Some _ => onRejected r end in
  let '(s1, o) := runHandler h v s in
  match o with
  | OPass => settle (derived r) v s1
  | OReturn => settle (derived r) None s1
  | OAdopt p => adopt p (derived r) s1
  end.

(** *** The rest of [addEnvsToCacheFromIterator], driven by the iterator

    Each function below is one resumption of the async function or one call
    of the [onUpdated] listener. *)

Definition set_drain (i : nat) (d : Drain) (s : State) : State :=
  set_drains (<[i := d]> (drains s)) s.

Definition with_phase (ph : Phase) (d : Drain) : Drain :=
  mkDrain (d_query d) (d_promise d) (d_onUpdated d) (d_listening d) (d_seen d)
          (d_done d) (d_pending d) (d_updatesDone d) ph.

(** [updatesDone.promise] is resolved and the main loop is over: the
    function goes on to [await this.cache.validateCache()]. *)
Definition callValidate (i : nat) (d : Drain) (s : State) : State :=
  emit (LValidateCache i) (set_drain i (with_phase Validating d) s).

(** The function throws: its promise is rejected. *)
Definition failDrain (i : nat) (d : Drain) (e : Err) (s : State) : State :=
  settle (d_promise d) (Some e) (set_drain i (with_phase Failed d) s).

(** The iterator yields [env]: [seen.push(env); this.cache.addEnv(env)]. *)
Definition drainYield (i : nat) (env : PythonEnvInfo) (s : State) : option State :=
  d ← drains s !! i;
  if decide (d_phase d = Draining) then
    let d1 := mkDrain (d_query d) (d_promise d) (d_onUpdated d) (d_listening d)
                (js_push (d_seen d) env) (d_done d) (d_pending d) (d_updatesDone d)
                (d_phase d) in
    let s1 := emit (LAddEnv env) (set_drain i d1 s) in
    match addEnv (cache s1) env with
    | inr c => Some (set_cache c s1)
    | inl msg => Some (failDrain i d1 (CacheErr msg) s1)
    end
  else None.

(** The iterator is exhausted: the loop ends, [await updatesDone.promise]. *)
Definition drainEnd (i : nat) (s : State) : option State :=
  d ← drains s !! i;
  if decide (d_phase d = Draining) then
    if d_updatesDone d then Some (callValidate i d s)
    else Some (set_drain i (with_phase AwaitingUpdates d) s)
  else None.

(** The iterator throws inside [for await]. *)
Definition drainThrow (i : nat) (msg : string) (s : State) : option State :=
  d ← drains s !! i;
  if decide (d_phase d = Draining) then Some (failDrain i d (IterErr msg) s) else None.

(** The listener passed to [iterator.onUpdated]; [event = None] is [null]. *)
Definition drainUpdate (i : nat) (event : option (nat * option PythonEnvInfo)) (s : State)
  : option State :=
  d ← drains s !! i;
  if d_listening d then
    let after (d' : Drain) (s' : State) : State :=
      (* if (state.done && state.pending === 0) updatesDone.resolve() *)
      if d_done d' && (d_pending d' =? 0) then
        let d'' := mkDrain (d_query d') (d_promise d') (d_onUpdated d') (d_listening d')
                     (d_seen d') (d_done d') (d_pending d') true (d_phase d') in
        if bool_decide (d_phase d' = AwaitingUpdates) && negb (d_updatesDone d')
        then callValidate i d'' s'
        else set_drain i d'' s'
      else set_drain i d' s' in
    match event with
    | None =>
        (* state.done = true; listener.dispose() *)
        Some (after (mkDrain (d_query d) (d_promise d) (d_onUpdated d) false (d_seen d)
                       true (d_pending d) (d_updatesDone d) (d_phase d)) s)
    | Some (index, update) =>
        (* state.pending += 1; this.cache.updateEnv(seen[event.index], event.update) *)
        let old := js_get (d_seen d) index in
        let s1 := emit (LUpdateEnv old update) s in
        match updateEnv (cache s1) old update with
        | inl _ =>
            (* the listener throws: [pending] stays incremented *)
            Some (set_drain i (mkDrain (d_query d) (d_promise d) (d_onUpdated d)
                                 (d_listening d) (d_seen d) (d_done d) (S (d_pending d))
                                 (d_updatesDone d) (d_phase d)) s1)
        | inr c =>
            (* if (event.update) seen[event.index] = event.update; state.pending -= 1 *)
            let seen' := match update with
                         | Some u => js_set (d_seen d) index u
                         | None => d_seen d
                         end in
            Some (after (mkDrain (d_query d) (d_promise d) (d_onUpdated d) (d_listening d)
                           seen' (d_done d) (pred (S (d_pending d))) (d_updatesDone d)
                           (d_phase d)) (set_cache c s1))
        end
    end
  else None.

(** [validateCache()] settles.  On success the function calls
    [this.cache.flush().ignoreErrors()] and returns. *)
Definition drainValidated (i : nat) (r : option string) (s : State) : option State :=
  d ← drains s !! i;
  if decide (d_phase d = Validating) then
    match r with
    | Some msg => Some (failDrain i d (ValidateErr msg) s)
    | None =>
        let s1 := set_cache (validated (cache s)) s in
        let s2 := emit (LFlush i) s1 in
        let '(pf, s3) := newPromise s2 in
        let s4 := set_flushes (flushes s3 ++ [pf]) s3 in
        let s5 := snd (then_ pf HForward HIgnore s4) in
        Some (settle (d_promise d) None (set_drain i (with_phase Finished d) s5))
    end
  else None.

(** The promise returned by a call of [cache.flush()] settles. *)
Definition flushDone (pf : PromiseId) (r : option string) (s : State) : option State :=
  if bool_decide (pf ∈ flushes s) && bool_decide (pstateOf s pf = Pending) then
    Some (settle pf (match r with Some msg => Some (FlushErr msg) | None => None end) s)
  else None.

(** *** The event loop *)

Inductive Event :=
| ETriggerRefresh (q : Query)
| EGetEnvs (q : Query)
| ERefreshPromise
| ELocatorChanged (ev : ChangeEvent)
| ECacheChanged (ev : ChangeEvent)
| EYield (d : nat) (env : PythonEnvInfo)
| EEnd (d : nat)
| EThrow (d : nat) (msg : string)
| EUpdate (d : nat) (event : option (nat * option PythonEnvInfo))
| EValidateDone (d : nat) (r : option string)
| EFlushDone (pf : PromiseId) (r : option string)
| ETick.                                   (* run the next microtask *)

Definition step (e : Event) (s : State) : option State :=
  match e with
  | ETriggerRefresh q => Some (snd (triggerRefresh q s))
  | EGetEnvs q => Some (snd (getEnvs q s))
  | ERefreshPromise => Some (snd (refreshPromise s))
  | ELocatorChanged ev => Some (onLocatorChanged ev s)
  | ECacheChanged ev => Some (onCacheChanged ev s)
  | EYield d env => drainYield d env s
  | EEnd d => drainEnd d s
  | EThrow d msg => drainThrow d msg s
  | EUpdate d event => drainUpdate d event s
  | EValidateDone d r => drainValidated d r s
  | EFlushDone pf r => flushDone pf r s
  | ETick => match jobs s with
             | [] => None
             | j :: js => Some (runJob j (set_jobs js s))
             end
  end.

Fixpoint run (tr : list Event) (s : State) : option State :=
  match tr with
  | [] => Some s
  | e :: tr' => s' ← step e s; run tr' s'
  end.

(** The service right after its constructor. *)
Definition init (c : C) : State := mkState c [] [] [] [] [] [] [].

Inductive reachable (c : C) : State -> Prop :=
| reach_init : reachable c (init c)
| reach_step s e s' : reachable c s -> step e s = Some s' -> reachable c s'.

End Service.

Arguments State C : clear implicits.
Arguments set_cache {C} c s /.
Arguments set_refreshPromises {C} m s /.
Arguments set_promises {C} ps s /.
Arguments set_jobs {C} js s /.
Arguments set_drains {C} ds s /.
Arguments set_alls {C} a s /.
Arguments set_flushes {C} f s /.
Arguments emit {C} e s /.
Arguments set_drain {C} i d s /.

(** ** Predicates used in the statements *)

Section Predicates.
Context {C : Type} `{!IEnvsCollectionCache C} `{!IResolvingLocator}.

(** The drain record [startRefresh q] creates in state [s]. *)
Definition startedDrain (s : State C) (q : Query) : Drain :=
  let b := iter_onUpdated (iterEnvsCalls s) q in
  {| d_query := q; d_promise := length (promises s) + 1;
     d_onUpdated := b; d_listening := b; d_seen := []; d_done := false;
     d_pending := 0; d_updatesDone := negb b; d_phase := Draining |}.


Definition quiet_entry (e : LogEntry) : Prop :=
  match e with LValidateCache _ | LFlush _ => False | _ => True end.

Definition fresh_drain (d : Drain) : Prop :=
  d_phase d = Draining /\ d_done d = false /\ d_pending d = 0 /\
  d_listening d = d_onUpdated d /\ d_updatesDone d = negb (d_onUpdated d).

(** [s'] has the drains of [s] plus newly started ones, and its log grew by
    entries other than [validateCache] and [flush] calls. *)
Definition frame (s s' : State C) : Prop :=
  exists nd nl, drains s' = drains s ++ nd /\ Forall fresh_drain nd /\
                log s' = log s ++ nl /\ Forall quiet_entry nl.


(** What holds of drain [i] after the events [tr]. *)
Definition drain_inv (tr : list Event) (s : State C) (i : nat) (d : Drain) : Prop :=
  (LValidateCache i ∈ log s -> EEnd i ∈ tr /\ d_updatesDone d = true) /\
  (d_phase d = AwaitingUpdates -> EEnd i ∈ tr) /\
  (d_updatesDone d = true ->
     d_onUpdated d = false \/ (d_done d = true /\ d_pending d = 0)) /\
  (d_done d = true -> EUpdate i None ∈ tr /\ d_listening d = false) /\
  (d_onUpdated d = false -> d_listening d = false /\ d_updatesDone d = true) /\
  (LFlush i ∈ log s -> LValidateCache i ∈ log s /\ EValidateDone i None ∈ tr) /\
  (d_phase d = Validating \/ d_phase d = Finished -> LValidateCache i ∈ log s) /\
  (d_phase d = Finished -> LFlush i ∈ log s).

Definition I3 (tr : list Event) (s : State C) : Prop :=
  (forall i d, drains s !! i = Some d -> drain_inv tr s i d) /\
  (forall i, LValidateCache i ∈ log s \/ LFlush i ∈ log s -> i < length (drains s)).


(** The main sequence of drain [i] is exhausted and, when the iterator has
    the [onUpdated] channel, its closing [null] was received and no revision
    is pending. *)
Definition drained (tr : list Event) (i : nat) (d : Drain) : Prop :=
  EEnd i ∈ tr /\
  (d_onUpdated d = true -> EUpdate i None ∈ tr /\ d_done d = true /\ d_pending d = 0).

(** No promise other than those returned by [cache.flush()] is rejected
    with a flush error; the reactions and microtasks that can see such an
    error only carry the [ignoreErrors] handler. *)
Definition I9 (s : State C) : Prop :=
  (forall x m, pstateOf s x = Rejected (FlushErr m) -> x ∈ flushes s) /\
  (forall r m, (r, Some (FlushErr m)) ∈ jobs s -> onRejected r = HIgnore) /\
  (forall pf pr r, pf ∈ flushes s -> promises s !! pf = Some pr -> r ∈ reactions pr ->
                   onRejected r = HIgnore) /\
  (forall pf, pf ∈ flushes s -> pf < length (promises s)) /\
  (forall q p, (q, p) ∈ refreshPromises s -> p < length (promises s) /\ p ∉ flushes s).

(** [p] is an allocated promise that no call of [cache.flush()] returned. *)
Definition not_flush (s : State C) (p : PromiseId) : Prop :=
  p < length (promises s) /\ p ∉ flushes s.

(** The promise store only grows and flush promises are only added fresh. *)
Definition grow (s s' : State C) : Prop :=
  length (promises s) <= length (promises s') /\
  (forall pf, pf ∈ flushes s' -> pf ∈ flushes s \/ length (promises s) <= pf).

(** [s'] satisfies the invariant and has the flush promises of [s]. *)
Definition keep (s s' : State C) : Prop :=
  I9 s' /\ flushes s' = flushes s /\ length (promises s) <= length (promises s').

Definition not_flush_err (v : option Err) : Prop :=
  forall m, v <> Some (FlushErr m).

(** The promises a callback can settle itself, and those a reaction can
    settle: its derived promise and what its callbacks settle. *)
Definition htargets (h : Handler) : list PromiseId :=
  match h with
  | HThenSettle _ d | HCatchReject d => [d]
  | HAllResolve p | HAllReject p => [p]
  | _ => []
  end.

Definition rtargets (r : Reaction) : list PromiseId :=
  derived r :: htargets (onFulfilled r) ++ htargets (onRejected r).

(** [r] is registered on the promise [z]. *)
Definition reaction_at (s : State C) (z : PromiseId) (r : Reaction) : Prop :=
  exists pr, promises s !! z = Some pr /\ r ∈ reactions pr.

(** [x] was allocated between [s] and [s']. *)
Definition fresh_in (s s' : State C) (x : PromiseId) : Prop :=
  length (promises s) <= x < length (promises s').

(** A reaction created between [s] and [s']: it can only settle promises
    allocated in between, or promises in [S]. *)
Definition new_ok (S : PromiseId -> Prop) (s s' : State C) (r : Reaction) : Prop :=
  forall x, x ∈ rtargets r -> fresh_in s s' x \/ S x.

(** What a piece of the program may do between [s] and [s'], when the only
    promises of [s] it may settle are those in [S]. *)
Record eff (S : PromiseId -> Prop) (s s' : State C) : Prop := mk_eff
  { e_len : length (promises s) <= length (promises s');
    e_state : forall x, pstateOf s' x <> pstateOf s x ->
                pstateOf s x = Pending /\ (S x \/ fresh_in s s' x);
    e_react : forall z r, reaction_at s' z r -> reaction_at s z r \/ new_ok S s s' r;
    e_keep : forall z r, reaction_at s z r -> pstateOf s' z = Pending -> reaction_at s' z r;
    e_jobs : forall r v, (r, v) ∈ jobs s' ->
               (r, v) ∈ jobs s \/
               (exists z, reaction_at s z r /\ pstateOf s z = Pending /\
                          pstateOf s' z = settlement v) \/
               new_ok S s s' r;
    e_drains : forall i d', drains s' !! i = Some d' ->
                 (exists d, drains s !! i = Some d /\ d_promise d = d_promise d') \/
                 fresh_in s s' (d_promise d');
    e_flushes : forall pf, pf ∈ flushes s' -> pf ∈ flushes s \/ fresh_in s s' pf;
    e_map : forall q p, (q, p) ∈ refreshPromises s' ->
              (q, p) ∈ refreshPromises s \/ fresh_in s s' p }.

(** Every promise mentioned anywhere in the state is allocated. *)
Definition WF (s : State C) : Prop :=
  (forall z r x, reaction_at s z r -> x ∈ rtargets r -> x < length (promises s)) /\
  (forall r v x, (r, v) ∈ jobs s -> x ∈ rtargets r -> x < length (promises s)) /\
  (forall i d, drains s !! i = Some d -> d_promise d < length (promises s)) /\
  (forall pf, pf ∈ flushes s -> pf < length (promises s)) /\
  (forall q p, (q, p) ∈ refreshPromises s -> p < length (promises s)).

(** All that can settle the promise [x]: the reactions allowed by [A]
    (registered, or queued once their promise is settled) and the drains
    allowed by [D]. *)
Definition refs_ok (s : State C) (x : PromiseId)
    (A : PromiseId -> Reaction -> Prop) (D : nat -> Prop) : Prop :=
  (forall z r, reaction_at s z r -> x ∈ rtargets r -> A z r) /\
  (forall r v, (r, v) ∈ jobs s -> x ∈ rtargets r ->
     exists z, A z r /\ pstateOf s z = settlement v) /\
  (forall i d, drains s !! i = Some d -> d_promise d = x -> D i) /\
  (x ∉ flushes s) /\ x < length (promises s).

Definition terminal (d : Drain) : Prop := d_phase d = Finished \/ d_phase d = Failed.

(** A reaction that neither adopts a promise nor settles its own derived
    promise from inside its callbacks. *)
Definition simple (r : Reaction) : Prop :=
  (forall q, onFulfilled r <> HStartRefresh q) /\
  (forall q, onRejected r <> HStartRefresh q) /\
  derived r ∉ htargets (onFulfilled r) ++ htargets (onRejected r).

(** [r] has no callback for the outcome [v]: the outcome passes through to
    the derived promise. *)
Definition passes (r : Reaction) (v : option Err) : Prop :=
  match v with None => onFulfilled r | Some _ => onRejected r end = HForward.

(** The derived promise of [r], registered on [y], is settled by [r] alone:
    it is pending while [r] has not run, and once it is settled so is [y]
    (with the same outcome when [r] has no callback for it). *)
Definition link (s : State C) (y : PromiseId) (r : Reaction) : Prop :=
  (pstateOf s (derived r) = Pending /\
   refs_ok s (derived r) (fun z r' => z = y /\ r' = r) (fun _ => False)) \/
  (pstateOf s (derived r) <> Pending /\ pstateOf s y <> Pending /\
   (forall v, pstateOf s y = settlement v -> passes r v ->
              pstateOf s (derived r) = settlement v)).

(** The promise [x] of the drain [k] is settled by that drain alone, when it
    returns or throws. *)
Definition drain_owned (s : State C) (k : nat) (x : PromiseId) : Prop :=
  exists d, drains s !! k = Some d /\ d_promise d = x /\
    ((pstateOf s x = Pending /\
      refs_ok s x (fun _ _ => False) (fun i => i = k)) \/
     terminal d).

(** The reactions [startRefresh] and the async functions register. *)
Definition fwd (x : PromiseId) : Reaction := mkReaction HForward HForward x.
Definition r_then (q : Query) (b : PromiseId) : Reaction :=
  mkReaction (HThenSettle q b) HForward (b + 2).
Definition r_catch (b : PromiseId) : Reaction :=
  mkReaction HForward (HCatchReject b) (b + 3).

(** The promises of one call of [startRefresh q]: the deferred [b], the
    drain's promise [b + 1], the [then] promise [b + 2], the [catch] promise
    [b + 3] and the returned promise [b + 4]; [k] is the drain it started. *)
Definition chain (s : State C) (q : Query) (b k : nat) : Prop :=
  drain_owned s k (b + 1) /\
  (exists d, drains s !! k = Some d /\ d_query d = q) /\
  link s (b + 1) (r_then q b) /\
  link s (b + 2) (r_catch b) /\
  link s (b + 3) (fwd (b + 4)).

(** The drain an event of the iterator or of the cache belongs to. *)
Definition drain_index (e : Event) : option nat :=
  match e with
  | EYield i _ | EEnd i | EThrow i _ | EUpdate i _ | EValidateDone i _ => Some i
  | _ => None
  end.

(** What an event of drain [i] does to its record [d]: the drain ends, or
    no promise is settled. *)
Definition drain_shape (s s' : State C) (i : nat) (d : Drain) : Prop :=
  exists d', drains s' = <[i := d']> (drains s) /\
    d_promise d' = d_promise d /\ d_query d' = d_query d /\
    (terminal d -> terminal d') /\
    (terminal d' \/ eff (fun _ => False) s s').

(** The promises of [s] that the event [e] may settle. *)
Definition may_settle (e : Event) (s : State C) (x : PromiseId) : Prop :=
  match e with
  | EYield i _ | EEnd i | EThrow i _ | EUpdate i _ | EValidateDone i _ =>
      exists d, drains s !! i = Some d /\ d_promise d = x
  | EFlushDone pf _ => x = pf /\ pf ∈ flushes s
  | ETick => exists r v js, jobs s = (r, v) :: js /\ x ∈ rtargets r
  | _ => False
  end.

(** The reaction of [refreshPromise.then(() => this.startRefresh(query))]
    in [triggerNewRefresh], with the promise [pt] of that [then]. *)
Definition r_start (q : Query) (pt : PromiseId) : Reaction :=
  mkReaction (HStartRefresh q) HForward pt.

(** What may settle [pt]: that reaction, registered on the tracked promise
    [p]; and, once it ran, the promise returned by the [startRefresh] it
    called, which [pt] adopted.  [X] lists these calls by their first
    promise and their drain. *)
Definition next_owner (q : Query) (p pt : PromiseId) (X : list (nat * nat))
    (z : PromiseId) (r : Reaction) : Prop :=
  (z = p /\ r = r_start q pt) \/
  (r = fwd pt /\ exists b k, (b, k) ∈ X /\ z = b + 4).

(** The promise [pt] is pending and owned as above, or the tracked promise
    was rejected and so is [pt], or a drain for [q] started after the
    service had [k0] drains is over. *)
Definition next_refresh (s : State C) (q : Query) (p pt : PromiseId) (k0 : nat) : Prop :=
  (pstateOf s pt = Pending /\
   exists X, (forall b k, (b, k) ∈ X -> k0 <= k /\ chain s q b k) /\
             refs_ok s pt (next_owner q p pt X) (fun _ => False)) \/
  (exists e, pstateOf s pt = Rejected e) \/
  (exists k d, k0 <= k /\ drains s !! k = Some d /\ d_query d = q /\ terminal d).

(** The log entries of a refresh start: the [onRefreshStart] event and the
    call of [iterEnvs]. *)
Definition is_start (e : LogEntry) : bool :=
  match e with LRefreshStarted | LIterEnvs _ => true | _ => false end.

Definition start_entries (q : Query) : list LogEntry := [LRefreshStarted; LIterEnvs q].

(** Between [s] and [s'] drains were started for the queries [nq], in this
    order, and the refresh starts logged in between are theirs. *)
Definition starts (s s' : State C) : Prop :=
  exists nq nl, map d_query (drains s') = map d_query (drains s) ++ nq /\
                log s' = log s ++ nl /\
                List.filter is_start nl = flat_map start_entries nq.

(** The promise [x] of drain [k] with its outcome: pending and owned by
    the drain, or fulfilled by a drain that returned, or rejected by a drain
    that threw. *)
Definition drain_result (s : State C) (k : nat) (x : PromiseId) : Prop :=
  exists d, drains s !! k = Some d /\ d_promise d = x /\
    ((pstateOf s x = Pending /\
      refs_ok s x (fun _ _ => False) (fun i => i = k)) \/
     (pstateOf s x = Fulfilled /\ d_phase d = Finished) \/
     (exists err, pstateOf s x = Rejected err /\ d_phase d = Failed)).

(** The deferred promise [b] of a [startRefresh] with its outcome: pending
    and settled only by the [then] or the [catch] callback, or settled as the
    promise [b + 1] of the drain was. *)
Definition deferred_owner (q : Query) (b : PromiseId) (z : PromiseId) (r : Reaction)
  : Prop :=
  (z = b + 1 /\ r = r_then q b) \/ (z = b + 2 /\ r = r_catch b).

Definition deferred_result (s : State C) (q : Query) (b : PromiseId) : Prop :=
  (pstateOf s b = Pending /\ refs_ok s b (deferred_owner q b) (fun _ => False)) \/
  (pstateOf s b = Fulfilled /\ pstateOf s (b + 1) = Fulfilled) \/
  (exists err, pstateOf s b = Rejected err /\ pstateOf s (b + 1) = Rejected err).

(** The order in which [addEnvsToCacheFromIterator] goes through its
    phases. *)
Definition phase_rank (ph : Phase) : nat :=
  match ph with
  | Draining => 0 | AwaitingUpdates => 1 | Validating => 2 | Finished | Failed => 3
  end.

(** How the record of a drain may differ between an earlier and a later
    state. *)
Definition drain_le (d d' : Drain) : Prop :=
  d_query d' = d_query d /\ d_promise d' = d_promise d /\
  d_onUpdated d' = d_onUpdated d /\
  (d_listening d = false -> d_listening d' = false) /\
  (d_done d = true -> d_done d' = true) /\
  d_pending d <= d_pending d' /\
  (d_updatesDone d = true -> d_updatesDone d' = true) /\
  length (d_seen d) <= length (d_seen d') /\
  (d_phase d' = d_phase d \/ phase_rank (d_phase d) < phase_rank (d_phase d')).

End Predicates.

(** ** The logging facade ([logging/index.ts]) *)

Module Logging.

(** Modelled from the spec: [LogLevel] is declared in [./levels], which is
    not part of the sources; the facade uses [Info], [Error] and [Warn]. *)
Inductive LogLevel := Error | Warn | Info | Debug | Trace.

Section Facade.
(** [winston.Logger], the argument list, and the effect of logging on the
    transports; [logToAll] is imported from [./logger]. *)
Variables Logger Arguments World : Type.
Variable logToAll : list Logger -> LogLevel -> Arguments -> World -> World.
Variable globalLogger : Logger.

Definition log (logLevel : LogLevel) (args : Arguments) : World -> World :=
  logToAll [globalLogger] logLevel args.

Definition logVerbose (args : Arguments) : World -> World := log Info args.
Definition logError (args : Arguments) : World -> World := log Error args.
Definition logInfo (args : Arguments) : World -> World := log Info args.
Definition logWarning (args : Arguments) : World -> World := log Warn args.

End Facade.

Arguments log {Logger Arguments World} logToAll globalLogger logLevel args _.
Arguments logVerbose {Logger Arguments World} logToAll globalLogger args _.
Arguments logError {Logger Arguments World} logToAll globalLogger args _.
Arguments logInfo {Logger Arguments World} logToAll globalLogger args _.
Arguments logWarning {Logger Arguments World} logToAll globalLogger args _.

(** *** The logger and the output channel

    The module keeps the logger and, in [_globalLoggerContent], the
    transport of the output channel registered last ([undefined] before the
    first registration). *)
Section Channels.
(** [winston.Logger] with the three operations the module uses on it,
    [clear()], [level = name] and [add(transport)]; [resolveLevelName] with
    its second argument [winston.config.npm.levels]; the formatter and the
    transport constructor of [./formatters] and [./transports]; the content
    of a transport ([None] for a nullish result) and the empty string. *)
Variables Logger Transport Channel Formatter Content : Type.
Variable logger_clear : Logger -> Logger.
Variable logger_set_level : string -> Logger -> Logger.
Variable logger_add : Transport -> Logger -> Logger.
Variable resolveLevelName : LogLevel -> option string.
Variable getFormatter : Formatter.
Variable getPythonOutputChannelTransport : Channel -> Formatter -> Transport.
Variable getContent : Transport -> option Content.
Variable empty_content : Content.

Record Globals := mkGlobals
  { globalLogger : Logger; _globalLoggerContent : option Transport }.

(** [level = None] is ['off']. *)
Definition setLoggingLevel (level : option LogLevel) (g : Globals) : Globals :=
  match level with
  | None => mkGlobals (logger_clear (globalLogger g)) (_globalLoggerContent g)
  | Some l =>
      match resolveLevelName l with
      | Some levelName =>
          mkGlobals (logger_set_level levelName (globalLogger g)) (_globalLoggerContent g)
      | None => g
      end
  end.

Definition addOutputChannelLogging (channel : Channel) (g : Globals) : Globals :=
  let formatter := getFormatter in
  let transport := getPythonOutputChannelTransport channel formatter in
  mkGlobals (logger_add transport (globalLogger g)) (Some transport).

(** [_globalLoggerContent?.getContent() ?? '']: the empty string when no
    channel was registered, and also when [getContent()] gives nothing. *)
Definition getPythonOutputChannelContent (g : Globals) : Content :=
  match _globalLoggerContent g with
  | Some t => match getContent t with Some content => content | None => empty_content end
  | None => empty_content
  end.

Definition getGlobalLogger (g : Globals) : Logger := globalLogger g.

(** Calls of the two functions that change the module state. *)
Inductive Call :=
| CSetLoggingLevel (level : option LogLevel)
| CAddOutputChannelLogging (channel : Channel).

Definition call (g : Globals) (k : Call) : Globals :=
  match k with
  | CSetLoggingLevel level => setLoggingLevel level g
  | CAddOutputChannelLogging channel => addOutputChannelLogging channel g
  end.

Definition calls (ks : list Call) (g : Globals) : Globals := fold_left call ks g.

(** The channel of the last [addOutputChannelLogging] among the calls. *)
Fixpoint last_channel (ks : list Call) (acc : option Channel) : option Channel :=
  match ks with
  | [] => acc
  | CSetLoggingLevel _ :: ks' => last_channel ks' acc
  | CAddOutputChannelLogging channel :: ks' => last_channel ks' (Some channel)
  end.

End Channels.

Arguments mkGlobals {Logger Transport} globalLogger _globalLoggerContent.
Arguments globalLogger {Logger Transport} g.
Arguments _globalLoggerContent {Logger Transport} g.
Arguments setLoggingLevel {Logger Transport} logger_clear logger_set_level
  resolveLevelName level g.
Arguments addOutputChannelLogging {Logger Transport Channel Formatter} logger_add
  getFormatter getPythonOutputChannelTransport channel g.
Arguments getPythonOutputChannelContent {Logger Transport Content} getContent
  empty_content g.
Arguments getGlobalLogger {Logger Transport} g.
Arguments CSetLoggingLevel {Channel} level.
Arguments CAddOutputChannelLogging {Channel} channel.
Arguments call {Logger Transport Channel Formatter} logger_clear logger_set_level
  logger_add resolveLevelName getFormatter getPythonOutputChannelTransport g k.
Arguments calls {Logger Transport Channel Formatter} logger_clear logger_set_level
  logger_add resolveLevelName getFormatter getPythonOutputChannelTransport ks g.
Arguments last_channel {Channel} ks acc.

End Logging.

(** ** A concrete cache and locator, for running the service *)

(** Modelled from the spec: [envsCollectionCache.ts] is not part of the
    sources.  "addEnv(record): insert or overwrite by identity";
    "updateEnv(oldRecord?, newRecord?): if oldRecord is known and newRecord is
    provided, replace; if newRecord is omitted, the entry is removed; must
    tolerate oldRecord being undefined (no-op)". *)
Module ListCache.

Definition t := list PythonEnvInfo.

Definition same (a b : PythonEnvInfo) : bool :=
  bool_decide (executablePath a = executablePath b).

Definition lc_getEnv (c : t) (path : string) : option PythonEnvInfo :=
  List.find (fun e => bool_decide (executablePath e = path)) c.

Definition lc_remove (o : PythonEnvInfo) (c : t) : t :=
  List.filter (fun e => negb (same e o)) c.

Definition lc_addEnv (c : t) (env : PythonEnvInfo) : string + t :=
  inr (lc_remove env c ++ [env]).

Definition lc_updateEnv (c : t) (old new : option PythonEnvInfo) : string + t :=
  match old with
  | None => inr c
  | Some o =>
      match new with
      | Some n => inr (List.map (fun e => if same e o then n else e) c)
      | None => inr (lc_remove o c)
      end
  end.

#[global] Instance listCache : IEnvsCollectionCache t :=
  {| getEnv := lc_getEnv; getAllEnvs := fun c => c; addEnv := lc_addEnv;
     updateEnv := lc_updateEnv; validated := fun c => c |}.

(** A locator whose iterators all have the [onUpdated] channel, and one
    whose iterators have none. *)
Definition withUpdates : IResolvingLocator := {| iter_onUpdated := fun _ _ => true |}.
Definition plain : IResolvingLocator := {| iter_onUpdated := fun _ _ => false |}.

(** A query filter that accepts every record. *)
Definition anyEnv : QueryRef -> PythonEnvInfo -> bool := fun _ _ => true.

Definition envA : PythonEnvInfo := mkEnv "/usr/bin/python3" 0.
Definition envA' : PythonEnvInfo := mkEnv "/usr/bin/python3" 1.
Definition envB : PythonEnvInfo := mkEnv "/opt/py/bin/python" 0.

End ListCache.

(** A cache with the records of [ListCache] whose [updateEnv] throws when
    it is given no old record. *)
Module StrictCache.

Record t := mk { records : list PythonEnvInfo }.

Definition sc_step (r : string + ListCache.t) : string + t :=
  match r with inl msg => inl msg | inr c => inr (mk c) end.

Definition sc_updateEnv (c : t) (old new : option PythonEnvInfo) : string + t :=
  match old with
  | None => inl "updateEnv: no such environment"
  | Some _ => sc_step (ListCache.lc_updateEnv (records c) old new)
  end.

#[global] Instance strictCache : IEnvsCollectionCache t :=
  {| getEnv := fun c => ListCache.lc_getEnv (records c);
     getAllEnvs := records;
     addEnv := fun c env => sc_step (ListCache.lc_addEnv (records c) env);
     updateEnv := sc_updateEnv;
     validated := fun c => c |}.

End StrictCache.

(** ** Concrete runs *)

Module Scenario.
Import ListCache.

Definition s0 : State ListCache.t := init [].

(** Run with a locator without / with the [onUpdated] channel. *)
Definition runPlain (tr : list Event) (s : State ListCache.t) : option (State ListCache.t) :=
  @run _ _ plain anyEnv tr s.
Definition runUpdates (tr : list Event) (s : State ListCache.t) : option (State ListCache.t) :=
  @run _ _ withUpdates anyEnv tr s.

Definition q7 : Query := Some 7.

(** A refresh for [q7] whose iterator throws, with the microtasks run. *)
Definition iteratorThrows : list Event :=
  [ETriggerRefresh q7; EThrow 0 "boom"; ETick; ETick; ETick].

(** A refresh for [q7] whose cache validation rejects. *)
Definition validationRejects : list Event :=
  [ETriggerRefresh q7; EEnd 0; EValidateDone 0 (Some "stale"); ETick; ETick; ETick].

(** As [iteratorThrows], with [refreshPromise] read while the refresh runs. *)
Definition throwsWhileJoined : list Event :=
  [ETriggerRefresh q7; ERefreshPromise; EThrow 0 "boom"; ETick; ETick; ETick; ETick; ETick].

(** A refresh for the query [Some 1], then a locator change, which starts
    the universal refresh at once (nothing is tracked for [undefined]). *)
Definition exactThenUniversal : list Event :=
  [ETriggerRefresh (Some 1); ELocatorChanged (mkChange 0 None)].

(** A successful refresh whose flush then fails. *)
Definition flushFails : list Event :=
  [ETriggerRefresh q7; EYield 0 envA; EEnd 0; EValidateDone 0 None;
   ETick; ETick; ETick; EFlushDone 5 (Some "disk full"); ETick].

(** While a refresh for [undefined] is tracked, the locator reports two
    changes; the first refresh succeeds and the microtasks run, which starts
    the two refreshes chained behind it; then the first of these succeeds and
    its [then] callback runs. *)
Definition twoChanges (ev1 ev2 : ChangeEvent) : list Event :=
  [ETriggerRefresh None; ELocatorChanged ev1; ELocatorChanged ev2;
   EEnd 0; EValidateDone 0 None; ETick; ETick; ETick; ETick; ETick;
   EEnd 1; EValidateDone 1 None; ETick].

End Scenario.

(** * Properties *)

Section ServiceProofs.
Context {C : Type} `{!IEnvsCollectionCache C} `{!IResolvingLocator}.
Variable getQueryFilter : QueryRef -> PythonEnvInfo -> bool.

Implicit Types (s : State C) (p : PromiseId) (q : Query).

(** ** The promise store *)

Ltac sst :=
  cbv beta iota zeta delta
    [set_cache set_refreshPromises set_promises set_jobs set_drains set_alls
     set_flushes emit set_drain cache refreshPromises promises jobs drains alls
     flushes log fst snd].

Lemma lookup_snoc_here {A} (l : list A) (x : A) (ys : list A) :
  (l ++ x :: ys) !! length l = Some x.
Proof. rewrite lookup_app_r by lia. by rewrite Nat.sub_diag. Qed.

Lemma lookup_snoc_off {A} (l : list A) (ys : list A) (k : nat) :
  (l ++ ys) !! (length l + k) = ys !! k.
Proof. rewrite lookup_app_r by lia. f_equal. lia. Qed.

Lemma insert_snoc_here {A} (l : list A) (x y : A) (ys : list A) :
  <[length l := y]> (l ++ x :: ys) = l ++ y :: ys.
Proof. rewrite insert_app_r_alt by lia. by rewrite Nat.sub_diag. Qed.

Lemma insert_snoc_off {A} (l : list A) (y : A) (ys : list A) (k : nat) :
  <[length l + k := y]> (l ++ ys) = l ++ <[k := y]> ys.
Proof. rewrite insert_app_r_alt by lia. do 2 f_equal. lia. Qed.

Lemma iterEnvsCalls_emit s e :
  iterEnvsCalls (emit e s) = iterEnvsCalls s + (if is_iterEnvs e then 1 else 0).
Proof.
  unfold iterEnvsCalls, emit; simpl. rewrite List.filter_app, length_app; simpl.
  destruct (is_iterEnvs e); simpl; lia.
Qed.

(** [startRefresh] in closed form: five promises are allocated (the
    deferred, the drain's, the two of the [then]/[catch] chain and the one
    of the async function), the deferred is registered under [q], and one
    drain is started. *)
Lemma subscribe_pending (c : C) m ps js ds al fl lg p r rs :
  ps !! p = Some (mkPromise Pending rs) ->
  subscribe p r (mkState c m ps js ds al fl lg) =
  mkState c m (<[p := mkPromise Pending (rs ++ [r])]> ps) js ds al fl lg.
Proof. intros Hp. unfold subscribe. sst. by rewrite Hp. Qed.

Ltac norm :=
  rewrite ?length_app; cbn [length]; rewrite <- ?app_assoc; cbn [app];
  rewrite <- ?Nat.add_assoc; cbn [Nat.add].

Ltac sub k :=
  erewrite (subscribe_pending _ _ _ _ _ _ _ _ (_ + k));
  [| by rewrite (lookup_snoc_off _ _ k)];
  sst; rewrite (insert_snoc_off _ _ _ k); cbn [insert list_insert app]; norm.

Lemma startRefresh_eq q s :
  startRefresh q s =
  let n := length (promises s) in
  (n + 4,
   mkState (cache s) (map_set q n (refreshPromises s))
     (promises s ++
        [ mkPromise Pending [];
          mkPromise Pending [mkReaction (HThenSettle q n) HForward (n + 2)];
          mkPromise Pending [mkReaction HForward (HCatchReject n) (n + 3)];
          mkPromise Pending [mkReaction HForward HForward (n + 4)];
          mkPromise Pending [] ])
     (jobs s) (drains s ++ [startedDrain s q]) (alls s) (flushes s)
     (log s ++ [LRefreshStarted; LIterEnvs q])).
Proof.
  destruct s as [c m ps js ds al fl lg].
  unfold startRefresh, addEnvsToCacheFromIterator, then_, adopt, newPromise, startedDrain.
  sst. norm. sub 1. sub 2. sub 3.
  unfold iterEnvsCalls; sst.
  rewrite List.filter_app, length_app; cbn [List.filter is_iterEnvs length].
  rewrite Nat.add_0_r. reflexivity.
Qed.

Lemma startRefresh_shape q s :
  let '(p, s') := startRefresh q s in
  let n := length (promises s) in
  p = n + 4 /\ cache s' = cache s /\ jobs s' = jobs s /\
  alls s' = alls s /\ flushes s' = flushes s /\
  refreshPromises s' = map_set q n (refreshPromises s) /\
  drains s' = drains s ++ [startedDrain s q] /\
  log s' = log s ++ [LRefreshStarted; LIterEnvs q] /\
  length (promises s') = n + 5.
Proof.
  rewrite startRefresh_eq. cbn zeta. sst. repeat split; try reflexivity.
  rewrite length_app. simpl. lia.
Qed.

Lemma map_get_set_eq q p m : map_get q (map_set q p m) = Some p.
Proof.
  induction m as [|[k v] m IH]; simpl.
  - by rewrite decide_True.
  - destruct (decide (k = q)); simpl.
    + by rewrite decide_True.
    + by rewrite decide_False.
Qed.

Lemma map_get_set_ne q q' p m : q <> q' -> map_get q' (map_set q p m) = map_get q' m.
Proof.
  intros Hne. induction m as [|[k v] m IH]; simpl.
  - by rewrite decide_False.
  - destruct (decide (k = q)); simpl.
    + subst. by rewrite !decide_False.
    + destruct (decide (k = q')); auto.
Qed.

(** ** resolveEnv *)


(** ** getEnvs *)

Lemma length_zero_nil {A} (l : list A) : length l = 0 -> l = [].
Proof. by destruct l. Qed.

Lemma getEnvs_heal_eq q s :
  getAllEnvs (cache s) = [] -> refreshPromises s = [] ->
  getEnvs getQueryFilter q s =
  let n := length (promises s) in
  ([],
   mkState (cache s) [(None, n)]
     (promises s ++
        [ mkPromise Pending [];
          mkPromise Pending [mkReaction (HThenSettle None n) HForward (n + 2)];
          mkPromise Pending [mkReaction HForward (HCatchReject n) (n + 3)];
          mkPromise Pending [mkReaction HForward HForward (n + 4)];
          mkPromise Pending [mkReaction HForward HIgnore (n + 5)];
          mkPromise Pending [] ])
     (jobs s) (drains s ++ [startedDrain s None]) (alls s) (flushes s)
     (log s ++ [LTraceError refresh_error_msg; LRefreshStarted; LIterEnvs None])).
Proof.
  intros Hc Hm. destruct s as [c m ps js ds al fl lg]. simpl in Hc, Hm. subst m.
  unfold getEnvs. sst. rewrite Hc. cbn [length Nat.eqb andb].
  unfold triggerRefresh, getRefreshPromiseForQuery. sst. cbn [map_get].
  rewrite startRefresh_eq. cbn zeta. sst. unfold then_, newPromise. sst. norm.
  sub 4. cbn [map_set].
  assert (Hd : startedDrain
                 (mkState c [] ps js ds al fl (lg ++ [LTraceError refresh_error_msg])) None
               = startedDrain (mkState c [] ps js ds al fl lg) None).
  { unfold startedDrain, iterEnvsCalls. sst.
    rewrite List.filter_app. cbn [List.filter is_iterEnvs]. by rewrite app_nil_r. }
  rewrite Hd. f_equal. by destruct q.
Qed.


(** ** triggerRefresh *)

Lemma triggerRefresh_hit q s p :
  getRefreshPromiseForQuery q s = Some p -> triggerRefresh q s = (p, s).
Proof. unfold triggerRefresh. by intros ->. Qed.

Lemma triggerRefresh_miss q s :
  getRefreshPromiseForQuery q s = None -> triggerRefresh q s = startRefresh q s.
Proof. unfold triggerRefresh. by intros ->. Qed.

(** C1 (amended). A handle tracked for exactly [q] is returned as it is; if
    there is none, a tracked universal handle is returned; in both cases the
    state is untouched, so no drain starts and [iterEnvs] is not called.  With
    nothing tracked, two calls in a row call [iterEnvs q] once and the second
    call returns the handle the first one registered.  Queries that have no
    handle of their own all get a tracked universal handle. *)
Theorem C1_triggerRefresh_dedup (q : Query) (s : State C) :
  (forall p, map_get q (refreshPromises s) = Some p -> triggerRefresh q s = (p, s)) /\
  (forall u, map_get q (refreshPromises s) = None ->
             map_get None (refreshPromises s) = Some u -> triggerRefresh q s = (u, s)) /\
  (map_get q (refreshPromises s) = None -> map_get None (refreshPromises s) = None ->
     let s1 := snd (triggerRefresh q s) in
     let '(p2, s2) := triggerRefresh q s1 in
     s2 = s1 /\
     log s2 = log s ++ [LRefreshStarted; LIterEnvs q] /\
     iterEnvsCalls s2 = S (iterEnvsCalls s) /\
     drains s2 = drains s ++ [startedDrain s q] /\
     p2 = length (promises s) /\
     map_get q (refreshPromises s1) = Some p2) /\
  (forall q' u, map_get q (refreshPromises s) = None ->
                map_get q' (refreshPromises s) = None ->
                map_get None (refreshPromises s) = Some u ->
     fst (triggerRefresh q s) = u /\
     fst (triggerRefresh q' (snd (triggerRefresh q s))) = u).
Proof.
  repeat split.
  - intros p Hp. apply triggerRefresh_hit. unfold getRefreshPromiseForQuery. by rewrite Hp.
  - intros u Hq Hu. apply triggerRefresh_hit. unfold getRefreshPromiseForQuery.
    by rewrite Hq.
  - intros Hq Hu. cbn zeta.
    rewrite (triggerRefresh_miss q s) by (unfold getRefreshPromiseForQuery; by rewrite Hq).
    pose proof (startRefresh_shape q s) as Hs.
    destruct (startRefresh q s) as [p1 s1]. cbn zeta in Hs. cbn [snd].
    destruct Hs as (_ & _ & _ & _ & _ & Hm & Hd & Hl & _).
    assert (Hg : getRefreshPromiseForQuery q s1 = Some (length (promises s))).
    { unfold getRefreshPromiseForQuery. by rewrite Hm, map_get_set_eq. }
    rewrite (triggerRefresh_hit _ _ _ Hg). repeat split; auto.
    + unfold iterEnvsCalls. rewrite Hl, List.filter_app, length_app. simpl. lia.
    + by rewrite Hm, map_get_set_eq.
  - rewrite (triggerRefresh_hit q s u); [done|].
    unfold getRefreshPromiseForQuery. by rewrite H0.
  - rewrite (triggerRefresh_hit q s u) by (unfold getRefreshPromiseForQuery; by rewrite H0).
    cbn [snd]. rewrite (triggerRefresh_hit q' s u); [done|].
    unfold getRefreshPromiseForQuery. by rewrite H1.
Qed.

(** ** The [onUpdated] listener *)

Lemma js_get_out_of_range {A} (l : list (option A)) (i : nat) :
  length l <= i -> js_get l i = None.
Proof. intros Hi. unfold js_get. by rewrite lookup_ge_None_2. Qed.

Lemma js_set_out_of_range {A} (l : list (option A)) (i : nat) (v : A) :
  length l <= i -> js_set l i v = l ++ replicate (i - length l) None ++ [Some v].
Proof. intros Hi. unfold js_set. destruct (Nat.ltb_spec i (length l)); [lia|done]. Qed.


(** ** Frame properties of the promise primitives *)

Ltac fr := intros; repeat (first [progress simpl | case_match]); try done.

Lemma settle_cache p v s : cache (settle p v s) = cache s.
Proof. unfold settle; fr. Qed.
Lemma settle_map p v s : refreshPromises (settle p v s) = refreshPromises s.
Proof. unfold settle; fr. Qed.
Lemma settle_drains p v s : drains (settle p v s) = drains s.
Proof. unfold settle; fr. Qed.
Lemma settle_alls p v s : alls (settle p v s) = alls s.
Proof. unfold settle; fr. Qed.
Lemma settle_flushes p v s : flushes (settle p v s) = flushes s.
Proof. unfold settle; fr. Qed.
Lemma settle_log p v s : log (settle p v s) = log s.
Proof. unfold settle; fr. Qed.
Lemma settle_length p v s : length (promises (settle p v s)) = length (promises s).
Proof. unfold settle; fr. by rewrite length_insert. Qed.

Lemma subscribe_cache p r s : cache (subscribe p r s) = cache s.
Proof. unfold subscribe; fr. Qed.
Lemma subscribe_map p r s : refreshPromises (subscribe p r s) = refreshPromises s.
Proof. unfold subscribe; fr. Qed.
Lemma subscribe_drains p r s : drains (subscribe p r s) = drains s.
Proof. unfold subscribe; fr. Qed.
Lemma subscribe_alls p r s : alls (subscribe p r s) = alls s.
Proof. unfold subscribe; fr. Qed.
Lemma subscribe_flushes p r s : flushes (subscribe p r s) = flushes s.
Proof. unfold subscribe; fr. Qed.
Lemma subscribe_log p r s : log (subscribe p r s) = log s.
Proof. unfold subscribe; fr. Qed.
Lemma subscribe_length p r s : length (promises (subscribe p r s)) = length (promises s).
Proof. unfold subscribe; fr. by rewrite length_insert. Qed.

Create Rewrite HintDb frame_db.
#[local] Hint Rewrite settle_cache settle_map settle_drains settle_alls settle_flushes
  settle_log settle_length subscribe_cache subscribe_map subscribe_drains subscribe_alls
  subscribe_flushes subscribe_log subscribe_length : frame_db.

(** ** What the operations outside a drain do to [drains] and [log] *)

Lemma frame_same s s' : drains s' = drains s -> log s' = log s -> frame s s'.
Proof. intros Hd Hl. exists [], []. rewrite Hd, Hl, !app_nil_r. auto. Qed.

Lemma frame_refl s : frame s s.
Proof. by apply frame_same. Qed.

Lemma frame_trans s1 s2 s3 : frame s1 s2 -> frame s2 s3 -> frame s1 s3.
Proof.
  intros (nd & nl & Hd & Hf & Hl & Hq) (nd' & nl' & Hd' & Hf' & Hl' & Hq').
  exists (nd ++ nd'), (nl ++ nl'). rewrite Hd', Hd, Hl', Hl, !app_assoc.
  repeat split; auto; by apply Forall_app.
Qed.

Lemma frame_emit e s : quiet_entry e -> frame s (emit e s).
Proof. intros He. exists [], [e]. simpl. rewrite app_nil_r. auto. Qed.

Lemma frame_settle p v s : frame s (settle p v s).
Proof. apply frame_same; by autorewrite with frame_db. Qed.

Lemma frame_subscribe p r s : frame s (subscribe p r s).
Proof. apply frame_same; by autorewrite with frame_db. Qed.

Lemma frame_then p f g s : frame s (snd (then_ p f g s)).
Proof. unfold then_, newPromise. simpl. apply frame_same; by autorewrite with frame_db. Qed.

Lemma startedDrain_fresh s q : fresh_drain (startedDrain s q).
Proof. by unfold fresh_drain, startedDrain. Qed.

Lemma frame_startRefresh q s : frame s (snd (startRefresh q s)).
Proof.
  pose proof (startRefresh_shape q s) as Hs. destruct (startRefresh q s) as [p s'].
  cbn zeta in Hs. destruct Hs as (_ & _ & _ & _ & _ & _ & Hd & Hl & _).
  exists [startedDrain s q], [LRefreshStarted; LIterEnvs q]. simpl.
  repeat split; auto using startedDrain_fresh.
  repeat constructor.
Qed.

Lemma frame_triggerRefresh q s : frame s (snd (triggerRefresh q s)).
Proof.
  unfold triggerRefresh. case_match; [apply frame_refl | apply frame_startRefresh].
Qed.

Lemma frame_triggerNewRefresh q s : frame s (snd (triggerNewRefresh q s)).
Proof.
  unfold triggerNewRefresh, newPromise, adopt.
  destruct (getRefreshPromiseForQuery q s) as [p|].
  - pose proof (frame_then p (HStartRefresh q) HForward s) as Hf.
    destruct (then_ _ _ _ s) as [x s1]. simpl in *.
    eapply frame_trans; [exact Hf|]. apply frame_same; by autorewrite with frame_db.
  - pose proof (frame_startRefresh q s) as Hf.
    destruct (startRefresh q s) as [x s1]. simpl in *.
    eapply frame_trans; [exact Hf|]. apply frame_same; by autorewrite with frame_db.
Qed.

Lemma frame_onLocatorChanged ev s : frame s (onLocatorChanged ev s).
Proof.
  unfold onLocatorChanged.
  pose proof (frame_triggerNewRefresh None s) as Hf.
  destruct (triggerNewRefresh None s) as [p s1]. simpl in Hf.
  eapply frame_trans; [exact Hf|]. apply frame_then.
Qed.

Lemma frame_getEnvs q s : frame s (snd (getEnvs getQueryFilter q s)).
Proof.
  unfold getEnvs. simpl. case_match; [|apply frame_refl].
  pose proof (frame_triggerRefresh None (emit (LTraceError refresh_error_msg) s)) as Hf.
  destruct (triggerRefresh None _) as [p s1]. simpl in Hf.
  eapply frame_trans; [apply (frame_emit (LTraceError refresh_error_msg)); exact I|].
  eapply frame_trans; [exact Hf|]. apply frame_then.
Qed.

Lemma frame_fold_then pall vals s :
  frame s (fold_left (fun st v => snd (then_ v (HAllResolve pall) (HAllReject pall) st)) vals s).
Proof.
  revert s. induction vals as [|v vals IH]; intros s; simpl; [apply frame_refl|].
  eapply frame_trans; [|apply IH]. apply frame_then.
Qed.

Lemma frame_promiseAll vals s : frame s (snd (promiseAll vals s)).
Proof.
  unfold promiseAll, newPromise. destruct vals as [|v vals]; cbn [snd].
  - apply frame_same; by autorewrite with frame_db.
  - eapply frame_trans; [|apply (frame_fold_then _ (v :: vals))]. by apply frame_same.
Qed.

Lemma frame_refreshPromise s : frame s (snd (refreshPromise s)).
Proof.
  unfold refreshPromise.
  pose proof (frame_promiseAll (map snd (refreshPromises s)) s) as Hf.
  destruct (promiseAll _ s) as [p s1]. simpl in Hf.
  eapply frame_trans; [exact Hf|]. apply frame_then.
Qed.

Lemma frame_runHandler h v s : frame s (fst (runHandler h v s)).
Proof.
  destruct h; cbn [runHandler fst]; try apply frame_refl.
  - eapply frame_trans; [apply (frame_settle deferred None)|].
    eexists [], [_]. simpl. rewrite app_nil_r.
    split; [reflexivity|]. split; [constructor|]. split; [reflexivity|].
    repeat constructor.
  - destruct v; [apply frame_settle | apply frame_refl].
  - pose proof (frame_startRefresh q s) as Hf. by destruct (startRefresh q s).
  - by apply (frame_emit (LFire ev)).
  - destruct (all_dec pall (alls s)) as [a last]. cbn [fst].
    destruct last; [|by apply frame_same].
    eapply frame_trans; [|apply frame_settle]. by apply frame_same.
  - apply frame_settle.
Qed.

Lemma frame_runJob j s : frame s (runJob j s).
Proof.
  destruct j as [r v]. unfold runJob.
  pose proof (frame_runHandler (match v with None => onFulfilled r | Some _ => onRejected r end)
                v s) as Hf.
  destruct (runHandler _ v s) as [s1 o]. simpl in Hf.
  eapply frame_trans; [exact Hf|].
  destruct o; [apply frame_settle | apply frame_settle | apply frame_subscribe].
Qed.

Lemma frame_flushDone pf r s s' : flushDone pf r s = Some s' -> frame s s'.
Proof. unfold flushDone. case_match; [|done]. intros [= <-]. apply frame_settle. Qed.

(** ** The drain: when validation and flush happen *)

Lemma quiet_not_validate nl i : Forall quiet_entry nl -> LValidateCache i ∉ nl.
Proof. intros Hq Hin. rewrite Forall_forall in Hq. exact (Hq _ Hin). Qed.

Lemma quiet_not_flush nl i : Forall quiet_entry nl -> LFlush i ∉ nl.
Proof. intros Hq Hin. rewrite Forall_forall in Hq. exact (Hq _ Hin). Qed.

Lemma drain_inv_mono tr e s s' i d nl :
  log s' = log s ++ nl -> LValidateCache i ∉ nl -> LFlush i ∉ nl ->
  drain_inv tr s i d -> drain_inv (tr ++ [e]) s' i d.
Proof.
  intros Hl Hv Hf. unfold drain_inv. rewrite Hl.
  rewrite !elem_of_app. intuition.
Qed.

Lemma drain_inv_fresh tr s i d :
  fresh_drain d -> LValidateCache i ∉ log s -> LFlush i ∉ log s -> drain_inv tr s i d.
Proof.
  intros (Hp & Hd & Hn & Hl & Hu) Hv Hf. unfold drain_inv.
  rewrite Hp, Hd, Hl, Hu. destruct (d_onUpdated d); simpl; intuition congruence.
Qed.

Lemma I3_frame tr e s s' : I3 tr s -> frame s s' -> I3 (tr ++ [e]) s'.
Proof.
  intros [Hd Hb] (nd & nl & Hds & Hfr & Hl & Hq).
  assert (Hold : forall i, LValidateCache i ∈ log s' \/ LFlush i ∈ log s' ->
                           LValidateCache i ∈ log s \/ LFlush i ∈ log s).
  { intros i. rewrite Hl, !elem_of_app.
    pose proof (quiet_not_validate nl i Hq). pose proof (quiet_not_flush nl i Hq). tauto. }
  split.
  - intros i d. rewrite Hds. intros Hi.
    apply lookup_app_Some in Hi as [Hi | [Hge Hi]].
    + eapply drain_inv_mono; eauto using quiet_not_validate, quiet_not_flush.
    + apply drain_inv_fresh.
      * rewrite Forall_forall in Hfr. apply Hfr. eapply list_elem_of_lookup_2; eauto.
      * intros Hin. assert (i < length (drains s)) by (apply Hb, Hold; auto). lia.
      * intros Hin. assert (i < length (drains s)) by (apply Hb, Hold; auto). lia.
  - intros i Hi. apply Hold, Hb in Hi. rewrite Hds, length_app. lia.
Qed.

Lemma I3_update tr e s s' j d d' nl :
  I3 tr s -> drains s !! j = Some d ->
  drains s' = <[j := d']> (drains s) -> log s' = log s ++ nl ->
  (forall i, LValidateCache i ∈ nl \/ LFlush i ∈ nl -> i = j) ->
  drain_inv (tr ++ [e]) s' j d' ->
  I3 (tr ++ [e]) s'.
Proof.
  intros [Hd Hb] Hj Hds Hl Hnl Hinv. split.
  - intros i x. rewrite Hds. destruct (decide (i = j)) as [->|Hne].
    + rewrite list_lookup_insert_eq by (by eapply lookup_lt_Some). by intros [= <-].
    + rewrite list_lookup_insert_ne by done. intros Hi.
      eapply drain_inv_mono; eauto; intros Hin; apply Hne, Hnl; auto.
  - intros i. rewrite Hl, Hds, length_insert, !elem_of_app.
    intros [[?|?]|[?|?]]; auto.
    all: rewrite (Hnl i) by auto; by eapply lookup_lt_Some.
Qed.

Tactic Notation "psimpl" :=
  cbn [cache refreshPromises promises jobs drains alls flushes log
       set_cache set_refreshPromises set_promises set_jobs set_drains set_alls
       set_flushes emit set_drain with_phase
       d_query d_promise d_onUpdated d_listening d_seen d_done d_pending
       d_updatesDone d_phase fst snd].
Tactic Notation "psimpl" "in" hyp(H) :=
  cbn [cache refreshPromises promises jobs drains alls flushes log
       set_cache set_refreshPromises set_promises set_jobs set_drains set_alls
       set_flushes emit set_drain with_phase
       d_query d_promise d_onUpdated d_listening d_seen d_done d_pending
       d_updatesDone d_phase fst snd] in H.

Ltac drain_update Hinv Hd :=
  eapply (I3_update _ _ _ _ _ _ _ _ Hinv Hd);
  [ autorewrite with frame_db; psimpl; rewrite ?list_insert_insert_eq; reflexivity
  | autorewrite with frame_db; psimpl; rewrite <- ?app_assoc;
    first [reflexivity | exact (eq_sym (app_nil_r _))]
  | intros ?; cbn [app]; rewrite ?elem_of_cons, ?elem_of_nil; intuition congruence
  | ].

Ltac drain_solve Hinv Hd :=
  let Hdi := fresh "Hdi" in
  pose proof (proj1 Hinv _ _ Hd) as Hdi;
  unfold drain_inv in *; autorewrite with frame_db; psimpl;
  rewrite ?elem_of_app, ?elem_of_cons, ?elem_of_nil;
  intuition (try congruence; try discriminate).

Lemma I3_drainYield tr s s' i env :
  I3 tr s -> drainYield i env s = Some s' -> I3 (tr ++ [EYield i env]) s'.
Proof.
  intros Hinv Hs. unfold drainYield in Hs.
  destruct (drains s !! i) as [d|] eqn:Hd; [|done]. cbn [mbind option_bind] in Hs.
  destruct (decide (d_phase d = Draining)) as [Hp|]; [|done].
  destruct (addEnv _ env) as [err|c]; injection Hs as <-; unfold failDrain.
  - drain_update Hinv Hd. drain_solve Hinv Hd.
  - drain_update Hinv Hd. drain_solve Hinv Hd.
Qed.

Lemma I3_drainEnd tr s s' i :
  I3 tr s -> drainEnd i s = Some s' -> I3 (tr ++ [EEnd i]) s'.
Proof.
  intros Hinv Hs. unfold drainEnd in Hs.
  destruct (drains s !! i) as [d|] eqn:Hd; [|done]. cbn [mbind option_bind] in Hs.
  destruct (decide (d_phase d = Draining)) as [Hp|]; [|done].
  destruct (d_updatesDone d) eqn:Hu; injection Hs as <-; unfold callValidate.
  - drain_update Hinv Hd. drain_solve Hinv Hd.
  - drain_update Hinv Hd. drain_solve Hinv Hd.
Qed.

Lemma I3_drainThrow tr s s' i msg :
  I3 tr s -> drainThrow i msg s = Some s' -> I3 (tr ++ [EThrow i msg]) s'.
Proof.
  intros Hinv Hs. unfold drainThrow in Hs.
  destruct (drains s !! i) as [d|] eqn:Hd; [|done]. cbn [mbind option_bind] in Hs.
  destruct (decide (d_phase d = Draining)) as [Hp|]; [|done].
  injection Hs as <-; unfold failDrain.
  drain_update Hinv Hd. drain_solve Hinv Hd.
Qed.

Lemma I3_drainUpdate tr s s' i event :
  I3 tr s -> drainUpdate i event s = Some s' -> I3 (tr ++ [EUpdate i event]) s'.
Proof.
  intros Hinv Hs. unfold drainUpdate in Hs.
  destruct (drains s !! i) as [d|] eqn:Hd; [|done]. cbn [mbind option_bind] in Hs.
  destruct (d_listening d) eqn:Hli; [|done].
  destruct event as [[index update]|].
  - destruct (updateEnv _ _ update) as [err|c]; injection Hs as <-.
    + drain_update Hinv Hd. drain_solve Hinv Hd.
    + psimpl. destruct (d_done d) eqn:Hdn.
      { pose proof (proj1 Hinv _ _ Hd) as Hdi. unfold drain_inv in Hdi.
        intuition congruence. }
      cbn [andb]. drain_update Hinv Hd. drain_solve Hinv Hd.
  - injection Hs as <-. psimpl. cbn [andb].
    destruct (d_pending d =? 0) eqn:Hpe.
    + apply Nat.eqb_eq in Hpe.
      destruct (bool_decide (d_phase d = AwaitingUpdates)) eqn:Hph;
        [apply bool_decide_eq_true in Hph | apply bool_decide_eq_false in Hph];
        destruct (d_updatesDone d) eqn:Hu; cbn [negb andb]; unfold callValidate;
        drain_update Hinv Hd; drain_solve Hinv Hd.
    + drain_update Hinv Hd. apply Nat.eqb_neq in Hpe. drain_solve Hinv Hd.
Qed.

Lemma I3_drainValidated tr s s' i r :
  I3 tr s -> drainValidated i r s = Some s' -> I3 (tr ++ [EValidateDone i r]) s'.
Proof.
  intros Hinv Hs. unfold drainValidated in Hs.
  destruct (drains s !! i) as [d|] eqn:Hd; [|done]. cbn [mbind option_bind] in Hs.
  destruct (decide (d_phase d = Validating)) as [Hp|]; [|done].
  destruct r as [msg|]; injection Hs as <-; unfold failDrain, then_, newPromise.
  - drain_update Hinv Hd. drain_solve Hinv Hd.
  - drain_update Hinv Hd. drain_solve Hinv Hd.
Qed.

Lemma I3_step tr s s' e :
  I3 tr s -> step getQueryFilter e s = Some s' -> I3 (tr ++ [e]) s'.
Proof.
  intros Hinv Hs.
  destruct e as [q|q| |ev|ev|i env|i|i msg|i event|i r|pf r|]; cbn [step] in Hs.
  - injection Hs as <-. eapply I3_frame; [eauto | exact (frame_triggerRefresh q s)].
  - injection Hs as <-. eapply I3_frame; [eauto | exact (frame_getEnvs q s)].
  - injection Hs as <-. eapply I3_frame; [eauto | exact (frame_refreshPromise s)].
  - injection Hs as <-. eapply I3_frame; [eauto | exact (frame_onLocatorChanged ev s)].
  - injection Hs as <-. eapply I3_frame; [eauto | by apply (frame_emit (LFire ev))].
  - by eapply I3_drainYield.
  - by eapply I3_drainEnd.
  - by eapply I3_drainThrow.
  - by eapply I3_drainUpdate.
  - by eapply I3_drainValidated.
  - eapply I3_frame; [eauto | by eapply frame_flushDone].
  - destruct (jobs s) as [|j js] eqn:Hj; [done|]. injection Hs as <-.
    eapply I3_frame; [eauto|].
    eapply frame_trans; [|apply frame_runJob]. by apply frame_same.
Qed.

Lemma run_snoc tr e (s : State C) :
  run getQueryFilter (tr ++ [e]) s = s' ← run getQueryFilter tr s; step getQueryFilter e s'.
Proof.
  revert s. induction tr as [|e' tr IH]; intros s; simpl.
  - by destruct (step getQueryFilter e s).
  - destruct (step getQueryFilter e' s); simpl; auto.
Qed.

Lemma I3_run c tr s : run getQueryFilter tr (init c) = Some s -> I3 tr s.
Proof.
  revert s. induction tr as [|e tr IH] using rev_ind; intros s Hr.
  - injection Hr as <-. split.
    + intros i d Hi. cbn in Hi. by rewrite lookup_nil in Hi.
    + intros i [Hi|Hi]; by apply elem_of_nil in Hi.
  - rewrite run_snoc in Hr.
    destruct (run getQueryFilter tr (init c)) as [s1|]; [|done]. simpl in Hr.
    eapply I3_step; eauto.
Qed.

(** C3. In every run of the service, [validateCache] has been called for
    drain [i] only if the main sequence of that drain is exhausted and, when
    its iterator has the revision channel, the closing [null] was received
    with no revision pending; [flush] is called only after [validateCache]
    was called and succeeded; a drain at or past validation is in that case.
    A drain without revision channel goes to [validateCache] in the very step
    in which its main sequence ends. *)
Theorem C3_validation_after_drain (c : C) (tr : list Event) (s : State C) (i : nat) :
  run getQueryFilter tr (init c) = Some s ->
  (LValidateCache i ∈ log s -> exists d, drains s !! i = Some d /\ drained tr i d) /\
  (LFlush i ∈ log s -> LValidateCache i ∈ log s /\ EValidateDone i None ∈ tr) /\
  (forall d, drains s !! i = Some d ->
     d_phase d = Validating \/ d_phase d = Finished ->
     LValidateCache i ∈ log s /\ drained tr i d /\
     (d_phase d = Finished -> LFlush i ∈ log s)) /\
  (forall d, drains s !! i = Some d -> d_onUpdated d = false -> d_phase d = Draining ->
     exists s', step getQueryFilter (EEnd i) s = Some s' /\
       log s' = log s ++ [LValidateCache i] /\
       drains s' !! i = Some (with_phase Validating d)).
Proof.
  intros Hrun. apply I3_run in Hrun as [Hd Hb].
  assert (Hdr : forall d, drains s !! i = Some d -> LValidateCache i ∈ log s -> drained tr i d).
  { intros d Hi Hv. specialize (Hd _ _ Hi). unfold drain_inv in Hd. unfold drained.
    destruct (d_onUpdated d); intuition congruence. }
  split; [|split; [|split]].
  - intros Hv. assert (Hlt : i < length (drains s)) by auto.
    apply lookup_lt_is_Some in Hlt as [d Hi]. eauto.
  - intros Hf. assert (Hlt : i < length (drains s)) by auto.
    apply lookup_lt_is_Some in Hlt as [d Hi]. specialize (Hd _ _ Hi).
    unfold drain_inv in Hd. tauto.
  - intros d Hi Hp. pose proof (Hd _ _ Hi) as Hdi. unfold drain_inv in Hdi.
    assert (LValidateCache i ∈ log s) by tauto.
    split; [done|]. split; [by apply Hdr|]. tauto.
  - intros d Hi Hu Hp. specialize (Hd _ _ Hi). unfold drain_inv in Hd.
    cbn [step]. unfold drainEnd. rewrite Hi. cbn [mbind option_bind].
    rewrite decide_True by done.
    assert (d_updatesDone d = true) as -> by tauto.
    eexists. split; [reflexivity|]. unfold callValidate. psimpl.
    split; [reflexivity|]. apply list_lookup_insert_eq. by eapply lookup_lt_Some.
Qed.

(** ** Flush errors stay with the flush promises *)

Lemma grow_refl s : grow s s.
Proof. split; auto. Qed.

Lemma grow_trans s1 s2 s3 : grow s1 s2 -> grow s2 s3 -> grow s1 s3.
Proof.
  intros [Hl Hf] [Hl' Hf']. split; [lia|].
  intros pf Hpf. destruct (Hf' _ Hpf) as [H1|H1]; [|right; lia].
  destruct (Hf _ H1); auto.
Qed.

Lemma grow_same s s' :
  length (promises s) <= length (promises s') -> flushes s' = flushes s -> grow s s'.
Proof. intros Hl Hf. split; [done|]. rewrite Hf. auto. Qed.

Lemma not_flush_grow s s' p : grow s s' -> not_flush s p -> not_flush s' p.
Proof.
  intros [Hl Hf] [Hp Hn]. split; [lia|]. intros Hin.
  destruct (Hf _ Hin); [done|lia].
Qed.

Lemma I9_settle x v s :
  I9 s -> not_flush_err v \/ x ∈ flushes s -> I9 (settle x v s).
Proof.
  intros HI Hv. pose proof HI as (H1 & H2 & H3 & H4 & H5). unfold settle.
  destruct (promises s !! x) as [[st rs]|] eqn:Hx; [|exact HI].
  destruct st; try exact HI.
  unfold I9, pstateOf. psimpl. rewrite length_insert.
  split; [|split; [|split; [|split]]]; [| | |exact H4|exact H5].
  - intros y m. destruct (decide (y = x)) as [->|Hne].
    + rewrite list_lookup_insert_eq by (by eapply lookup_lt_Some). simpl.
      destruct v as [e|]; [|done]. intros [= ->].
      destruct Hv as [Hv|Hv]; [by destruct (Hv m)|done].
    + rewrite list_lookup_insert_ne by done. apply H1.
  - intros r m [Hin|Hin]%elem_of_app; [eauto|].
    apply list_elem_of_fmap in Hin as (r' & Heq & Hin). injection Heq as Hr Hv'.
    subst r' v. destruct Hv as [Hv|Hv]; [by destruct (Hv m)|]. eapply H3; eauto.
  - intros pf pr r Hpf. destruct (decide (pf = x)) as [->|Hne].
    + rewrite list_lookup_insert_eq by (by eapply lookup_lt_Some).
      intros [= <-]. simpl. by intros ?%elem_of_nil.
    + rewrite list_lookup_insert_ne by done. eauto.
Qed.

Lemma I9_subscribe y r s :
  I9 s -> y ∉ flushes s \/ onRejected r = HIgnore -> I9 (subscribe y r s).
Proof.
  intros HI Hy. pose proof HI as (H1 & H2 & H3 & H4 & H5). unfold subscribe.
  destruct (promises s !! y) as [[st rs]|] eqn:Hx; [|exact HI].
  destruct st as [| |e]; unfold I9, pstateOf; psimpl; rewrite ?length_insert;
    (split; [|split; [|split; [|split]]]); auto.
  - intros x m. destruct (decide (x = y)) as [->|Hne].
    + rewrite list_lookup_insert_eq by (by eapply lookup_lt_Some). done.
    + rewrite list_lookup_insert_ne by done. apply H1.
  - intros pf pr r' Hpf. destruct (decide (pf = y)) as [->|Hne].
    + rewrite list_lookup_insert_eq by (by eapply lookup_lt_Some).
      intros [= <-]. simpl. intros [Hin|Hin]%elem_of_app; [eauto|].
      apply list_elem_of_singleton in Hin as ->. by destruct Hy.
    + rewrite list_lookup_insert_ne by done. eauto.
  - intros r' m [Hin|Hin]%elem_of_app; [eauto|].
    by apply list_elem_of_singleton in Hin.
  - intros r' m [Hin|Hin]%elem_of_app; [eauto|].
    apply list_elem_of_singleton in Hin. injection Hin as ? ?. subst r' e.
    destruct Hy as [Hy|Hy]; [|done]. destruct Hy. apply (H1 y m).
    unfold pstateOf. by rewrite Hx.
Qed.

Lemma I9_newPromise s : I9 s -> I9 (snd (newPromise s)).
Proof.
  intros (H1 & H2 & H3 & H4 & H5). unfold newPromise, I9, pstateOf. psimpl.
  rewrite length_app. cbn [length].
  split; [|split; [|split; [|split]]]; auto.
  - intros x m. destruct (decide (x < length (promises s))) as [Hlt|Hge].
    + rewrite lookup_app_l by done. apply H1.
    + destruct (decide (x = length (promises s))) as [->|Hne].
      * by rewrite lookup_snoc_here.
      * rewrite lookup_ge_None_2; [done|]. rewrite length_app. simpl. lia.
  - intros pf pr r Hpf. rewrite lookup_app_l by auto. eauto.
  - intros pf Hpf. apply H4 in Hpf. lia.
  - intros q p Hqp. apply H5 in Hqp as [? ?]. split; [lia|done].
Qed.

Lemma map_get_elem q m p : map_get q m = Some p -> (q, p) ∈ m.
Proof.
  induction m as [|[k v] m IH]; simpl; [done|].
  destruct (decide (k = q)) as [->|].
  - intros [= ->]. apply elem_of_cons. auto.
  - intros Hm. apply elem_of_cons. auto.
Qed.

Lemma map_set_elem q p m x : x ∈ map_set q p m -> x ∈ m \/ x = (q, p).
Proof.
  induction m as [|[k v] m IH]; simpl.
  - intros ->%list_elem_of_singleton. auto.
  - destruct (decide (k = q)) as [->|].
    + intros [->|Hin]%elem_of_cons; auto. left. apply elem_of_cons. auto.
    + intros [->|Hin]%elem_of_cons.
      * left. apply elem_of_cons. auto.
      * destruct (IH Hin); auto. left. apply elem_of_cons. auto.
Qed.

Lemma map_delete_elem q m x : x ∈ map_delete q m -> x ∈ m.
Proof.
  induction m as [|[k v] m IH]; simpl; [done|].
  destruct (decide (k = q)) as [->|].
  - intros Hin. apply elem_of_cons. auto.
  - intros [->|Hin]%elem_of_cons; apply elem_of_cons; auto.
Qed.

(** A state that differs from [s] in nothing the invariant reads, or that
    dropped microtasks or map entries. *)
Lemma I9_sub s s' :
  promises s' = promises s -> flushes s' = flushes s ->
  (forall j, j ∈ jobs s' -> j ∈ jobs s) ->
  (forall x, x ∈ refreshPromises s' -> x ∈ refreshPromises s) ->
  I9 s -> I9 s'.
Proof.
  intros Hp Hf Hj Hm (H1 & H2 & H3 & H4 & H5). unfold I9, pstateOf.
  rewrite Hp, Hf. split; [|split; [|split; [|split]]]; eauto.
Qed.

(** A state that allocated pending promises and registered some of them. *)
Lemma I9_extend s s' new :
  promises s' = promises s ++ new -> Forall (fun pr => pstate pr = Pending) new ->
  jobs s' = jobs s -> flushes s' = flushes s ->
  (forall q p, (q, p) ∈ refreshPromises s' ->
     (q, p) ∈ refreshPromises s \/ length (promises s) <= p < length (promises s')) ->
  I9 s -> I9 s'.
Proof.
  intros Hp Hnew Hj Hf Hm (H1 & H2 & H3 & H4 & H5). unfold I9, pstateOf.
  rewrite Hj, Hf. split; [|split; [|split; [|split]]]; auto.
  - intros x m. rewrite Hp. destruct (decide (x < length (promises s))) as [Hlt|Hge].
    + rewrite lookup_app_l by done. apply H1.
    + rewrite lookup_app_r by lia.
      destruct (new !! (x - length (promises s))) as [pr|] eqn:Hx; [|done].
      rewrite Forall_forall in Hnew. rewrite (Hnew pr); [done|].
      eapply list_elem_of_lookup_2; eauto.
  - intros pf pr r Hpf. rewrite Hp, lookup_app_l by auto. eauto.
  - intros pf Hpf. rewrite Hp, length_app. apply H4 in Hpf. lia.
  - intros q p Hqp. destruct (Hm _ _ Hqp) as [Hin|Hin].
    + apply H5 in Hin as [? ?]. split; [|done]. rewrite Hp, length_app. lia.
    + split; [lia|]. intros Hpf%H4. lia.
Qed.

Lemma I9_then y f g s :
  I9 s -> y ∉ flushes s \/ g = HIgnore ->
  I9 (snd (then_ y f g s)) /\ flushes (snd (then_ y f g s)) = flushes s /\
  length (promises (snd (then_ y f g s))) = S (length (promises s)) /\
  fst (then_ y f g s) = length (promises s).
Proof.
  intros HI Hy. unfold then_. pose proof (I9_newPromise s HI) as HI'.
  unfold newPromise in *. cbn [fst snd] in *. autorewrite with frame_db. psimpl.
  rewrite length_app. cbn [length].
  split; [|split; [done|split; [lia|done]]].
  apply I9_subscribe; auto.
Qed.

Lemma I9_startRefresh q s :
  I9 s ->
  I9 (snd (startRefresh q s)) /\ flushes (snd (startRefresh q s)) = flushes s /\
  length (promises (snd (startRefresh q s))) = length (promises s) + 5 /\
  fst (startRefresh q s) = length (promises s) + 4.
Proof.
  intros HI. rewrite startRefresh_eq. cbn zeta. psimpl.
  rewrite length_app. cbn [length].
  split; [|split; [done|split; [lia|done]]].
  eapply (I9_extend s); [reflexivity| |reflexivity|reflexivity| |exact HI].
  - repeat constructor.
  - psimpl. intros q' p [Hin|Hin]%map_set_elem; [auto|].
    injection Hin as -> ->. right. rewrite length_app. simpl. lia.
Qed.

Lemma I9_map_get s q p : I9 s -> getRefreshPromiseForQuery q s = Some p -> not_flush s p.
Proof.
  intros (_ & _ & _ & _ & H5). unfold getRefreshPromiseForQuery.
  destruct (map_get q (refreshPromises s)) eqn:Hq.
  - intros [= ->]. eapply H5, map_get_elem; eauto.
  - intros Hn. eapply H5, map_get_elem; eauto.
Qed.

Lemma keep_refl s : I9 s -> keep s s.
Proof. intros HI. split; [done|split; [done|lia]]. Qed.

Lemma keep_trans s1 s2 s3 : keep s1 s2 -> keep s2 s3 -> keep s1 s3.
Proof.
  intros (_ & Hf & Hl) (HI & Hf' & Hl'). split; [done|]. split; [congruence|lia].
Qed.

Lemma keep_grow s s' : keep s s' -> grow s s'.
Proof. intros (_ & Hf & Hl). by apply grow_same. Qed.

Lemma keep_not_flush s s' p : keep s s' -> not_flush s p -> not_flush s' p.
Proof. intros Hk. apply not_flush_grow. by apply keep_grow. Qed.

Lemma keep_settle x v s : I9 s -> not_flush_err v -> keep s (settle x v s).
Proof.
  intros HI Hv. split; [apply I9_settle; auto|]. autorewrite with frame_db. auto.
Qed.

Lemma keep_subscribe y r s : I9 s -> not_flush s y -> keep s (subscribe y r s).
Proof.
  intros HI [_ Hy]. split; [apply I9_subscribe; auto|]. autorewrite with frame_db. auto.
Qed.

Lemma keep_then y f g s :
  I9 s -> not_flush s y ->
  keep s (snd (then_ y f g s)) /\ not_flush (snd (then_ y f g s)) (fst (then_ y f g s)).
Proof.
  intros HI [_ Hy]. destruct (I9_then y f g s HI) as (HI' & Hf & Hl & Hr); [auto|].
  pose proof HI as (_ & _ & _ & H4 & _).
  split; [split; [done|split; [done|lia]]|].
  split; [rewrite Hl, Hr; lia|]. rewrite Hf, Hr. intros Hin%H4. lia.
Qed.

Lemma keep_sub s s' :
  promises s' = promises s -> flushes s' = flushes s ->
  (forall j, j ∈ jobs s' -> j ∈ jobs s) ->
  (forall x, x ∈ refreshPromises s' -> x ∈ refreshPromises s) ->
  I9 s -> keep s s'.
Proof.
  intros Hp Hf Hj Hm HI. split; [eapply I9_sub; eauto|]. rewrite Hp, Hf. auto.
Qed.

Lemma keep_startRefresh q s :
  I9 s ->
  keep s (snd (startRefresh q s)) /\
  not_flush (snd (startRefresh q s)) (fst (startRefresh q s)).
Proof.
  intros HI. destruct (I9_startRefresh q s HI) as (HI' & Hf & Hl & Hr).
  pose proof HI as (_ & _ & _ & H4 & _).
  split; [split; [done|split; [done|lia]]|].
  split; [rewrite Hl, Hr; lia|]. rewrite Hf, Hr. intros Hin%H4. lia.
Qed.

Lemma keep_triggerRefresh q s :
  I9 s ->
  keep s (snd (triggerRefresh q s)) /\
  not_flush (snd (triggerRefresh q s)) (fst (triggerRefresh q s)).
Proof.
  intros HI. unfold triggerRefresh.
  destruct (getRefreshPromiseForQuery q s) as [p|] eqn:Hq.
  - split; [by apply keep_refl|]. by eapply I9_map_get.
  - by apply keep_startRefresh.
Qed.

Lemma keep_adopt_new inner s :
  I9 s -> not_flush s inner ->
  let r := (let '(p_async, s2) := newPromise s in (p_async, adopt inner p_async s2)) in
  keep s (snd r) /\ not_flush (snd r) (fst r).
Proof.
  intros HI Hin. unfold newPromise, adopt. cbn [fst snd].
  pose proof (I9_newPromise s HI) as HI'. unfold newPromise in HI'. cbn [snd] in HI'.
  pose proof HI as (_ & _ & _ & H4 & _).
  assert (Hk : keep s (set_promises (promises s ++ [mkPromise Pending []]) s)).
  { split; [done|]. psimpl. rewrite length_app. split; [done|lia]. }
  assert (Hk2 : keep (set_promises (promises s ++ [mkPromise Pending []]) s)
                  (subscribe inner (mkReaction HForward HForward (length (promises s)))
                     (set_promises (promises s ++ [mkPromise Pending []]) s))).
  { apply keep_subscribe; [done|]. eapply keep_not_flush; eauto. }
  split; [eapply keep_trans; eauto|].
  eapply keep_not_flush; [exact Hk2|]. split; psimpl.
  - rewrite length_app. simpl. lia.
  - intros Hpf%H4. lia.
Qed.

Lemma keep_triggerNewRefresh q s :
  I9 s ->
  keep s (snd (triggerNewRefresh q s)) /\
  not_flush (snd (triggerNewRefresh q s)) (fst (triggerNewRefresh q s)).
Proof.
  intros HI. unfold triggerNewRefresh.
  destruct (getRefreshPromiseForQuery q s) as [p|] eqn:Hq.
  - destruct (keep_then p (HStartRefresh q) HForward s HI) as [Hk Hn];
      [by eapply I9_map_get|].
    destruct (then_ p (HStartRefresh q) HForward s) as [x s1]. cbn [fst snd] in *.
    destruct (keep_adopt_new x s1) as [Hk' Hn']; [apply Hk|done|].
    split; [eapply keep_trans; eauto|done].
  - destruct (keep_startRefresh q s HI) as [Hk Hn].
    destruct (startRefresh q s) as [x s1]. cbn [fst snd] in *.
    destruct (keep_adopt_new x s1) as [Hk' Hn']; [apply Hk|done|].
    split; [eapply keep_trans; eauto|done].
Qed.

Lemma keep_onLocatorChanged ev s : I9 s -> keep s (onLocatorChanged ev s).
Proof.
  intros HI. unfold onLocatorChanged.
  destruct (keep_triggerNewRefresh None s HI) as [Hk Hn].
  destruct (triggerNewRefresh None s) as [p s1]. cbn [fst snd] in *.
  eapply keep_trans; [exact Hk|]. apply keep_then; [apply Hk|done].
Qed.

Lemma keep_emit e s : I9 s -> keep s (emit e s).
Proof. intros HI. by apply keep_sub. Qed.

Lemma keep_getEnvs q s : I9 s -> keep s (snd (getEnvs getQueryFilter q s)).
Proof.
  intros HI. unfold getEnvs. cbn [snd]. case_match; [|by apply keep_refl].
  pose proof (keep_emit (LTraceError refresh_error_msg) s HI) as Hk0.
  destruct (keep_triggerRefresh None (emit (LTraceError refresh_error_msg) s)) as [Hk Hn];
    [apply Hk0|].
  destruct (triggerRefresh None _) as [p s1]. cbn [fst snd] in *.
  eapply keep_trans; [exact Hk0|]. eapply keep_trans; [exact Hk|].
  apply keep_then; [apply Hk|done].
Qed.

Lemma keep_fold_then pall vals s :
  I9 s -> Forall (not_flush s) vals ->
  keep s (fold_left (fun st v => snd (then_ v (HAllResolve pall) (HAllReject pall) st)) vals s).
Proof.
  revert s. induction vals as [|v vals IH]; intros s HI Hv; cbn [fold_left].
  - by apply keep_refl.
  - apply Forall_cons in Hv as [Hv Hvs].
    destruct (keep_then v (HAllResolve pall) (HAllReject pall) s HI Hv) as [Hk _].
    eapply keep_trans; [exact Hk|]. apply IH; [apply Hk|].
    eapply Forall_impl; [exact Hvs|]. intros x. by apply keep_not_flush.
Qed.

Lemma keep_promiseAll vals s :
  I9 s -> Forall (not_flush s) vals ->
  keep s (snd (promiseAll vals s)) /\
  not_flush (snd (promiseAll vals s)) (fst (promiseAll vals s)).
Proof.
  intros HI Hv. unfold promiseAll.
  pose proof (I9_newPromise s HI) as HI'. unfold newPromise in *. cbn [snd] in HI'.
  pose proof HI as (_ & _ & _ & H4 & _).
  set (s1 := set_promises (promises s ++ [mkPromise Pending []]) s) in *.
  assert (Hk1 : keep s s1).
  { split; [done|]. unfold s1. psimpl. rewrite length_app. split; [done|lia]. }
  assert (Hn1 : not_flush s1 (length (promises s))).
  { split; unfold s1; psimpl; [rewrite length_app; simpl; lia|]. intros Hpf%H4. lia. }
  destruct vals as [|v vals]; cbn [fst snd].
  - assert (Hk2 : keep s1 (settle (length (promises s)) None s1))
      by (by apply keep_settle).
    split; [eapply keep_trans; [exact Hk1|exact Hk2]|].
    eapply keep_not_flush; [exact Hk2|exact Hn1].
  - set (s2 := set_alls _ s1).
    assert (Hk2 : keep s1 s2) by (by apply keep_sub).
    assert (Hk3 : keep s2 (fold_left (fun st v0 =>
                     snd (then_ v0 (HAllResolve (length (promises s)))
                                   (HAllReject (length (promises s))) st))
                   (v :: vals) s2)).
    { apply keep_fold_then; [apply Hk2|]. eapply Forall_impl; [exact Hv|].
      intros x Hx. eapply keep_not_flush; [exact Hk2|].
      eapply keep_not_flush; [exact Hk1|exact Hx]. }
    split; [eapply keep_trans; [exact Hk1|]; eapply keep_trans; [exact Hk2|exact Hk3]|].
    eapply keep_not_flush; [exact Hk3|]. eapply keep_not_flush; [exact Hk2|exact Hn1].
Qed.

Lemma keep_refreshPromise s : I9 s -> keep s (snd (refreshPromise s)).
Proof.
  intros HI. unfold refreshPromise.
  destruct (keep_promiseAll (map snd (refreshPromises s)) s HI) as [Hk Hn].
  { pose proof HI as (_ & _ & _ & _ & H5). apply Forall_forall. intros x Hx.
    apply list_elem_of_fmap in Hx as ([q p] & -> & Hin). by eapply H5. }
  destruct (promiseAll _ s) as [pall s1]. cbn [fst snd] in *.
  eapply keep_trans; [exact Hk|]. apply keep_then; [apply Hk|done].
Qed.

Lemma keep_runHandler h v s :
  I9 s -> not_flush_err v \/ h = HIgnore ->
  keep s (fst (runHandler h v s)) /\
  match snd (runHandler h v s) with
  | OPass => not_flush_err v
  | OReturn => True
  | OAdopt p => not_flush (fst (runHandler h v s)) p
  end.
Proof.
  intros HI Hv. destruct h; cbn [runHandler fst snd];
    try (destruct Hv as [Hv|Hv]; [|discriminate Hv]).
  - split; [by apply keep_refl|done].
  - split; [|done].
    assert (Hk : keep s (settle deferred None s)) by (by apply keep_settle).
    eapply keep_trans; [exact Hk|]. apply keep_sub; psimpl; auto; [|apply Hk].
    intros x. apply map_delete_elem.
  - split; [|done]. destruct v; [by apply keep_settle | by apply keep_refl].
  - destruct (keep_startRefresh q s HI) as [Hk Hn].
    by destruct (startRefresh q s).
  - split; [by apply keep_emit|done].
  - split; [by apply keep_refl|done].
  - destruct (all_dec pall (alls s)) as [a last]. cbn [fst snd]. split; [|done].
    assert (Hk : keep s (set_alls a s)) by (by apply keep_sub).
    destruct last; [|done].
    eapply keep_trans; [exact Hk|]. apply keep_settle; [apply Hk|done].
  - split; [by apply keep_settle|done].
Qed.

Lemma keep_runJob r v s :
  I9 s -> (forall m, v = Some (FlushErr m) -> onRejected r = HIgnore) ->
  keep s (runJob (r, v) s).
Proof.
  intros HI Hj. unfold runJob.
  set (h := match v with None => onFulfilled r | Some _ => onRejected r end).
  assert (Hv : not_flush_err v \/ h = HIgnore).
  { unfold h. destruct v as [[]|]; try (left; intros m; congruence).
    right. by eapply Hj. }
  destruct (keep_runHandler h v s HI Hv) as [Hk Ho].
  destruct (runHandler h v s) as [s1 o]. cbn [fst snd] in *.
  eapply keep_trans; [exact Hk|]. destruct o.
  - apply keep_settle; [apply Hk|done].
  - apply keep_settle; [apply Hk|done].
  - apply keep_subscribe; [apply Hk|done].
Qed.

Ltac keep_drain HI :=
  first
    [ solve [apply keep_sub; psimpl; auto]
    | eapply keep_trans; [|apply keep_settle; [|intros ?; discriminate]];
      [apply keep_sub; psimpl; auto | eapply I9_sub; [..|exact HI]; psimpl; auto] ].

Lemma keep_drainYield i env s s' : I9 s -> drainYield i env s = Some s' -> keep s s'.
Proof.
  intros HI Hs. unfold drainYield in Hs.
  destruct (drains s !! i) as [d|]; [|done]. cbn [mbind option_bind] in Hs.
  destruct (decide _); [|done].
  destruct (addEnv _ env); injection Hs as <-; unfold failDrain; keep_drain HI.
Qed.

Lemma keep_drainEnd i s s' : I9 s -> drainEnd i s = Some s' -> keep s s'.
Proof.
  intros HI Hs. unfold drainEnd in Hs.
  destruct (drains s !! i) as [d|]; [|done]. cbn [mbind option_bind] in Hs.
  destruct (decide _); [|done].
  destruct (d_updatesDone d); injection Hs as <-; unfold callValidate; keep_drain HI.
Qed.

Lemma keep_drainThrow i msg s s' : I9 s -> drainThrow i msg s = Some s' -> keep s s'.
Proof.
  intros HI Hs. unfold drainThrow in Hs.
  destruct (drains s !! i) as [d|]; [|done]. cbn [mbind option_bind] in Hs.
  destruct (decide _); [|done]. injection Hs as <-; unfold failDrain; keep_drain HI.
Qed.

Lemma keep_drainUpdate i event s s' : I9 s -> drainUpdate i event s = Some s' -> keep s s'.
Proof.
  intros HI Hs. unfold drainUpdate in Hs.
  destruct (drains s !! i) as [d|]; [|done]. cbn [mbind option_bind] in Hs.
  destruct (d_listening d); [|done].
  destruct event as [[index update]|].
  - destruct (updateEnv _ _ update); injection Hs as <-; unfold callValidate;
      repeat case_match; keep_drain HI.
  - injection Hs as <-; unfold callValidate; repeat case_match; keep_drain HI.
Qed.

Lemma I9_add_flush s :
  I9 s ->
  I9 (set_flushes (flushes s ++ [length (promises s)])
        (set_promises (promises s ++ [mkPromise Pending []]) s)).
Proof.
  intros HI. pose proof HI as (_ & _ & _ & H4 & H5).
  pose proof (I9_newPromise s HI) as (H1' & H2' & H3' & H4' & H5').
  unfold newPromise, pstateOf in *. cbn [snd] in *. unfold I9, pstateOf. psimpl.
  psimpl in H1'. psimpl in H3'. psimpl in H4'. psimpl in H5'.
  split; [|split; [|split; [|split]]]; auto.
  - intros x m Hx. apply elem_of_app. left. eauto.
  - intros pf pr r [Hpf|Hpf]%elem_of_app; [eauto|].
    apply list_elem_of_singleton in Hpf as ->. rewrite lookup_snoc_here.
    intros [= <-]. simpl. by intros ?%elem_of_nil.
  - intros pf [Hpf|Hpf]%elem_of_app; [auto|].
    apply list_elem_of_singleton in Hpf as ->. rewrite length_app. simpl. lia.
  - intros q p Hqp. split; [by apply (H5' q p)|].
    intros [Hpf|Hpf]%elem_of_app; [by apply (H5 q p)|].
    apply list_elem_of_singleton in Hpf as ->. apply H5 in Hqp as [? _]. lia.
Qed.

Lemma drainValidated_ok_eq i d s :
  drains s !! i = Some d -> d_phase d = Validating ->
  drainValidated i None s =
  Some (settle (d_promise d) None
          (set_drain i (with_phase Finished d)
             (snd (then_ (length (promises s)) HForward HIgnore
                     (set_flushes (flushes s ++ [length (promises s)])
                        (set_promises (promises s ++ [mkPromise Pending []])
                           (emit (LFlush i) (set_cache (validated (cache s)) s)))))))).
Proof.
  intros Hd Hp. unfold drainValidated. rewrite Hd. cbn [mbind option_bind].
  by rewrite decide_True.
Qed.

Lemma I9_drainValidated i r s s' :
  I9 s -> drainValidated i r s = Some s' -> I9 s' /\ grow s s'.
Proof.
  intros HI Hs.
  destruct (drains s !! i) as [d|] eqn:Hd;
    [|by unfold drainValidated in Hs; rewrite Hd in Hs].
  destruct (decide (d_phase d = Validating)) as [Hp|Hp];
    [|unfold drainValidated in Hs; rewrite Hd in Hs; cbn [mbind option_bind] in Hs;
      by rewrite decide_False in Hs].
  destruct r as [msg|].
  - unfold drainValidated in Hs. rewrite Hd in Hs. cbn [mbind option_bind] in Hs.
    rewrite decide_True in Hs by done. injection Hs as <-.
    assert (Hk : keep s (failDrain i d (ValidateErr msg) s))
      by (unfold failDrain; keep_drain HI).
    split; [apply Hk | by apply keep_grow].
  - rewrite (drainValidated_ok_eq i d s Hd Hp) in Hs.
    apply (inj Some) in Hs. subst s'.
    set (s2 := emit (LFlush i) (set_cache (validated (cache s)) s)).
    assert (HI2 : I9 s2) by (eapply I9_sub; [..|exact HI]; auto).
    pose proof (I9_add_flush s2 HI2) as HI4.
    change (promises s) with (promises s2). change (flushes s) with (flushes s2).
    set (s4 := set_flushes _ _) in *.
    destruct (I9_then (length (promises s2)) HForward HIgnore s4 HI4) as (HI5 & Hf5 & Hl5 & _);
      [by right|].
    set (s5 := snd (then_ _ _ _ s4)) in *. clearbody s5.
    assert (HI6 : I9 (set_drain i (with_phase Finished d) s5))
      by (eapply I9_sub; [..|exact HI5]; auto).
    split; [apply I9_settle; [exact HI6 | left; intros ?; discriminate]|].
    split.
    + autorewrite with frame_db. psimpl. rewrite Hl5. unfold s4. psimpl.
      rewrite length_app. simpl. lia.
    + intros pf. autorewrite with frame_db. psimpl. rewrite Hf5. unfold s4. psimpl.
      intros [Hpf|Hpf]%elem_of_app; [auto|].
      apply list_elem_of_singleton in Hpf as ->. right. done.
Qed.

Lemma I9_flushDone pf r s s' : I9 s -> flushDone pf r s = Some s' -> keep s s'.
Proof.
  intros HI. unfold flushDone.
  destruct (bool_decide (pf ∈ flushes s)) eqn:Hpf; [|done].
  apply bool_decide_eq_true in Hpf. case_match; [|done]. intros [= <-].
  split; [apply I9_settle; auto|]. autorewrite with frame_db. auto.
Qed.

Lemma I9_step e s s' :
  I9 s -> step getQueryFilter e s = Some s' -> I9 s' /\ grow s s'.
Proof.
  intros HI Hs.
  assert (Hkeep : keep s s' -> I9 s' /\ grow s s')
    by (intros Hk; split; [apply Hk | by apply keep_grow]).
  destruct e as [q|q| |ev|ev|i env|i|i msg|i event|i r|pf r|]; cbn [step] in Hs.
  - injection Hs as <-. apply Hkeep. by apply (keep_triggerRefresh q s).
  - injection Hs as <-. apply Hkeep. by apply (keep_getEnvs q s).
  - injection Hs as <-. apply Hkeep. by apply keep_refreshPromise.
  - injection Hs as <-. apply Hkeep. by apply keep_onLocatorChanged.
  - injection Hs as <-. apply Hkeep. by apply (keep_emit (LFire ev)).
  - apply Hkeep. by eapply keep_drainYield.
  - apply Hkeep. by eapply keep_drainEnd.
  - apply Hkeep. by eapply keep_drainThrow.
  - apply Hkeep. by eapply keep_drainUpdate.
  - by eapply I9_drainValidated.
  - apply Hkeep. by eapply I9_flushDone.
  - destruct (jobs s) as [|[r v] js] eqn:Hj; [done|]. injection Hs as <-.
    apply Hkeep.
    assert (Hk : keep s (set_jobs js s)).
    { apply keep_sub; auto. psimpl. intros j Hin. rewrite Hj. apply elem_of_cons. auto. }
    eapply keep_trans; [exact Hk|]. apply keep_runJob; [apply Hk|].
    intros m ->. pose proof HI as (_ & H2 & _). apply (H2 r m). rewrite Hj.
    apply elem_of_cons. auto.
Qed.

Lemma I9_init (c : C) : I9 (init c).
Proof.
  unfold I9, init, pstateOf. psimpl.
  repeat split; try (intros; by rewrite ?lookup_nil in *);
    intros; exfalso; eapply not_elem_of_nil; eauto.
Qed.

Lemma I9_run_from tr s s' :
  I9 s -> run getQueryFilter tr s = Some s' -> I9 s' /\ grow s s'.
Proof.
  revert s. induction tr as [|e tr IH]; intros s HI Hr; cbn [run] in Hr.
  - injection Hr as <-. split; [done|apply grow_refl].
  - destruct (step getQueryFilter e s) as [s1|] eqn:Hs; [|done]. cbn in Hr.
    destruct (I9_step _ _ _ HI Hs) as [HI1 Hg1].
    destruct (IH _ HI1 Hr) as [HI' Hg']. split; [done|]. eapply grow_trans; eauto.
Qed.


(** ** Who can settle a promise *)

Lemma pstateOf_immutable S s s' x :
  eff S s s' -> pstateOf s x <> Pending -> pstateOf s' x = pstateOf s x.
Proof.
  intros He Hx. destruct (decide (pstateOf s' x = pstateOf s x)) as [|Hne]; [done|].
  by destruct (e_state _ _ _ He x Hne).
Qed.

Lemma pstateOf_pending_back S s s' x :
  eff S s s' -> pstateOf s' x = Pending -> pstateOf s x = Pending.
Proof.
  intros He Hx. destruct (decide (pstateOf s x = Pending)) as [|Hne]; [done|].
  rewrite <- (pstateOf_immutable _ _ _ _ He Hne). done.
Qed.

Lemma eff_refl S s : eff S s s.
Proof. split; auto; try done. intros i d Hd. left. eauto. Qed.

Lemma eff_weaken (S S' : PromiseId -> Prop) s s' :
  (forall x, S x -> S' x) -> eff S s s' -> eff S' s s'.
Proof.
  intros HS [H1 H2 H3 H4 H5 H6 H7 H8].
  assert (Hn : forall r, new_ok S s s' r -> new_ok S' s s' r).
  { intros r Hr x Hx. destruct (Hr x Hx); auto. }
  split; auto.
  - intros x Hx. destruct (H2 x Hx) as [? [?|?]]; auto.
  - intros z r Hr. destruct (H3 z r Hr); auto.
  - intros r v Hj. destruct (H5 r v Hj) as [?|[?|?]]; auto.
Qed.

Lemma fresh_in_mono s0 s s' x :
  length (promises s) <= length (promises s') -> fresh_in s0 s x -> fresh_in s0 s' x.
Proof. unfold fresh_in. lia. Qed.

Lemma new_ok_mono S s0 s s' r :
  length (promises s) <= length (promises s') -> new_ok S s0 s r -> new_ok S s0 s' r.
Proof. intros Hl Hr x Hx. destruct (Hr x Hx); eauto using fresh_in_mono. Qed.

Lemma settle_cases x v s :
  settle x v s = s \/
  exists rs, promises s !! x = Some (mkPromise Pending rs) /\
    promises (settle x v s) = <[x := mkPromise (settlement v) []]> (promises s) /\
    jobs (settle x v s) = jobs s ++ map (fun r => (r, v)) rs.
Proof.
  unfold settle. destruct (promises s !! x) as [[[] rs]|]; auto.
  right. exists rs. by psimpl.
Qed.

Lemma subscribe_cases z r s :
  subscribe z r s = s \/
  (exists rs, promises s !! z = Some (mkPromise Pending rs) /\
     promises (subscribe z r s) = <[z := mkPromise Pending (rs ++ [r])]> (promises s) /\
     jobs (subscribe z r s) = jobs s) \/
  (exists v, pstateOf s z = settlement v /\
     promises (subscribe z r s) = promises s /\
     jobs (subscribe z r s) = jobs s ++ [(r, v)]).
Proof.
  unfold subscribe, pstateOf. destruct (promises s !! z) as [[[| |e] rs]|]; auto.
  - right. left. exists rs. by psimpl.
  - right. right. exists None. by psimpl.
  - right. right. exists (Some e). by psimpl.
Qed.

Lemma settlement_not_pending v : settlement v <> Pending.
Proof. by destruct v. Qed.

Lemma effA_settle S s0 s x v :
  eff S s0 s -> S x \/ fresh_in s0 s x -> eff S s0 (settle x v s).
Proof.
  intros He Hx. destruct (settle_cases x v s) as [->|(rs & Hlk & Hp & Hj)]; [done|].
  assert (Hxs : pstateOf s x = Pending) by (unfold pstateOf; by rewrite Hlk).
  assert (Hlt : x < length (promises s)) by (by eapply lookup_lt_Some).
  assert (Hst : forall y, pstateOf (settle x v s) y =
                          if decide (y = x) then settlement v else pstateOf s y).
  { intros y. unfold pstateOf at 1. rewrite Hp. destruct (decide (y = x)) as [->|Hne].
    - by rewrite list_lookup_insert_eq.
    - by rewrite list_lookup_insert_ne. }
  assert (Hra : forall z r, reaction_at (settle x v s) z r -> z <> x /\ reaction_at s z r).
  { intros z r (pr & Hz & Hr). rewrite Hp in Hz. destruct (decide (z = x)) as [->|Hne].
    - rewrite list_lookup_insert_eq in Hz by done. injection Hz as <-.
      by apply elem_of_nil in Hr.
    - rewrite list_lookup_insert_ne in Hz by done. split; [done|]. by exists pr. }
  destruct He as [H1 H2 H3 H4 H5 H6 H7 H8].
  assert (Hlen : length (promises (settle x v s)) = length (promises s))
    by (by rewrite settle_length).
  assert (Hfr : forall y, fresh_in s0 s y -> fresh_in s0 (settle x v s) y)
    by (intros y; unfold fresh_in; rewrite Hlen; auto).
  assert (Hno : forall r, new_ok S s0 s r -> new_ok S s0 (settle x v s) r).
  { intros r Hr y Hy. destruct (Hr y Hy); auto. }
  assert (Hx0 : pstateOf s0 x = Pending).
  { destruct (decide (pstateOf s x = pstateOf s0 x)) as [Heq|Hne]; [congruence|].
    by destruct (H2 x Hne). }
  split.
  - rewrite Hlen. done.
  - intros y. rewrite Hst. destruct (decide (y = x)) as [->|Hne].
    + intros _. split; [done|]. destruct Hx; auto.
    + intros Hy. destruct (H2 y Hy) as [? [?|?]]; auto.
  - intros z r [Hne Hr]%Hra. destruct (H3 z r Hr); auto.
  - intros z r Hr. rewrite Hst. destruct (decide (z = x)) as [->|Hne].
    + intros Hv. by destruct (settlement_not_pending v).
    + intros Hz. destruct (H4 z r Hr Hz) as (pr & Hlz & Hin). exists pr.
      rewrite Hp, list_lookup_insert_ne by done. done.
  - intros r w. rewrite Hj. intros [Hin|Hin]%elem_of_app.
    + destruct (H5 r w Hin) as [?|[(z & Hz & Hz0 & Hzs)|?]]; auto.
      right. left. exists z. split; [done|]. split; [done|].
      rewrite Hst. destruct (decide (z = x)) as [->|]; [|done].
      rewrite Hxs in Hzs. by destruct (settlement_not_pending w).
    + apply list_elem_of_fmap in Hin as (r' & Heq & Hin). injection Heq as -> ->.
      assert (Hr : reaction_at s x r') by (eexists; eauto).
      destruct (H3 x r' Hr) as [Hold|Hnew]; [|auto].
      right. left. exists x. split; [done|]. split; [done|].
      rewrite Hst. by rewrite decide_True.
  - intros i d'. rewrite settle_drains. intros Hd. destruct (H6 i d' Hd); auto.
  - intros pf. rewrite settle_flushes. intros Hf. destruct (H7 pf Hf); auto.
  - intros q p. rewrite settle_map. intros Hm. destruct (H8 q p Hm); auto.
Qed.

Lemma effA_subscribe S s0 s z r :
  eff S s0 s -> new_ok S s0 s r -> eff S s0 (subscribe z r s).
Proof.
  intros He Hr.
  destruct (subscribe_cases z r s) as [->|[(rs & Hlk & Hp & Hj)|(v & Hv & Hp & Hj)]];
    [done| |].
  - assert (Hlt : z < length (promises s)) by (by eapply lookup_lt_Some).
    assert (Hst : forall y, pstateOf (subscribe z r s) y = pstateOf s y).
    { intros y. unfold pstateOf. rewrite Hp. destruct (decide (y = z)) as [->|Hne].
      - by rewrite list_lookup_insert_eq, Hlk.
      - by rewrite list_lookup_insert_ne. }
    assert (Hlen : length (promises (subscribe z r s)) = length (promises s))
      by (by rewrite subscribe_length).
    destruct He as [H1 H2 H3 H4 H5 H6 H7 H8].
    assert (Hno : forall r', new_ok S s0 s r' -> new_ok S s0 (subscribe z r s) r').
    { intros r' Hr' y Hy. destruct (Hr' y Hy); auto. left. unfold fresh_in in *.
      rewrite Hlen. done. }
    assert (Hfr : forall y, fresh_in s0 s y -> fresh_in s0 (subscribe z r s) y)
      by (intros y; unfold fresh_in; rewrite Hlen; auto).
    split.
    + by rewrite Hlen.
    + intros y. rewrite Hst. intros Hy. destruct (H2 y Hy) as [? [?|?]]; auto.
    + intros y r' (pr & Hy & Hin). rewrite Hp in Hy.
      destruct (decide (y = z)) as [->|Hne].
      * rewrite list_lookup_insert_eq in Hy by done. injection Hy as <-. simpl in Hin.
        apply elem_of_app in Hin as [Hin|Hin].
        -- assert (Hra : reaction_at s z r') by (eexists; eauto).
           destruct (H3 z r' Hra); auto.
        -- apply list_elem_of_singleton in Hin as ->. auto.
      * rewrite list_lookup_insert_ne in Hy by done.
        assert (Hra : reaction_at s y r') by (eexists; eauto).
        destruct (H3 y r' Hra); auto.
    + intros y r' Hra. rewrite Hst. intros Hy.
      destruct (H4 y r' Hra Hy) as (pr & Hly & Hin).
      destruct (decide (y = z)) as [->|Hne].
      * eexists. rewrite Hp, list_lookup_insert_eq by done. split; [done|]. simpl.
        rewrite Hlk in Hly. injection Hly as <-. apply elem_of_app. auto.
      * exists pr. by rewrite Hp, list_lookup_insert_ne.
    + intros r' w. rewrite Hj. intros Hin.
      destruct (H5 r' w Hin) as [?|[(y & Hy & Hy0 & Hys)|?]]; auto.
      right. left. exists y. by rewrite Hst.
    + intros i d'. rewrite subscribe_drains. intros Hd. destruct (H6 i d' Hd); auto.
    + intros pf. rewrite subscribe_flushes. intros Hf. destruct (H7 pf Hf); auto.
    + intros q p. rewrite subscribe_map. intros Hm. destruct (H8 q p Hm); auto.
  - assert (Hst : forall y, pstateOf (subscribe z r s) y = pstateOf s y)
      by (intros y; unfold pstateOf; by rewrite Hp).
    assert (Hra : forall y r', reaction_at (subscribe z r s) y r' <-> reaction_at s y r')
      by (intros y r'; unfold reaction_at; by rewrite Hp).
    destruct He as [H1 H2 H3 H4 H5 H6 H7 H8].
    assert (Hfi : forall y, fresh_in s0 (subscribe z r s) y <-> fresh_in s0 s y)
      by (intros y; unfold fresh_in; by rewrite Hp).
    assert (Hno : forall r', new_ok S s0 s r' -> new_ok S s0 (subscribe z r s) r').
    { intros r' Hr' y Hy. rewrite Hfi. auto. }
    split.
    + by rewrite Hp.
    + intros y. rewrite Hst, Hfi. auto.
    + intros y r' Hr'%Hra. destruct (H3 y r' Hr'); auto.
    + intros y r' Hr'. rewrite Hst, Hra. auto.
    + intros r' w. rewrite Hj. intros [Hin|Hin]%elem_of_app.
      * destruct (H5 r' w Hin) as [?|[(y & Hy & Hy0 & Hys)|?]]; auto.
        right. left. exists y. by rewrite Hst.
      * apply list_elem_of_singleton in Hin. injection Hin as -> ->. auto.
    + intros i d'. rewrite subscribe_drains, Hfi. auto.
    + intros pf. rewrite subscribe_flushes, Hfi. auto.
    + intros q p. rewrite subscribe_map, Hfi. auto.
Qed.

(** A state that changed nothing in the promise store. *)
Lemma effA_fields S s0 s s' :
  eff S s0 s -> promises s' = promises s ->
  (forall j, j ∈ jobs s' -> j ∈ jobs s) ->
  (forall i d', drains s' !! i = Some d' ->
     (exists d, drains s !! i = Some d /\ d_promise d = d_promise d') \/
     fresh_in s0 s (d_promise d')) ->
  (forall pf, pf ∈ flushes s' -> pf ∈ flushes s \/ fresh_in s0 s pf) ->
  (forall q p, (q, p) ∈ refreshPromises s' ->
     (q, p) ∈ refreshPromises s \/ fresh_in s0 s p) ->
  eff S s0 s'.
Proof.
  intros [H1 H2 H3 H4 H5 H6 H7 H8] Hp Hj Hd Hf Hm.
  assert (Hst : forall y, pstateOf s' y = pstateOf s y)
    by (intros y; unfold pstateOf; by rewrite Hp).
  assert (Hra : forall y r', reaction_at s' y r' <-> reaction_at s y r')
    by (intros y r'; unfold reaction_at; by rewrite Hp).
  assert (Hfi : forall y, fresh_in s0 s' y <-> fresh_in s0 s y)
    by (intros y; unfold fresh_in; by rewrite Hp).
  assert (Hno : forall r', new_ok S s0 s r' -> new_ok S s0 s' r').
  { intros r' Hr' y Hy. rewrite Hfi. auto. }
  split.
  - by rewrite Hp.
  - intros y. rewrite Hst, Hfi. auto.
  - intros y r' Hr'%Hra. destruct (H3 y r' Hr'); auto.
  - intros y r' Hr'. rewrite Hst, Hra. auto.
  - intros r' w Hin%Hj. destruct (H5 r' w Hin) as [?|[(y & Hy & Hy0 & Hys)|?]]; auto.
    right. left. exists y. by rewrite Hst.
  - intros i d' Hi. rewrite Hfi. destruct (Hd i d' Hi) as [(d & Hdi & Hdp)|?]; auto.
    destruct (H6 i d Hdi) as [(d0 & ? & ?)|?]; [left; exists d0; split; congruence|].
    right. by rewrite <- Hdp.
  - intros pf Hpf. rewrite Hfi. destruct (Hf pf Hpf) as [Hin|?]; auto.
  - intros q p Hqp. rewrite Hfi. destruct (Hm q p Hqp) as [Hin|?]; auto.
Qed.

(** A state that allocated pending promises with new reactions. *)
Lemma effA_extend S s0 s s' new :
  eff S s0 s -> promises s' = promises s ++ new ->
  Forall (fun pr => pstate pr = Pending /\ Forall (new_ok S s0 s') (reactions pr)) new ->
  jobs s' = jobs s ->
  (forall i d', drains s' !! i = Some d' ->
     (exists d, drains s !! i = Some d /\ d_promise d = d_promise d') \/
     fresh_in s0 s' (d_promise d')) ->
  flushes s' = flushes s ->
  (forall q p, (q, p) ∈ refreshPromises s' ->
     (q, p) ∈ refreshPromises s \/ fresh_in s0 s' p) ->
  eff S s0 s'.
Proof.
  intros [H1 H2 H3 H4 H5 H6 H7 H8] Hp Hnew Hj Hd Hf Hm.
  assert (Hlen : length (promises s) <= length (promises s'))
    by (rewrite Hp, length_app; lia).
  assert (Hst : forall y, pstateOf s' y = pstateOf s y).
  { intros y. unfold pstateOf. rewrite Hp.
    destruct (decide (y < length (promises s))) as [Hlt|Hge].
    - by rewrite lookup_app_l.
    - rewrite lookup_app_r by lia. rewrite (lookup_ge_None_2 (promises s)) by lia.
      destruct (new !! _) as [pr|] eqn:Hy; [|done].
      rewrite Forall_forall in Hnew. apply Hnew. eapply list_elem_of_lookup_2; eauto. }
  assert (Hfi : forall y, fresh_in s0 s y -> fresh_in s0 s' y)
    by (intros y; unfold fresh_in; lia).
  assert (Hno : forall r', new_ok S s0 s r' -> new_ok S s0 s' r').
  { intros r' Hr' y Hy. destruct (Hr' y Hy); auto. }
  split.
  - lia.
  - intros y. rewrite Hst. intros Hy. destruct (H2 y Hy) as [? [?|?]]; auto.
  - intros y r' (pr & Hy & Hin). rewrite Hp in Hy.
    apply lookup_app_Some in Hy as [Hy|[Hge Hy]].
    + assert (Hra : reaction_at s y r') by (eexists; eauto).
      destruct (H3 y r' Hra); auto.
    + right. rewrite Forall_forall in Hnew.
      destruct (Hnew pr) as [_ Hrs]; [eapply list_elem_of_lookup_2; eauto|].
      rewrite Forall_forall in Hrs. auto.
  - intros y r' Hra. rewrite Hst. intros Hy.
    destruct (H4 y r' Hra Hy) as (pr & Hly & Hin). exists pr.
    rewrite Hp, lookup_app_l; [done|]. by eapply lookup_lt_Some.
  - intros r' w. rewrite Hj. intros Hin.
    destruct (H5 r' w Hin) as [?|[(y & Hy & Hy0 & Hys)|?]]; auto.
    right. left. exists y. by rewrite Hst.
  - intros i d' Hi. destruct (Hd i d' Hi) as [(d & Hdi & Hdp)|?]; auto.
    destruct (H6 i d Hdi) as [(d0 & ? & ?)|?]; [left; exists d0; split; congruence|].
    right. rewrite <- Hdp. auto.
  - intros pf. rewrite Hf. intros Hpf. destruct (H7 pf Hpf); auto.
  - intros q p Hqp. destruct (Hm q p Hqp) as [Hin|?]; auto.
    destruct (H8 q p Hin); auto.
Qed.

Lemma effA_newPromise S s0 s : eff S s0 s -> eff S s0 (snd (newPromise s)).
Proof.
  intros He. unfold newPromise. cbn [snd].
  eapply (effA_extend S s0 s _ [mkPromise Pending []]); psimpl;
    [exact He | reflexivity | | reflexivity | | reflexivity | ].
  - repeat constructor.
  - intros i d' Hd. left. eauto.
  - auto.
Qed.

Lemma then_length y f g s :
  length (promises (snd (then_ y f g s))) = S (length (promises s)) /\
  fst (then_ y f g s) = length (promises s).
Proof.
  unfold then_, newPromise. cbn [fst snd]. rewrite subscribe_length. psimpl.
  rewrite length_app. simpl. split; [lia|done].
Qed.

Lemma effA_then S s0 s y f g :
  eff S s0 s ->
  (forall x, x ∈ htargets f ++ htargets g -> fresh_in s0 s x \/ S x) ->
  eff S s0 (snd (then_ y f g s)).
Proof.
  intros He Hh. unfold then_. pose proof (effA_newPromise S s0 s He) as He1.
  unfold newPromise in *. cbn [fst snd] in *.
  apply effA_subscribe; [done|].
  intros x [->|Hx]%elem_of_cons; cbn [derived onFulfilled onRejected] in *.
  - left. unfold fresh_in. psimpl. rewrite length_app. simpl.
    pose proof (e_len _ _ _ He). lia.
  - destruct (Hh x Hx) as [Hf|?]; auto. left. unfold fresh_in in *. psimpl.
    rewrite length_app. simpl. lia.
Qed.

Ltac fresh_solve :=
  unfold fresh_in; psimpl; rewrite ?length_app; simpl; lia.

Ltac new_ok_solve :=
  let x := fresh "x" in let Hx := fresh "Hx" in
  intros x Hx; left;
  cbn [rtargets derived onFulfilled onRejected htargets app] in Hx;
  repeat (apply elem_of_cons in Hx as [->|Hx]; [fresh_solve|]);
  by apply elem_of_nil in Hx.

Lemma effA_startRefresh S s0 s q : eff S s0 s -> eff S s0 (snd (startRefresh q s)).
Proof.
  intros He. rewrite startRefresh_eq. cbn zeta. cbn [snd].
  pose proof (e_len _ _ _ He) as Hlen.
  eapply (effA_extend S s0 s); psimpl; [exact He|reflexivity| |reflexivity| |reflexivity|].
  - repeat (constructor; [split; [reflexivity|cbn [reactions]]|]);
      repeat (constructor; [new_ok_solve|]); constructor.
  - intros i d' Hd. apply lookup_app_Some in Hd as [Hd|[_ Hd]]; [left; eauto|].
    right. apply list_elem_of_lookup_2, list_elem_of_singleton in Hd as ->.
    cbn [startedDrain d_promise]. fresh_solve.
  - intros q' p [Hin|Hin]%map_set_elem; [auto|]. injection Hin as -> ->. right.
    fresh_solve.
Qed.

Lemma effA_triggerRefresh S s0 s q : eff S s0 s -> eff S s0 (snd (triggerRefresh q s)).
Proof.
  intros He. unfold triggerRefresh. case_match; [done|by apply effA_startRefresh].
Qed.

Lemma effA_adopt_new S s0 s inner :
  eff S s0 s ->
  eff S s0 (snd (let '(p_async, s2) := newPromise s in (p_async, adopt inner p_async s2))).
Proof.
  intros He. pose proof (effA_newPromise S s0 s He) as He1.
  unfold newPromise, adopt in *. cbn [fst snd] in *.
  apply effA_subscribe; [done|].
  intros x Hx. cbn [rtargets derived onFulfilled onRejected htargets app] in Hx.
  apply list_elem_of_singleton in Hx as ->. left. unfold fresh_in. psimpl.
  rewrite length_app. simpl. pose proof (e_len _ _ _ He). lia.
Qed.

Lemma no_htargets (x : PromiseId) : x ∈ @nil PromiseId ++ [] -> False.
Proof. by intros ?%elem_of_nil. Qed.

Lemma effA_triggerNewRefresh S s0 s q :
  eff S s0 s -> eff S s0 (snd (triggerNewRefresh q s)).
Proof.
  intros He. unfold triggerNewRefresh.
  destruct (getRefreshPromiseForQuery q s) as [p|].
  - pose proof (effA_then S s0 s p (HStartRefresh q) HForward He) as He1.
    destruct (then_ p _ _ s) as [x s1]. cbn [snd] in He1.
    apply effA_adopt_new. apply He1. intros y Hy. by destruct (no_htargets y).
  - pose proof (effA_startRefresh S s0 s q He) as He1.
    destruct (startRefresh q s) as [x s1]. by apply effA_adopt_new.
Qed.

Lemma effA_onLocatorChanged S s0 s ev : eff S s0 s -> eff S s0 (onLocatorChanged ev s).
Proof.
  intros He. unfold onLocatorChanged.
  pose proof (effA_triggerNewRefresh S s0 s None He) as He1.
  destruct (triggerNewRefresh None s) as [p s1]. cbn [snd] in He1.
  apply effA_then; [done|]. intros y Hy. by destruct (no_htargets y).
Qed.

Lemma effA_emit S s0 s e : eff S s0 s -> eff S s0 (emit e s).
Proof.
  intros He. eapply effA_fields; psimpl; eauto.
Qed.

Lemma effA_getEnvs S s0 s q : eff S s0 s -> eff S s0 (snd (getEnvs getQueryFilter q s)).
Proof.
  intros He. unfold getEnvs. cbn [snd]. case_match; [|done].
  pose proof (effA_triggerRefresh S s0 _ None
                (effA_emit S s0 s (LTraceError refresh_error_msg) He)) as He1.
  destruct (triggerRefresh None _) as [p s1]. cbn [snd] in He1.
  apply effA_then; [done|]. intros y Hy. by destruct (no_htargets y).
Qed.

Lemma effA_fold_then S s0 pall vals s :
  eff S s0 s -> fresh_in s0 s pall ->
  eff S s0 (fold_left (fun st v => snd (then_ v (HAllResolve pall) (HAllReject pall) st))
              vals s).
Proof.
  revert s. induction vals as [|v vals IH]; intros s He Hp; cbn [fold_left]; [done|].
  apply IH.
  - apply effA_then; [done|]. intros x Hx. left.
    cbn [htargets app] in Hx. apply elem_of_cons in Hx as [->|Hx]; [done|].
    by apply list_elem_of_singleton in Hx as ->.
  - destruct (then_length v (HAllResolve pall) (HAllReject pall) s) as [Hl _].
    unfold fresh_in in *. rewrite Hl. lia.
Qed.

Lemma effA_promiseAll S s0 s vals : eff S s0 s -> eff S s0 (snd (promiseAll vals s)).
Proof.
  intros He. unfold promiseAll. pose proof (effA_newPromise S s0 s He) as He1.
  pose proof (e_len _ _ _ He) as Hlen.
  unfold newPromise in *. cbn [fst snd] in *.
  assert (Hf : fresh_in s0 (set_promises (promises s ++ [mkPromise Pending []]) s)
                 (length (promises s))) by fresh_solve.
  destruct vals as [|v vals]; cbn [snd].
  - apply effA_settle; auto.
  - apply effA_fold_then; [|exact Hf].
    eapply effA_fields; [exact He1|..]; psimpl; eauto.
Qed.

Lemma effA_refreshPromise S s0 s : eff S s0 s -> eff S s0 (snd (refreshPromise s)).
Proof.
  intros He. unfold refreshPromise.
  pose proof (effA_promiseAll S s0 s (map snd (refreshPromises s)) He) as He1.
  destruct (promiseAll _ s) as [pall s1]. cbn [snd] in He1.
  apply effA_then; [done|]. intros y Hy. by destruct (no_htargets y).
Qed.

Lemma effA_runHandler S s0 s h v :
  eff S s0 s -> (forall x, x ∈ htargets h -> S x) ->
  eff S s0 (fst (runHandler h v s)).
Proof.
  intros He Hh. destruct h; cbn [runHandler fst]; try done.
  - assert (He1 : eff S s0 (settle deferred None s)).
    { apply effA_settle; [done|]. left. apply Hh. by apply list_elem_of_singleton. }
    eapply effA_fields; [exact He1|..]; psimpl; eauto.
    intros q' p Hin%map_delete_elem. auto.
  - destruct v; [|done]. apply effA_settle; [done|]. left. apply Hh.
    by apply list_elem_of_singleton.
  - pose proof (effA_startRefresh S s0 s q He). by destruct (startRefresh q s).
  - by apply effA_emit.
  - destruct (all_dec pall (alls s)) as [a last]. cbn [fst].
    assert (He1 : eff S s0 (set_alls a s))
      by (eapply effA_fields; [exact He|..]; psimpl; eauto).
    destruct last; [|done]. apply effA_settle; [done|]. left. apply Hh.
    by apply list_elem_of_singleton.
  - apply effA_settle; [done|]. left. apply Hh. by apply list_elem_of_singleton.
Qed.

Lemma effA_runJob S s0 s r v :
  eff S s0 s -> (forall x, x ∈ rtargets r -> S x) -> eff S s0 (runJob (r, v) s).
Proof.
  intros He Hr. unfold runJob.
  set (h := match v with None => onFulfilled r | Some _ => onRejected r end).
  assert (Hh : forall x, x ∈ htargets h -> S x).
  { intros x Hx. apply Hr. unfold rtargets. apply elem_of_cons. right.
    apply elem_of_app. unfold h in Hx. destruct v; auto. }
  assert (Hd : S (derived r)) by (apply Hr, elem_of_cons; auto).
  pose proof (effA_runHandler S s0 s h v He Hh) as He1.
  destruct (runHandler h v s) as [s1 o]. cbn [fst] in He1.
  destruct o.
  - apply effA_settle; auto.
  - apply effA_settle; auto.
  - apply effA_subscribe; [done|]. intros x Hx.
    cbn [rtargets derived onFulfilled onRejected htargets app] in Hx.
    apply list_elem_of_singleton in Hx as ->. auto.
Qed.

Lemma drains_insert_cond (ds : list Drain) i d d' :
  ds !! i = Some d -> d_promise d' = d_promise d ->
  forall j x', <[i := d']> ds !! j = Some x' ->
    exists x, ds !! j = Some x /\ d_promise x = d_promise x'.
Proof.
  intros Hd Hp j x' Hj. destruct (decide (j = i)) as [->|Hne].
  - rewrite list_lookup_insert_eq in Hj by (by eapply lookup_lt_Some).
    injection Hj as <-. eauto.
  - rewrite list_lookup_insert_ne in Hj by done. eauto.
Qed.

(** A drain step that only rewrites the drain record, the cache and the log. *)
Lemma eff_drain_fields S s s' i d d' :
  drains s !! i = Some d -> d_promise d' = d_promise d ->
  promises s' = promises s -> jobs s' = jobs s ->
  drains s' = <[i := d']> (drains s) ->
  flushes s' = flushes s -> refreshPromises s' = refreshPromises s ->
  eff S s s'.
Proof.
  intros Hd Hp Hps Hj Hds Hf Hm.
  eapply effA_fields; [apply eff_refl|done|..].
  - rewrite Hj. auto.
  - rewrite Hds. intros j x' Hlk. left.
    exact (drains_insert_cond _ _ _ d' Hd Hp _ _ Hlk).
  - rewrite Hf. auto.
  - rewrite Hm. auto.
Qed.

Ltac eff_drain_fields Hd :=
  eapply (eff_drain_fields _ _ _ _ _ _ Hd); psimpl;
  [ | reflexivity | reflexivity | rewrite ?list_insert_insert_eq; reflexivity
    | reflexivity | reflexivity ];
  reflexivity.

Ltac eff_drain Hd :=
  first
    [ solve [eff_drain_fields Hd]
    | apply effA_settle;
      [ eff_drain_fields Hd | left; eexists; split; [exact Hd | reflexivity] ] ].

Lemma eff_drainYield i env s s' :
  drainYield i env s = Some s' -> eff (may_settle (EYield i env) s) s s'.
Proof.
  intros Hs. unfold drainYield in Hs.
  destruct (drains s !! i) as [d|] eqn:Hd; [|done]. cbn [mbind option_bind] in Hs.
  destruct (decide _); [|done].
  destruct (addEnv _ env); apply (inj Some) in Hs; subst s'; unfold failDrain;
    cbn [may_settle]; eff_drain Hd.
Qed.

Lemma eff_drainEnd i s s' :
  drainEnd i s = Some s' -> eff (may_settle (EEnd i) s) s s'.
Proof.
  intros Hs. unfold drainEnd in Hs.
  destruct (drains s !! i) as [d|] eqn:Hd; [|done]. cbn [mbind option_bind] in Hs.
  destruct (decide _); [|done].
  destruct (d_updatesDone d); apply (inj Some) in Hs; subst s'; unfold callValidate;
    cbn [may_settle]; eff_drain Hd.
Qed.

Lemma eff_drainThrow i msg s s' :
  drainThrow i msg s = Some s' -> eff (may_settle (EThrow i msg) s) s s'.
Proof.
  intros Hs. unfold drainThrow in Hs.
  destruct (drains s !! i) as [d|] eqn:Hd; [|done]. cbn [mbind option_bind] in Hs.
  destruct (decide _); [|done].
  apply (inj Some) in Hs; subst s'; unfold failDrain; cbn [may_settle]; eff_drain Hd.
Qed.

Lemma eff_drainUpdate i event s s' :
  drainUpdate i event s = Some s' -> eff (may_settle (EUpdate i event) s) s s'.
Proof.
  intros Hs. unfold drainUpdate in Hs.
  destruct (drains s !! i) as [d|] eqn:Hd; [|done]. cbn [mbind option_bind] in Hs.
  destruct (d_listening d); [|done].
  destruct event as [[index update]|].
  - destruct (updateEnv _ _ update); apply (inj Some) in Hs; subst s';
      unfold callValidate; cbn [may_settle]; repeat case_match; eff_drain Hd.
  - apply (inj Some) in Hs; subst s'; unfold callValidate; cbn [may_settle];
      repeat case_match; eff_drain Hd.
Qed.

Lemma then_drains y f g s : drains (snd (then_ y f g s)) = drains s.
Proof. unfold then_, newPromise. cbn [snd]. by rewrite subscribe_drains. Qed.

Lemma eff_drainValidated i r s s' :
  drainValidated i r s = Some s' -> eff (may_settle (EValidateDone i r) s) s s'.
Proof.
  intros Hs.
  destruct (drains s !! i) as [d|] eqn:Hd;
    [|by unfold drainValidated in Hs; rewrite Hd in Hs].
  destruct (decide (d_phase d = Validating)) as [Hp|Hp];
    [|unfold drainValidated in Hs; rewrite Hd in Hs; cbn [mbind option_bind] in Hs;
      by rewrite decide_False in Hs].
  destruct r as [msg|].
  - unfold drainValidated in Hs. rewrite Hd in Hs. cbn [mbind option_bind] in Hs.
    rewrite decide_True in Hs by done. apply (inj Some) in Hs. subst s'.
    unfold failDrain. cbn [may_settle]. eff_drain Hd.
  - rewrite (drainValidated_ok_eq i d s Hd Hp) in Hs. apply (inj Some) in Hs. subst s'.
    set (S := may_settle (EValidateDone i None) s).
    set (Y := set_promises (promises s ++ [mkPromise Pending []])
                (emit (LFlush i) (set_cache (validated (cache s)) s))).
    assert (HY : eff S s Y).
    { eapply (effA_extend S s s Y [mkPromise Pending []]);
        [apply eff_refl|reflexivity| |reflexivity| |reflexivity|].
      - repeat constructor.
      - intros j x Hj. left. eauto.
      - auto. }
    set (X := set_flushes (flushes s ++ [length (promises s)]) Y).
    assert (HX : eff S s X).
    { eapply effA_fields; [exact HY|reflexivity|auto| | |auto].
      - intros j x Hj. left. eauto.
      - unfold X. psimpl. intros pf [Hpf|Hpf]%elem_of_app; [auto|].
        apply list_elem_of_singleton in Hpf as ->. right. unfold Y. fresh_solve. }
    assert (HT : eff S s (snd (then_ (length (promises s)) HForward HIgnore X))).
    { apply effA_then; [done|]. intros y Hy. by destruct (no_htargets y). }
    pose proof (then_drains (length (promises s)) HForward HIgnore X) as HTd.
    set (T := snd (then_ _ _ _ X)) in *. clearbody T.
    apply effA_settle; [|left; exists d; by split].
    eapply effA_fields; [exact HT|reflexivity|auto| |auto|auto].
    psimpl. rewrite HTd. unfold X, Y. psimpl. intros j x' Hj. left.
    exact (drains_insert_cond _ _ _ (with_phase Finished d) Hd eq_refl _ _ Hj).
Qed.

Lemma eff_flushDone pf r s s' :
  flushDone pf r s = Some s' -> eff (may_settle (EFlushDone pf r) s) s s'.
Proof.
  unfold flushDone. destruct (bool_decide (pf ∈ flushes s)) eqn:Hpf; [|done].
  apply bool_decide_eq_true in Hpf. case_match; [|done]. intros [= <-].
  apply effA_settle; [apply eff_refl|]. left. by split.
Qed.

Lemma eff_step e s s' :
  step getQueryFilter e s = Some s' -> eff (may_settle e s) s s'.
Proof.
  intros Hs.
  destruct e as [q|q| |ev|ev|i env|i|i msg|i event|i r|pf r|]; cbn [step] in Hs.
  - apply (inj Some) in Hs. subst s'. apply effA_triggerRefresh, eff_refl.
  - apply (inj Some) in Hs. subst s'. apply effA_getEnvs, eff_refl.
  - apply (inj Some) in Hs. subst s'. apply effA_refreshPromise, eff_refl.
  - apply (inj Some) in Hs. subst s'. apply effA_onLocatorChanged, eff_refl.
  - apply (inj Some) in Hs. subst s'. apply effA_emit, eff_refl.
  - by apply eff_drainYield.
  - by apply eff_drainEnd.
  - by apply eff_drainThrow.
  - by apply eff_drainUpdate.
  - by apply eff_drainValidated.
  - by apply eff_flushDone.
  - destruct (jobs s) as [|[r v] js] eqn:Hj; [done|].
    apply (inj Some) in Hs. subst s'. apply effA_runJob.
    + eapply effA_fields; [apply eff_refl|..]; psimpl; auto.
      * intros j Hin. rewrite Hj. apply elem_of_cons. auto.
      * intros i d Hd. left. eauto.
    + intros x Hx. cbn [may_settle]. eauto.
Qed.

(** ** Every mentioned promise is allocated *)

Lemma WF_eff S s s' :
  WF s -> eff S s s' -> (forall x, S x -> x < length (promises s)) -> WF s'.
Proof.
  intros (W1 & W2 & W3 & W4 & W5) [H1 H2 H3 H4 H5 H6 H7 H8] HS.
  assert (Hn : forall r x, new_ok S s s' r -> x ∈ rtargets r -> x < length (promises s')).
  { intros r x Hr Hx. destruct (Hr x Hx) as [[_ ?]|Hs]; [done|]. apply HS in Hs. lia. }
  split; [|split; [|split; [|split]]].
  - intros z r x Hr Hx. destruct (H3 z r Hr) as [Hold|Hnew]; [|eauto].
    pose proof (W1 z r x Hold Hx). lia.
  - intros r v x Hj Hx. destruct (H5 r v Hj) as [Hold|[(z & Hz & _)|Hnew]]; [| |eauto].
    + pose proof (W2 r v x Hold Hx). lia.
    + pose proof (W1 z r x Hz Hx). lia.
  - intros i d' Hd. destruct (H6 i d' Hd) as [(d & Hdi & <-)|[_ ?]]; [|done].
    pose proof (W3 i d Hdi). lia.
  - intros pf Hpf. destruct (H7 pf Hpf) as [Hold|[_ ?]]; [|done].
    pose proof (W4 pf Hold). lia.
  - intros q p Hqp. destruct (H8 q p Hqp) as [Hold|[_ ?]]; [|done].
    pose proof (W5 q p Hold). lia.
Qed.

Lemma may_settle_allocated e s x : WF s -> may_settle e s x -> x < length (promises s).
Proof.
  intros (W1 & W2 & W3 & W4 & W5).
  destruct e; cbn [may_settle]; try done.
  - intros (d0 & Hd & <-). eauto.
  - intros (d0 & Hd & <-). eauto.
  - intros (d0 & Hd & <-). eauto.
  - intros (d0 & Hd & <-). eauto.
  - intros (d0 & Hd & <-). eauto.
  - intros [-> Hpf]. eauto.
  - intros (r & v & js & Hj & Hx). eapply (W2 r v); [|done]. rewrite Hj.
    apply elem_of_cons. auto.
Qed.

Lemma WF_step e s s' : WF s -> step getQueryFilter e s = Some s' -> WF s'.
Proof.
  intros HW Hs. eapply WF_eff; [done|by apply eff_step|].
  intros x. by apply may_settle_allocated.
Qed.

Lemma WF_init (c : C) : WF (init c).
Proof.
  unfold WF, init, reaction_at. psimpl.
  split; [|split; [|split; [|split]]].
  - intros z r x (pr & Hz & _). by rewrite lookup_nil in Hz.
  - intros r v x Hj. by apply elem_of_nil in Hj.
  - intros i d Hd. by rewrite lookup_nil in Hd.
  - intros pf Hpf. by apply elem_of_nil in Hpf.
  - intros q p Hqp. by apply elem_of_nil in Hqp.
Qed.

Lemma WF_run tr s s' : WF s -> run getQueryFilter tr s = Some s' -> WF s'.
Proof.
  revert s. induction tr as [|e tr IH]; intros s HW Hr; cbn [run] in Hr.
  - by injection Hr as <-.
  - destruct (step getQueryFilter e s) as [s1|] eqn:Hs; [|done]. cbn in Hr.
    eapply IH; [|exact Hr]. by eapply WF_step.
Qed.

(** ** Ownership of a promise *)

Lemma refs_ok_eff S s s' x A D :
  refs_ok s x A D -> eff S s s' -> ~ S x ->
  refs_ok s' x A D /\ pstateOf s' x = pstateOf s x.
Proof.
  intros (R1 & R2 & R3 & R4 & R5) He HS.
  pose proof He as [H1 H2 H3 H4 H5 H6 H7 H8].
  assert (Hnf : forall y, fresh_in s s' y -> y <> x) by (unfold fresh_in; intros; lia).
  assert (Hn : forall r, new_ok S s s' r -> x ∈ rtargets r -> False).
  { intros r Hr Hx. destruct (Hr x Hx) as [Hf|?]; [|done]. by apply Hnf in Hf. }
  split; [split; [|split; [|split; [|split]]]|].
  - intros z r Hr Hx. destruct (H3 z r Hr) as [Hold|Hnew]; [eauto|].
    destruct (Hn r Hnew Hx).
  - intros r v Hj Hx. destruct (H5 r v Hj) as [Hold|[(z & Hz & Hz0 & Hzs)|Hnew]].
    + destruct (R2 r v Hold Hx) as (z & Hz & Hzs). exists z. split; [done|].
      rewrite (pstateOf_immutable _ _ _ _ He); [done|]. rewrite Hzs.
      apply settlement_not_pending.
    + exists z. split; [eauto|done].
    + destruct (Hn r Hnew Hx).
  - intros i d' Hd Hp. destruct (H6 i d' Hd) as [(d & Hdi & Hdp)|Hf].
    + eapply R3; eauto. congruence.
    + by apply Hnf in Hf.
  - intros Hpf. destruct (H7 x Hpf) as [?|Hf]; [done|]. by apply Hnf in Hf.
  - lia.
  - destruct (decide (pstateOf s' x = pstateOf s x)) as [|Hne]; [done|].
    destruct (H2 x Hne) as [_ [?|Hf]]; [done|]. by apply Hnf in Hf.
Qed.

Lemma refs_ok_weaken s x (A A' : PromiseId -> Reaction -> Prop) (D D' : nat -> Prop) :
  (forall z r, A z r -> A' z r) -> (forall i, D i -> D' i) ->
  refs_ok s x A D -> refs_ok s x A' D'.
Proof.
  intros HA HD (R1 & R2 & R3 & R4 & R5). split; [|split; [|split; [|split]]]; eauto.
  intros r v Hj Hx. destruct (R2 r v Hj Hx) as (z & ? & ?). eauto.
Qed.

Lemma settle_pstateOf x v s y :
  pstateOf (settle x v s) y =
  if decide (y = x /\ pstateOf s x = Pending /\ x < length (promises s))
  then settlement v else pstateOf s y.
Proof.
  destruct (settle_cases x v s) as [Heq|(rs & Hlk & Hp & _)].
  - rewrite Heq. case_decide as Hc; [|done]. destruct Hc as (-> & Hpe & Hlt).
    exfalso. unfold settle, pstateOf in *.
    destruct (promises s !! x) as [[[] rs]|] eqn:Hlk; try done.
    + apply (f_equal promises) in Heq. psimpl in Heq.
      apply (f_equal (fun l => l !! x)) in Heq.
      rewrite list_lookup_insert_eq in Heq by done. rewrite Hlk in Heq.
      injection Heq as Heq _. by destruct v.
    + apply lookup_ge_None in Hlk. lia.
  - assert (Hlt : x < length (promises s)) by (by eapply lookup_lt_Some).
    assert (Hpe : pstateOf s x = Pending) by (unfold pstateOf; by rewrite Hlk).
    unfold pstateOf at 1. rewrite Hp. destruct (decide (y = x)) as [->|Hne].
    + rewrite list_lookup_insert_eq by done. by rewrite decide_True.
    + rewrite list_lookup_insert_ne by done. rewrite decide_False; [done|].
      by intros [? _].
Qed.

Lemma settle_not_pending x v s :
  x < length (promises s) -> pstateOf (settle x v s) x <> Pending.
Proof.
  intros Hx. rewrite settle_pstateOf. case_decide as Hc.
  - apply settlement_not_pending.
  - intros Hp. apply Hc. auto.
Qed.

Lemma settle_pending_eq x v s :
  x < length (promises s) -> pstateOf s x = Pending ->
  pstateOf (settle x v s) x = settlement v.
Proof. intros Hx Hp. rewrite settle_pstateOf. by rewrite decide_True. Qed.

Lemma runHandler_simple h v s :
  (forall q, h <> HStartRefresh q) ->
  snd (runHandler h v s) = OPass /\ h = HForward /\ fst (runHandler h v s) = s \/
  snd (runHandler h v s) = OReturn.
Proof.
  intros Hh. destruct h; cbn [runHandler fst snd]; auto.
  - by destruct (Hh q).
  - destruct (all_dec pall (alls s)). auto.
Qed.

Lemma runJob_simple r v s :
  simple r -> derived r < length (promises s) ->
  pstateOf (runJob (r, v) s) (derived r) <> Pending /\
  (passes r v -> pstateOf s (derived r) = Pending ->
   pstateOf (runJob (r, v) s) (derived r) = settlement v).
Proof.
  intros (Hf & Hr & _) Hlt. unfold runJob, passes.
  set (h := match v with None => onFulfilled r | Some _ => onRejected r end).
  assert (Hh : forall q, h <> HStartRefresh q) by (unfold h; destruct v; auto).
  pose proof (effA_runHandler (fun _ => True) s s h v (eff_refl _ s) (fun _ _ => I)) as He.
  pose proof (e_len _ _ _ He) as Hlen.
  destruct (runHandler_simple h v s Hh) as [(Ho & Hfw & Hs)|Ho].
  - destruct (runHandler h v s) as [s1 o]. cbn [fst snd] in *. subst o s1.
    split; [by apply settle_not_pending|]. intros _ Hp. by apply settle_pending_eq.
  - destruct (runHandler h v s) as [s1 o] eqn:Hrh. cbn [fst snd] in *. subst o.
    split; [apply settle_not_pending; lia|]. intros Hhf.
    rewrite Hhf in Hrh. discriminate Hrh.
Qed.

Lemma settlement_inj v v' : settlement v = settlement v' -> v = v'.
Proof. destruct v, v'; cbn; congruence. Qed.

Lemma not_pending_settlement (st : PState) : st <> Pending -> exists v, st = settlement v.
Proof. destruct st as [| |e]; [done|by exists None|by exists (Some e)]. Qed.

(** A promise without drain owner is not settled by drain or flush events. *)
Lemma refs_no_settle e s x A :
  refs_ok s x A (fun _ => False) ->
  (forall r v js, jobs s = (r, v) :: js -> e = ETick -> x ∉ rtargets r) ->
  ~ may_settle e s x.
Proof.
  intros (R1 & R2 & R3 & R4 & R5) Ht.
  destruct e as [q|q| |ev|ev|i env|i|i msg|i event|i r0|pf r0|];
    cbn [may_settle]; try tauto.
  - intros (d & Hd & Hx). eauto.
  - intros (d & Hd & Hx). eauto.
  - intros (d & Hd & Hx). eauto.
  - intros (d & Hd & Hx). eauto.
  - intros (d & Hd & Hx). eauto.
  - intros [-> Hpf]. done.
  - intros (r & v & js & Hj & Hx). by eapply Ht.
Qed.

Lemma link_settled_stable S s s' y r :
  eff S s s' ->
  pstateOf s (derived r) <> Pending -> pstateOf s y <> Pending ->
  (forall v, pstateOf s y = settlement v -> passes r v ->
             pstateOf s (derived r) = settlement v) ->
  link s' y r.
Proof.
  intros He Hx Hy Hf. right.
  rewrite (pstateOf_immutable _ _ _ _ He Hx), (pstateOf_immutable _ _ _ _ He Hy). auto.
Qed.

Lemma link_step e s s' y r :
  simple r -> link s y r -> step getQueryFilter e s = Some s' -> link s' y r.
Proof.
  intros Hsim Hl Hs. pose proof (eff_step e s s' Hs) as He.
  destruct Hl as [[Hp Hr]|(Hx & Hy & Hf)]; [|by eapply link_settled_stable].
  assert (Hkeep : ~ may_settle e s (derived r) -> link s' y r).
  { intros Hn. destruct (refs_ok_eff _ _ _ _ _ _ Hr He Hn) as [Hr' Hp']. left.
    split; [congruence|done]. }
  assert (e = ETick \/ e <> ETick) as [->|Hne]
    by (destruct e; auto; right; discriminate).
  - cbn [step] in Hs. destruct (jobs s) as [|[rj v] js] eqn:Hj; [done|].
    apply (inj Some) in Hs.
    destruct (decide (derived r ∈ rtargets rj)) as [Hin|Hnin].
    + pose proof Hr as (_ & R2 & _ & _ & R5).
      destruct (R2 rj v) as (z & [-> ->] & Hzs); [rewrite Hj; apply elem_of_cons; auto|done|].
      assert (Hy : pstateOf s y <> Pending)
        by (rewrite Hzs; apply settlement_not_pending).
      destruct (runJob_simple r v (set_jobs js s) Hsim R5) as [Hnp Hfw].
      rewrite Hs in Hnp, Hfw. right. split; [done|].
      rewrite (pstateOf_immutable _ _ _ _ He Hy). split; [done|].
      intros v' Hv' Hpass. rewrite Hzs in Hv'. apply settlement_inj in Hv' as <-.
      apply Hfw; auto.
    + apply Hkeep. eapply refs_no_settle; [exact Hr|].
      intros r0 v0 js0 Hj0 _. rewrite Hj in Hj0. by injection Hj0 as <- _ _.
  - apply Hkeep. eapply refs_no_settle; [exact Hr|]. intros r0 v0 js0 _ ?. done.
Qed.

(** ** What a step does to the drain records *)

Lemma frame_step e s s' :
  drain_index e = None -> step getQueryFilter e s = Some s' -> frame s s'.
Proof.
  intros Hi Hs.
  destruct e as [q|q| |ev|ev|i env|i|i msg|i event|i r|pf r|]; try discriminate Hi;
    cbn [step] in Hs.
  - apply (inj Some) in Hs. subst s'. apply frame_triggerRefresh.
  - apply (inj Some) in Hs. subst s'. apply frame_getEnvs.
  - apply (inj Some) in Hs. subst s'. apply frame_refreshPromise.
  - apply (inj Some) in Hs. subst s'. apply frame_onLocatorChanged.
  - apply (inj Some) in Hs. subst s'. by apply (frame_emit (LFire ev)).
  - by eapply frame_flushDone.
  - destruct (jobs s) as [|j js] eqn:Hj; [done|]. apply (inj Some) in Hs. subst s'.
    eapply frame_trans; [|apply frame_runJob]. by apply frame_same.
Qed.

Ltac bool_hyps :=
  repeat match goal with
         | H : _ && _ = true |- _ => apply andb_true_iff in H as [? ?]
         | H : bool_decide _ = true |- _ => apply bool_decide_eq_true in H
         end;
  cbn [d_phase] in *.

Ltac shape_quiet Hd :=
  bool_hyps; eexists; split; [psimpl; rewrite ?list_insert_insert_eq; reflexivity|];
  split; [reflexivity|]; split; [reflexivity|];
  split; [unfold terminal; psimpl; intuition congruence|];
  right; eff_drain_fields Hd.

Ltac shape_done :=
  eexists; split;
  [autorewrite with frame_db; psimpl; rewrite ?list_insert_insert_eq; reflexivity|];
  split; [reflexivity|]; split; [reflexivity|];
  split; [unfold terminal; psimpl; intuition congruence|];
  left; unfold terminal; psimpl; auto.

Lemma drain_step_shape e s s' i d :
  drain_index e = Some i -> drains s !! i = Some d ->
  step getQueryFilter e s = Some s' -> drain_shape s s' i d.
Proof.
  intros Hi Hd Hs.
  destruct e as [q|q| |ev|ev|j env|j|j msg|j event|j r|pf r|]; try discriminate Hi;
    injection Hi as ->; cbn [step] in Hs.
  - unfold drainYield in Hs. rewrite Hd in Hs. cbn [mbind option_bind] in Hs.
    destruct (decide _) as [Hp|]; [|done].
    destruct (addEnv _ env); apply (inj Some) in Hs; subst s'; unfold failDrain.
    + shape_done.
    + shape_quiet Hd.
  - unfold drainEnd in Hs. rewrite Hd in Hs. cbn [mbind option_bind] in Hs.
    destruct (decide _) as [Hp|]; [|done].
    destruct (d_updatesDone d); apply (inj Some) in Hs; subst s'; unfold callValidate;
      shape_quiet Hd.
  - unfold drainThrow in Hs. rewrite Hd in Hs. cbn [mbind option_bind] in Hs.
    destruct (decide _) as [Hp|]; [|done].
    apply (inj Some) in Hs; subst s'; unfold failDrain. shape_done.
  - unfold drainUpdate in Hs. rewrite Hd in Hs. cbn [mbind option_bind] in Hs.
    destruct (d_listening d); [|done].
    destruct event as [[index update]|].
    + destruct (updateEnv _ _ update); apply (inj Some) in Hs; subst s';
        unfold callValidate; repeat case_match; shape_quiet Hd.
    + apply (inj Some) in Hs; subst s'; unfold callValidate; repeat case_match;
        shape_quiet Hd.
  - destruct (decide (d_phase d = Validating)) as [Hp|Hp];
      [|unfold drainValidated in Hs; rewrite Hd in Hs; cbn [mbind option_bind] in Hs;
        by rewrite decide_False in Hs].
    destruct r as [msg|].
    + unfold drainValidated in Hs. rewrite Hd in Hs. cbn [mbind option_bind] in Hs.
      rewrite decide_True in Hs by done. apply (inj Some) in Hs. subst s'.
      unfold failDrain. shape_done.
    + rewrite (drainValidated_ok_eq i d s Hd Hp) in Hs. apply (inj Some) in Hs. subst s'.
      eexists. split.
      { autorewrite with frame_db. psimpl. rewrite then_drains. psimpl. reflexivity. }
      split; [reflexivity|]. split; [reflexivity|].
      split; [unfold terminal; psimpl; intuition congruence|].
      left. unfold terminal. psimpl. auto.
Qed.

Lemma drain_step_some e s s' i :
  drain_index e = Some i -> step getQueryFilter e s = Some s' -> is_Some (drains s !! i).
Proof.
  intros Hi Hs.
  destruct e as [q|q| |ev|ev|j env|j|j msg|j event|j r|pf r|]; try discriminate Hi;
    injection Hi as ->; cbn [step] in Hs;
    unfold drainYield, drainEnd, drainThrow, drainUpdate, drainValidated in Hs;
    destruct (drains s !! i); eauto; discriminate Hs.
Qed.

Lemma drain_record_step e s s' k d :
  step getQueryFilter e s = Some s' -> drains s !! k = Some d ->
  exists d', drains s' !! k = Some d' /\ d_promise d' = d_promise d /\
             d_query d' = d_query d /\ (terminal d -> terminal d').
Proof.
  intros Hs Hd. destruct (drain_index e) as [i|] eqn:Hi.
  - destruct (drain_step_some e s s' i Hi Hs) as [di Hdi].
    destruct (drain_step_shape e s s' i di Hi Hdi Hs) as (d' & Hds & Hp & Hq & Ht & _).
    destruct (decide (k = i)) as [->|Hne].
    + exists d'. rewrite Hds, list_lookup_insert_eq by (by eapply lookup_lt_Some).
      assert (di = d) as -> by congruence. auto.
    + exists d. rewrite Hds, list_lookup_insert_ne by done. auto.
  - destruct (frame_step e s s' Hi Hs) as (nd & nl & Hds & _).
    exists d. rewrite Hds, lookup_app_l by (by eapply lookup_lt_Some). auto.
Qed.

Lemma drain_owned_step e s s' k x :
  drain_owned s k x -> step getQueryFilter e s = Some s' -> drain_owned s' k x.
Proof.
  intros (d & Hd & Hx & Ho) Hs.
  destruct (drain_record_step e s s' k d Hs Hd) as (d' & Hd' & Hp' & _ & Ht').
  destruct Ho as [[Hpe Hr]|Hterm]; [|exists d'; split; [done|split; [congruence|auto]]].
  pose proof (eff_step e s s' Hs) as He.
  assert (Hkeep : forall S, eff S s s' -> ~ S x -> drain_owned s' k x).
  { intros S HeS Hn. destruct (refs_ok_eff _ _ _ _ _ _ Hr HeS Hn) as [Hr' Hst].
    exists d'. split; [done|]. split; [congruence|]. left. split; [congruence|done]. }
  pose proof Hr as (R1 & R2 & R3 & R4 & R5).
  destruct (drain_index e) as [i|] eqn:Hi.
  - destruct (drain_step_some e s s' i Hi Hs) as [di Hdi].
    destruct (decide (i = k)) as [->|Hne].
    + assert (di = d) as -> by congruence.
      destruct (drain_step_shape e s s' k d Hi Hdi Hs) as (d2 & Hds & _ & _ & _ & Hc).
      assert (d2 = d') as ->.
      { rewrite Hds, list_lookup_insert_eq in Hd' by (by eapply lookup_lt_Some).
        congruence. }
      destruct Hc as [Hterm|He0]; [|eapply Hkeep; [exact He0|tauto]].
      exists d'. split; [done|]. split; [congruence|auto].
    + eapply Hkeep; [exact He|].
      destruct e as [q|q| |ev|ev|j env|j|j msg|j event|j r|pf r|]; try discriminate Hi;
        injection Hi as ->; cbn [may_settle]; intros (d0 & Hd0 & Hx0);
        apply Hne; eauto.
  - eapply Hkeep; [exact He|].
    destruct e as [q|q| |ev|ev|j env|j|j msg|j event|j r|pf r|]; try discriminate Hi;
      cbn [may_settle]; try tauto.
    + intros [-> Hpf]. done.
    + intros (r & v & js & Hj & Hin).
      destruct (R2 r v) as (z & [] & _); [rewrite Hj; apply elem_of_cons; auto|done].
Qed.

(** ** The promises of one [startRefresh] *)

Lemma simple_r_then q b : simple (r_then q b).
Proof.
  repeat split; try discriminate. cbn [r_then derived onFulfilled onRejected htargets app].
  intros Hin%list_elem_of_singleton. lia.
Qed.

Lemma simple_r_catch b : simple (r_catch b).
Proof.
  repeat split; try discriminate. cbn [r_catch derived onFulfilled onRejected htargets app].
  intros Hin%list_elem_of_singleton. lia.
Qed.

Lemma simple_fwd x : simple (fwd x).
Proof. repeat split; try discriminate. by intros ?%elem_of_nil. Qed.

Lemma chain_step e s s' q b k :
  chain s q b k -> step getQueryFilter e s = Some s' -> chain s' q b k.
Proof.
  intros (Ho & (d & Hd & Hq) & L1 & L2 & L3) Hs.
  destruct (drain_record_step e s s' k d Hs Hd) as (d' & Hd' & _ & Hq' & _).
  split; [by eapply drain_owned_step|]. split; [exists d'; split; [done|congruence]|].
  split; [eapply link_step; eauto using simple_r_then|].
  split; [eapply link_step; eauto using simple_r_catch|].
  eapply link_step; eauto using simple_fwd.
Qed.

Lemma link_settled s y r :
  link s y r -> pstateOf s (derived r) <> Pending ->
  pstateOf s y <> Pending /\
  (forall v, pstateOf s y = settlement v -> passes r v ->
             pstateOf s (derived r) = settlement v).
Proof. intros [[Hp _]|(_ & Hy & Hf)] Hx; [done|auto]. Qed.

(** Once the returned promise is settled, the drain has returned or thrown. *)
Lemma chain_done s q b k :
  chain s q b k -> pstateOf s (b + 4) <> Pending ->
  exists d, drains s !! k = Some d /\ d_query d = q /\ terminal d.
Proof.
  intros (Ho & (d & Hd & Hq) & L1 & L2 & L3) H4.
  destruct (link_settled _ _ _ L3 H4) as [H3 _].
  destruct (link_settled _ _ _ L2 H3) as [H2 _].
  destruct (link_settled _ _ _ L1 H2) as [H1 _].
  destruct Ho as (d0 & Hd0 & _ & [[Hp _]|Hterm]); [done|].
  exists d. assert (d0 = d) as -> by congruence. auto.
Qed.

Lemma refs_ok_extend s s' new nd x A D :
  WF s -> promises s' = promises s ++ new -> (forall j, j ∈ jobs s' -> j ∈ jobs s) ->
  drains s' = drains s ++ nd -> flushes s' = flushes s ->
  length (promises s) <= x < length (promises s') ->
  (forall k pr r, new !! k = Some pr -> r ∈ reactions pr -> x ∈ rtargets r ->
     A (length (promises s) + k) r) ->
  (forall j d, nd !! j = Some d -> d_promise d = x -> D (length (drains s) + j)) ->
  refs_ok s' x A D.
Proof.
  intros (W1 & W2 & W3 & W4 & W5) Hp Hj Hd Hf Hx HA HD.
  split; [|split; [|split; [|split]]].
  - intros z r (pr & Hz & Hr) Hin. rewrite Hp in Hz.
    apply lookup_app_Some in Hz as [Hz|[Hge Hz]].
    + assert (x < length (promises s)) by (eapply W1; [eexists; eauto|done]). lia.
    + replace z with (length (promises s) + (z - length (promises s))) by lia. eauto.
  - intros r v Hin%Hj Hxr. pose proof (W2 r v x Hin Hxr). lia.
  - intros i d. rewrite Hd. intros Hi Hdp.
    apply lookup_app_Some in Hi as [Hi|[Hge Hi]].
    + pose proof (W3 i d Hi). lia.
    + replace i with (length (drains s) + (i - length (drains s))) by lia. eauto.
  - rewrite Hf. intros Hpf%W4. lia.
  - lia.
Qed.

Lemma pstateOf_extend s s' new x :
  promises s' = promises s ++ new -> Forall (fun pr => pstate pr = Pending) new ->
  length (promises s) <= x -> pstateOf s' x = Pending.
Proof.
  intros Hp Hnew Hx. unfold pstateOf. rewrite Hp, lookup_app_r by done.
  destruct (new !! _) as [pr|] eqn:Hlk; [|done].
  rewrite Forall_forall in Hnew. apply Hnew. by eapply list_elem_of_lookup_2.
Qed.

Ltac targets_solve Hx :=
  unfold rtargets, r_then, r_catch, fwd in Hx;
  cbn [derived onFulfilled onRejected htargets app] in Hx;
  repeat (apply elem_of_cons in Hx as [Hx|Hx];
          [first [exfalso; lia | split; [lia|reflexivity] | eauto] |]);
  by apply elem_of_nil in Hx.

Ltac new_refs_solve :=
  let k := fresh "k" in let pr := fresh "pr" in let r := fresh "r" in
  let Hk := fresh "Hk" in let Hr := fresh "Hr" in let Hx := fresh "Hx" in
  intros k pr r Hk Hr Hx;
  repeat (destruct k as [|k];
          [ injection Hk as <-; cbn [reactions] in Hr;
            first [ by apply elem_of_nil in Hr
                  | apply list_elem_of_singleton in Hr as ->; targets_solve Hx ]
          | ]);
  cbn in Hk; by rewrite ?lookup_nil in Hk.

Ltac new_drains_solve :=
  let j := fresh "j" in let d := fresh "d" in
  let Hj := fresh "Hj" in let Hp := fresh "Hp" in
  intros j d Hj Hp;
  apply list_elem_of_lookup_2, list_elem_of_singleton in Hj as ->;
  unfold r_then, r_catch, fwd in Hp;
  cbn [startedDrain d_promise derived] in Hp; first [exfalso; lia | idtac].

Lemma chain_start s q :
  WF s -> chain (snd (startRefresh q s)) q (length (promises s)) (length (drains s)).
Proof.
  intros HW. rewrite startRefresh_eq. cbn zeta. cbn [snd].
  set (b := length (promises s)). set (s' := mkState _ _ _ _ _ _ _ _).
  assert (Hpend : forall x, b <= x -> pstateOf s' x = Pending).
  { intros x Hx. eapply (pstateOf_extend s); [reflexivity| |exact Hx].
    repeat constructor. }
  assert (Hrefs : forall x A D, b <= x < b + 5 ->
            (forall k pr r,
               [ mkPromise Pending [];
                 mkPromise Pending [mkReaction (HThenSettle q b) HForward (b + 2)];
                 mkPromise Pending [mkReaction HForward (HCatchReject b) (b + 3)];
                 mkPromise Pending [mkReaction HForward HForward (b + 4)];
                 mkPromise Pending [] ] !! k = Some pr ->
               r ∈ reactions pr -> x ∈ rtargets r -> A (b + k) r) ->
            (forall j d, [startedDrain s q] !! j = Some d -> d_promise d = x ->
                         D (length (drains s) + j)) ->
            refs_ok s' x A D).
  { intros x A D Hx HA HD. eapply (refs_ok_extend s); eauto; try reflexivity.
    unfold s'. psimpl. rewrite length_app. simpl. fold b. lia. }
  assert (Hk : drains s' !! length (drains s) = Some (startedDrain s q))
    by (unfold s'; psimpl; apply lookup_snoc_here).
  split; [|split; [|split; [|split]]].
  - eexists. split; [exact Hk|]. split; [reflexivity|]. left.
    split; [apply Hpend; lia|]. apply Hrefs; [lia| |].
    + new_refs_solve.
    + intros j d Hj Hp. destruct j as [|j]; [cbn beta; lia|]. by destruct j.
  - eexists. split; [exact Hk|reflexivity].
  - left. split; [apply Hpend; cbn; lia|]. apply Hrefs; [cbn; lia| |].
    + new_refs_solve.
    + new_drains_solve.
  - left. split; [apply Hpend; cbn; lia|]. apply Hrefs; [cbn; lia| |].
    + new_refs_solve.
    + new_drains_solve.
  - left. split; [apply Hpend; cbn; lia|]. apply Hrefs; [cbn; lia| |].
    + new_refs_solve.
    + new_drains_solve.
Qed.

(** ** The record of a drain along a run *)

Lemma js_set_length {A} (l : list (option A)) (i : nat) (v : A) :
  length l <= length (js_set l i v).
Proof.
  unfold js_set. destruct (i <? length l).
  - by rewrite length_insert.
  - rewrite length_app. lia.
Qed.

Lemma js_get_set {A} (l : list (option A)) (i : nat) (v : A) :
  js_get (js_set l i v) i = Some v.
Proof.
  unfold js_get, js_set. destruct (Nat.ltb_spec i (length l)) as [Hlt|Hge].
  - by rewrite list_lookup_insert_eq.
  - rewrite lookup_app_r by done. rewrite lookup_app_r by (by rewrite length_replicate).
    rewrite length_replicate, Nat.sub_diag. done.
Qed.

Lemma js_get_set_ne {A} (l : list (option A)) (i j : nat) (v : A) :
  i <> j -> js_get (js_set l i v) j = js_get l j.
Proof.
  intros Hne. unfold js_get, js_set. destruct (Nat.ltb_spec i (length l)) as [Hlt|Hge].
  - by rewrite list_lookup_insert_ne.
  - destruct (Nat.lt_ge_cases j (length l)) as [Hj|Hj].
    + by rewrite lookup_app_l.
    + rewrite (lookup_ge_None_2 l j) by done. rewrite lookup_app_r by done.
      destruct (Nat.lt_ge_cases (j - length l) (i - length l)) as [Hk|Hk].
      * rewrite lookup_app_l by (by rewrite length_replicate).
        by rewrite lookup_replicate_2.
      * rewrite lookup_app_r by (by rewrite length_replicate).
        rewrite length_replicate.
        destruct (j - length l - (i - length l)) as [|k] eqn:Hd; [lia|done].
Qed.

Lemma drain_le_refl d : drain_le d d.
Proof. unfold drain_le. repeat split; auto. Qed.

Lemma drain_le_trans d1 d2 d3 : drain_le d1 d2 -> drain_le d2 d3 -> drain_le d1 d3.
Proof.
  unfold drain_le. intros (?&?&?&?&?&?&?&?&Hp) (?&?&?&?&?&?&?&?&Hp').
  repeat split; try congruence; auto; try lia.
  destruct Hp as [Hp|Hp], Hp' as [Hp'|Hp']; [left; congruence|right..].
  - rewrite <- Hp. done.
  - rewrite Hp'. done.
  - lia.
Qed.

Ltac le_record Hd :=
  eexists; split;
  [ autorewrite with frame_db; psimpl; rewrite ?then_drains; psimpl;
    rewrite ?list_insert_insert_eq; apply list_lookup_insert_eq; by eapply lookup_lt_Some
  | unfold drain_le; psimpl;
    repeat match goal with H : d_phase _ = _ |- _ => rewrite H end;
    repeat split; auto; try done; try lia; try (intros; congruence);
    first [ apply js_set_length
          | unfold js_push; rewrite length_app; lia
          | left; reflexivity
          | right; cbn [phase_rank]; lia
          | idtac ] ].

Lemma drain_step_le e s s' i d :
  drain_index e = Some i -> drains s !! i = Some d ->
  step getQueryFilter e s = Some s' ->
  exists d', drains s' !! i = Some d' /\ drain_le d d'.
Proof.
  intros Hi Hd Hs.
  destruct e as [q|q| |ev|ev|j env|j|j msg|j event|j r|pf r|]; try discriminate Hi;
    injection Hi as ->; cbn [step] in Hs.
  - unfold drainYield in Hs. rewrite Hd in Hs. cbn [mbind option_bind] in Hs.
    destruct (decide _) as [Hp|]; [|done].
    destruct (addEnv _ env); apply (inj Some) in Hs; subst s'; unfold failDrain;
      le_record Hd.
  - unfold drainEnd in Hs. rewrite Hd in Hs. cbn [mbind option_bind] in Hs.
    destruct (decide _) as [Hp|]; [|done].
    destruct (d_updatesDone d); apply (inj Some) in Hs; subst s'; unfold callValidate;
      le_record Hd.
  - unfold drainThrow in Hs. rewrite Hd in Hs. cbn [mbind option_bind] in Hs.
    destruct (decide _) as [Hp|]; [|done].
    apply (inj Some) in Hs; subst s'; unfold failDrain. le_record Hd.
  - unfold drainUpdate in Hs. rewrite Hd in Hs. cbn [mbind option_bind] in Hs.
    destruct (d_listening d) eqn:Hli; [|done].
    destruct event as [[index update]|].
    + destruct (updateEnv _ _ update); apply (inj Some) in Hs; subst s';
        unfold callValidate; repeat case_match; bool_hyps; le_record Hd.
    + apply (inj Some) in Hs; subst s'; unfold callValidate; repeat case_match;
        bool_hyps; le_record Hd.
  - destruct (decide (d_phase d = Validating)) as [Hp|Hp];
      [|unfold drainValidated in Hs; rewrite Hd in Hs; cbn [mbind option_bind] in Hs;
        by rewrite decide_False in Hs].
    destruct r as [msg|].
    + unfold drainValidated in Hs. rewrite Hd in Hs. cbn [mbind option_bind] in Hs.
      rewrite decide_True in Hs by done. apply (inj Some) in Hs. subst s'.
      unfold failDrain. le_record Hd.
    + rewrite (drainValidated_ok_eq i d s Hd Hp) in Hs. apply (inj Some) in Hs. subst s'.
      le_record Hd.
Qed.

Lemma drain_le_step e s s' k d :
  step getQueryFilter e s = Some s' -> drains s !! k = Some d ->
  exists d', drains s' !! k = Some d' /\ drain_le d d'.
Proof.
  intros Hs Hd. destruct (drain_index e) as [i|] eqn:Hi.
  - destruct (decide (k = i)) as [->|Hne]; [by eapply drain_step_le|].
    destruct (drain_step_some e s s' i Hi Hs) as [di Hdi].
    destruct (drain_step_shape e s s' i di Hi Hdi Hs) as (d' & Hds & _).
    exists d. rewrite Hds, list_lookup_insert_ne by done. split; [done|apply drain_le_refl].
  - destruct (frame_step e s s' Hi Hs) as (nd & nl & Hds & _).
    exists d. rewrite Hds, lookup_app_l by (by eapply lookup_lt_Some).
    split; [done|apply drain_le_refl].
Qed.

Lemma drain_le_run tr s s' k d :
  run getQueryFilter tr s = Some s' -> drains s !! k = Some d ->
  exists d', drains s' !! k = Some d' /\ drain_le d d'.
Proof.
  revert s d. induction tr as [|e tr IH]; intros s d Hr Hd; simpl in Hr.
  - injection Hr as <-. exists d. split; [done|apply drain_le_refl].
  - destruct (step getQueryFilter e s) as [s1|] eqn:Hs; [|done]. simpl in Hr.
    destruct (drain_le_step e s s1 k d Hs Hd) as (d1 & Hd1 & Hle1).
    destruct (IH s1 d1 Hr Hd1) as (d' & Hd' & Hle').
    exists d'. split; [done|]. by eapply drain_le_trans.
Qed.

Lemma run_app tr1 tr2 (s : State C) :
  run getQueryFilter (tr1 ++ tr2) s =
  s' ← run getQueryFilter tr1 s; run getQueryFilter tr2 s'.
Proof.
  revert s. induction tr1 as [|e tr1 IH]; intros s; simpl; [done|].
  destruct (step getQueryFilter e s); simpl; auto.
Qed.


(** X2. When [cache.updateEnv] throws inside the listener, [state.pending]
    stays incremented, so [updatesDone] is never resolved: in every
    continuation of the run the drain calls neither [validateCache] nor
    [flush], and it never finishes. *)
Theorem X2_updateEnv_throw_stalls_drain
    (c : C) (tr tr' : list Event) (s s1 s' : State C) (i index : nat) (d : Drain)
    (update : option PythonEnvInfo) (msg : string) :
  run getQueryFilter tr (init c) = Some s ->
  drains s !! i = Some d ->
  updateEnv (cache s) (js_get (d_seen d) index) update = inl msg ->
  step getQueryFilter (EUpdate i (Some (index, update))) s = Some s1 ->
  run getQueryFilter tr' s1 = Some s' ->
  (LValidateCache i ∉ log s') /\ (LFlush i ∉ log s') /\
  exists d', drains s' !! i = Some d' /\ 0 < d_pending d' /\
             d_phase d' <> Validating /\ d_phase d' <> Finished.
Proof.
  intros Hr Hd Hu Hs Hr'.
  assert (Hall : run getQueryFilter (tr ++ EUpdate i (Some (index, update)) :: tr')
                   (init c) = Some s').
  { rewrite run_app, Hr. cbn [mbind option_bind run]. rewrite Hs. done. }
  apply I3_run in Hall as [Hinv _]. pose proof (I3_run _ _ _ Hr) as [Hinv0 _].
  assert (exists d1, drains s1 !! i = Some d1 /\ 0 < d_pending d1 /\
                     d_onUpdated d1 = true) as (d1 & Hd1 & Hp1 & Ho1).
  { cbn [step] in Hs. unfold drainUpdate in Hs. rewrite Hd in Hs.
    cbn [mbind option_bind] in Hs.
    destruct (d_listening d) eqn:Hli; [|done].
    change (cache (emit (LUpdateEnv (js_get (d_seen d) index) update) s))
      with (cache s) in Hs. rewrite Hu in Hs. apply (inj Some) in Hs. subst s1.
    eexists. split; [psimpl; apply list_lookup_insert_eq; by eapply lookup_lt_Some|].
    psimpl. split; [lia|].
    specialize (Hinv0 _ _ Hd). unfold drain_inv in Hinv0.
    destruct (d_onUpdated d); [done|]. intuition congruence. }
  destruct (drain_le_run tr' s1 s' i d1 Hr' Hd1) as (d' & Hd' & Hle).
  destruct Hle as (_ & _ & Ho & _ & _ & Hp & _).
  specialize (Hinv _ _ Hd'). unfold drain_inv in Hinv.
  assert (Hnv : LValidateCache i ∉ log s').
  { intros Hv. rewrite Ho1 in Ho. intuition (try congruence; lia). }
  split; [done|]. split; [tauto|].
  exists d'. split; [done|]. split; [lia|]. split; intros Hph; apply Hnv; tauto.
Qed.

(** ** The main loop *)

(** The cache after adding the records [envs] in order, when no [addEnv]
    throws. *)
Lemma run_yields_failed i envs s s' d :
  drains s !! i = Some d -> d_phase d <> Draining ->
  run getQueryFilter (map (EYield i) envs) s = Some s' -> s' = s.
Proof.
  intros Hd Hp Hr. destruct envs as [|env envs]; simpl in Hr; [congruence|].
  unfold drainYield in Hr. rewrite Hd in Hr. cbn [mbind option_bind] in Hr.
  by rewrite decide_False in Hr.
Qed.

(** X3. The [for await] loop: as long as the drain is in the loop after
    the iterator yielded [envs], these records were appended to [seen] in
    the order of the yields, [cache.addEnv] was called once for each, in
    that order and with nothing else logged in between, and the cache is the
    result of these calls. *)
Theorem X3_for_await_adds_in_order
    (i : nat) (envs : list PythonEnvInfo) (s s' : State C) (d d' : Drain) :
  drains s !! i = Some d ->
  run getQueryFilter (map (EYield i) envs) s = Some s' ->
  drains s' !! i = Some d' -> d_phase d' = Draining ->
  d_seen d' = d_seen d ++ map Some envs /\
  log s' = log s ++ map LAddEnv envs /\
  fold_left (fun oc env => c ← oc; match addEnv c env with
                                   | inr c' => Some c'
                                   | inl _ => None
                                   end) envs (Some (cache s)) = Some (cache s') /\
  refreshPromises s' = refreshPromises s /\ jobs s' = jobs s.
Proof.
  revert s d. induction envs as [|env envs IH]; intros s d Hd Hr Hd' Hp.
  - injection Hr as <-. assert (d' = d) as -> by congruence.
    by rewrite !app_nil_r.
  - simpl in Hr. destruct (drainYield i env s) as [s1|] eqn:Hs; [|done]. simpl in Hr.
    unfold drainYield in Hs. rewrite Hd in Hs. cbn [mbind option_bind] in Hs.
    destruct (decide (d_phase d = Draining)) as [Hpd|]; [|done].
    assert (Hlt : i < length (drains s)) by (by eapply lookup_lt_Some).
    change (cache (emit (LAddEnv env) (set_drain i _ s))) with (cache s) in Hs.
    destruct (addEnv (cache s) env) as [err|c] eqn:Ha; apply (inj Some) in Hs.
    + exfalso. subst s1. unfold failDrain in Hr.
      set (d1 := with_phase Failed _) in Hr.
      match type of Hr with run _ _ ?st = _ =>
        assert (Hd1 : drains st !! i = Some d1)
          by (rewrite settle_drains; psimpl; rewrite list_insert_insert_eq;
              by apply list_lookup_insert_eq)
      end.
      pose proof (run_yields_failed i envs _ s' d1 Hd1) as He.
      rewrite He in Hd'; [|done|exact Hr].
      rewrite Hd1 in Hd'. injection Hd' as <-. done.
    + subst s1.
      match type of Hr with run _ _ ?st = _ =>
        eassert (Hd1 : drains st !! i = Some _)
          by (psimpl; by apply list_lookup_insert_eq)
      end.
      destruct (IH _ _ Hd1 Hr Hd' Hp) as (Hseen & Hlog & Hc & Hm & Hj).
      psimpl in Hseen. psimpl in Hlog. psimpl in Hc. psimpl in Hm. psimpl in Hj.
      unfold js_push in Hseen.
      rewrite Hseen, Hlog, <- !app_assoc. cbn [fold_left mbind option_bind].
      rewrite Ha. done.
Qed.

(** ** Revisions *)

Lemma drainUpdate_revision i index update s s' d :
  drains s !! i = Some d ->
  drainUpdate i (Some (index, update)) s = Some s' ->
  (exists rest, log s' = log s ++ LUpdateEnv (js_get (d_seen d) index) update :: rest) /\
  (forall c, updateEnv (cache s) (js_get (d_seen d) index) update = inr c ->
     exists d', drains s' !! i = Some d' /\
       d_seen d' = match update with
                   | Some u => js_set (d_seen d) index u
                   | None => d_seen d
                   end).
Proof.
  intros Hd Hs. unfold drainUpdate in Hs. rewrite Hd in Hs.
  cbn [mbind option_bind] in Hs. destruct (d_listening d); [|done].
  assert (Hi : i < length (drains s)) by (by eapply lookup_lt_Some).
  change (cache (emit (LUpdateEnv (js_get (d_seen d) index) update) s))
    with (cache s) in Hs.
  destruct (updateEnv (cache s) _ update) as [err|c0] eqn:Hu;
    apply (inj Some) in Hs; subst s'.
  - split; [exists []; by psimpl|]. intros c Hc. discriminate Hc.
  - unfold callValidate. split.
    + repeat case_match; psimpl; rewrite <- ?app_assoc; eexists; reflexivity.
    + intros c _. repeat case_match; psimpl; rewrite ?list_insert_insert_eq;
        (eexists; split; [by apply list_lookup_insert_eq|reflexivity]).
Qed.

Lemma js_get_push {A} (l : list (option A)) (i : nat) (v u : A) :
  js_get l i = Some u -> js_get (js_push l v) i = Some u.
Proof.
  unfold js_get, js_push. intros Hg.
  destruct (l !! i) as [o|] eqn:Hl; [|done]. by rewrite (lookup_app_l_Some _ _ _ _ Hl).
Qed.

(** What [seen[index]] holds is changed only by a revision for that
    position that carries an update. *)
Lemma seen_step e s s' i index d u :
  step getQueryFilter e s = Some s' -> drains s !! i = Some d ->
  js_get (d_seen d) index = Some u ->
  (forall u', e <> EUpdate i (Some (index, Some u'))) ->
  exists d', drains s' !! i = Some d' /\ js_get (d_seen d') index = Some u.
Proof.
  intros Hs Hd Hg Hne. destruct (drain_index e) as [k|] eqn:Hk.
  - destruct (decide (i = k)) as [<-|Hik].
    + assert (Hlt : i < length (drains s)) by (by eapply lookup_lt_Some).
      destruct e as [q|q| |ev|ev|j env|j|j msg|j event|j r|pf r|]; try discriminate Hk;
        injection Hk as ->; cbn [step] in Hs.
      * unfold drainYield in Hs. rewrite Hd in Hs. cbn [mbind option_bind] in Hs.
        destruct (decide _) as [Hp|]; [|done].
        destruct (addEnv _ env); apply (inj Some) in Hs; subst s'; unfold failDrain;
          (eexists; split;
           [autorewrite with frame_db; psimpl; rewrite ?list_insert_insert_eq;
            by apply list_lookup_insert_eq
           |psimpl; by apply js_get_push]).
      * unfold drainEnd in Hs. rewrite Hd in Hs. cbn [mbind option_bind] in Hs.
        destruct (decide _) as [Hp|]; [|done].
        destruct (d_updatesDone d); apply (inj Some) in Hs; subst s';
          unfold callValidate;
          (eexists; split;
           [psimpl; rewrite ?list_insert_insert_eq; by apply list_lookup_insert_eq
           |psimpl; done]).
      * unfold drainThrow in Hs. rewrite Hd in Hs. cbn [mbind option_bind] in Hs.
        destruct (decide _) as [Hp|]; [|done].
        apply (inj Some) in Hs; subst s'; unfold failDrain.
        eexists; split;
          [autorewrite with frame_db; psimpl; by apply list_lookup_insert_eq
          |psimpl; done].
      * unfold drainUpdate in Hs. rewrite Hd in Hs. cbn [mbind option_bind] in Hs.
        destruct (d_listening d) eqn:Hli; [|done].
        destruct event as [[index' update]|].
        -- destruct (updateEnv _ _ update); apply (inj Some) in Hs; subst s';
             unfold callValidate; repeat case_match;
             (eexists; split;
              [psimpl; rewrite ?list_insert_insert_eq; by apply list_lookup_insert_eq
              |psimpl; try done]).
           all: subst; rewrite js_get_set_ne; [done|].
           all: intros ->; by eapply Hne.
        -- apply (inj Some) in Hs; subst s'; unfold callValidate; repeat case_match;
             (eexists; split;
              [psimpl; rewrite ?list_insert_insert_eq; by apply list_lookup_insert_eq
              |psimpl; done]).
      * destruct (decide (d_phase d = Validating)) as [Hp|Hp];
          [|unfold drainValidated in Hs; rewrite Hd in Hs;
            cbn [mbind option_bind] in Hs; by rewrite decide_False in Hs].
        destruct r as [msg|].
        -- unfold drainValidated in Hs. rewrite Hd in Hs. cbn [mbind option_bind] in Hs.
           rewrite decide_True in Hs by done. apply (inj Some) in Hs. subst s'.
           unfold failDrain.
           eexists; split;
             [autorewrite with frame_db; psimpl; by apply list_lookup_insert_eq
             |psimpl; done].
        -- rewrite (drainValidated_ok_eq i d s Hd Hp) in Hs. apply (inj Some) in Hs.
           subst s'.
           eexists; split;
             [autorewrite with frame_db; psimpl; rewrite then_drains; psimpl;
              by apply list_lookup_insert_eq
             |psimpl; done].
    + destruct (drain_step_some e s s' k Hk Hs) as [dk Hdk].
      destruct (drain_step_shape e s s' k dk Hk Hdk Hs) as (d' & Hds & _).
      exists d. by rewrite Hds, list_lookup_insert_ne.
  - destruct (frame_step e s s' Hk Hs) as (nd & nl & Hds & _).
    exists d. by rewrite Hds, lookup_app_l by (by eapply lookup_lt_Some).
Qed.

(** X4. Revisions of one position chain on [seen].  After a revision that
    carries an update [u] for [index] was applied, the next revision for the
    same position that carries an update calls [cache.updateEnv] with [u] as
    the old record, whether or not the position was ever yielded, and
    whatever else happens in between: yields, revisions of other positions,
    and also a revision that removes the record at [index], which leaves
    [seen[index]] as it is. *)
Theorem X4_revisions_chain_on_seen
    (s s1 s' s2 : State C) (i index : nat) (d : Drain) (u : PythonEnvInfo) (c : C)
    (tr : list Event) (update : option PythonEnvInfo) :
  drains s !! i = Some d ->
  updateEnv (cache s) (js_get (d_seen d) index) (Some u) = inr c ->
  step getQueryFilter (EUpdate i (Some (index, Some u))) s = Some s1 ->
  (forall u', EUpdate i (Some (index, Some u')) ∉ tr) ->
  run getQueryFilter tr s1 = Some s' ->
  step getQueryFilter (EUpdate i (Some (index, update))) s' = Some s2 ->
  exists rest, log s2 = log s' ++ LUpdateEnv (Some u) update :: rest.
Proof.
  intros Hd Hu Hs1 Hne Hr Hs2.
  destruct (drainUpdate_revision _ _ _ _ _ _ Hd Hs1) as [_ Hc].
  destruct (Hc c Hu) as (d1 & Hd1 & Hseen).
  assert (Hg1 : js_get (d_seen d1) index = Some u) by (rewrite Hseen; apply js_get_set).
  clear Hs1 Hc Hseen Hd Hu.
  assert (exists d', drains s' !! i = Some d' /\ js_get (d_seen d') index = Some u)
    as (d' & Hd' & Hg').
  { revert s1 d1 Hd1 Hg1 Hr. induction tr as [|e tr IH]; intros s1 d1 Hd1 Hg1 Hr.
    - injection Hr as <-. eauto.
    - simpl in Hr. destruct (step getQueryFilter e s1) as [s1'|] eqn:Hs; [|done].
      simpl in Hr.
      destruct (seen_step e s1 s1' i index d1 u Hs Hd1 Hg1) as (d2 & Hd2 & Hg2).
      { intros u' ->. apply (Hne u'). apply elem_of_cons. auto. }
      eapply IH; eauto. intros u' Hin. apply (Hne u'). apply elem_of_cons. auto. }
  destruct (drainUpdate_revision _ _ _ _ _ _ Hd' Hs2) as [Hl _].
  by rewrite Hg' in Hl.
Qed.

(** ** The promise of a started refresh *)

Lemma reachable_WF c s : reachable getQueryFilter c s -> WF s.
Proof.
  induction 1 as [|s e s' _ IH Hs]; [apply WF_init|by eapply WF_step].
Qed.

Lemma reachable_run c tr s s' :
  reachable getQueryFilter c s -> run getQueryFilter tr s = Some s' ->
  reachable getQueryFilter c s'.
Proof.
  revert s. induction tr as [|e tr IH]; intros s Hreach Hr; simpl in Hr.
  - by injection Hr as <-.
  - destruct (step getQueryFilter e s) as [s1|] eqn:Hs; [|done]. simpl in Hr.
    eapply IH; [|exact Hr]. by eapply reach_step.
Qed.

Lemma chain_run tr s s' q b k :
  chain s q b k -> run getQueryFilter tr s = Some s' -> chain s' q b k.
Proof.
  revert s. induction tr as [|e tr IH]; intros s Hc Hr; simpl in Hr.
  - by injection Hr as <-.
  - destruct (step getQueryFilter e s) as [s1|] eqn:Hs; [|done]. simpl in Hr.
    eapply IH; [|exact Hr]. by eapply chain_step.
Qed.

(** The [catch] callback returns normally: its promise is fulfilled on
    either outcome. *)
Lemma runJob_r_catch b v s :
  b + 3 < length (promises s) -> pstateOf s (b + 3) = Pending ->
  pstateOf (runJob (r_catch b, v) s) (b + 3) = Fulfilled.
Proof.
  intros Hlt Hp. destruct v as [e|]; cbn [runJob r_catch onRejected onFulfilled derived
                                            runHandler].
  - rewrite settle_pstateOf. rewrite decide_True; [done|].
    split; [done|]. rewrite settle_length. split; [|done].
    rewrite settle_pstateOf. rewrite decide_False; [done|]. intros [? _]. lia.
  - by rewrite settle_pending_eq.
Qed.

Lemma catch_fulfils_step e s s' q b k :
  chain s q b k ->
  pstateOf s (b + 3) = Pending \/ pstateOf s (b + 3) = Fulfilled ->
  step getQueryFilter e s = Some s' ->
  pstateOf s' (b + 3) = Pending \/ pstateOf s' (b + 3) = Fulfilled.
Proof.
  intros (_ & _ & _ & L2 & _) Hst Hs. pose proof (eff_step e s s' Hs) as He.
  destruct Hst as [Hp|Hf].
  2: { right. rewrite (pstateOf_immutable _ _ _ _ He); [done|]. by rewrite Hf. }
  destruct L2 as [[_ Hr]|(Hx & _)]; [|done].
  change (derived (r_catch b)) with (b + 3) in Hr.
  assert (Hkeep : ~ may_settle e s (b + 3) -> pstateOf s' (b + 3) = Pending).
  { intros Hn. destruct (refs_ok_eff _ _ _ _ _ _ Hr He Hn) as [_ Hp']. congruence. }
  assert (e = ETick \/ e <> ETick) as [->|Hne]
    by (destruct e; auto; right; discriminate).
  - cbn [step] in Hs. destruct (jobs s) as [|[rj v] js] eqn:Hj; [done|].
    apply (inj Some) in Hs.
    destruct (decide (b + 3 ∈ rtargets rj)) as [Hin|Hnin].
    + pose proof Hr as (_ & R2 & _ & _ & R5).
      destruct (R2 rj v) as (z & [-> ->] & Hzs); [rewrite Hj; apply elem_of_cons; auto|done|].
      right. subst s'. by apply runJob_r_catch.
    + left. apply Hkeep. eapply refs_no_settle; [exact Hr|].
      intros r0 v0 js0 Hj0 _. rewrite Hj in Hj0. by injection Hj0 as <- _ _.
  - left. apply Hkeep. eapply refs_no_settle; [exact Hr|]. intros r0 v0 js0 _ ?. done.
Qed.

Lemma catch_fulfils_run tr s s' q b k :
  chain s q b k ->
  pstateOf s (b + 3) = Pending \/ pstateOf s (b + 3) = Fulfilled ->
  run getQueryFilter tr s = Some s' ->
  pstateOf s' (b + 3) = Pending \/ pstateOf s' (b + 3) = Fulfilled.
Proof.
  revert s. induction tr as [|e tr IH]; intros s Hc Hst Hr; simpl in Hr.
  - by injection Hr as <-.
  - destruct (step getQueryFilter e s) as [s1|] eqn:Hs; [|done]. simpl in Hr.
    eapply IH; [| |exact Hr]; [by eapply chain_step|by eapply catch_fulfils_step].
Qed.


(** ** Registering reactions *)

Lemma pstateOf_subscribe z r s x : pstateOf (subscribe z r s) x = pstateOf s x.
Proof.
  destruct (subscribe_cases z r s) as [->|[(rs & Hlk & Hp & _)|(v & _ & Hp & _)]];
    [done| |].
  - unfold pstateOf. rewrite Hp. destruct (decide (x = z)) as [->|Hne].
    + rewrite list_lookup_insert_eq by (by eapply lookup_lt_Some). by rewrite Hlk.
    + by rewrite list_lookup_insert_ne.
  - unfold pstateOf. by rewrite Hp.
Qed.

Lemma subscribe_reaction_at z r s z0 r0 :
  reaction_at (subscribe z r s) z0 r0 -> reaction_at s z0 r0 \/ (z0 = z /\ r0 = r).
Proof.
  destruct (subscribe_cases z r s) as [->|[(rs & Hlk & Hp & _)|(v & _ & Hp & _)]];
    [auto| |].
  - intros (pr & Hz & Hin). rewrite Hp in Hz. destruct (decide (z0 = z)) as [->|Hne].
    + rewrite list_lookup_insert_eq in Hz by (by eapply lookup_lt_Some).
      injection Hz as <-. cbn [reactions] in Hin.
      apply elem_of_app in Hin as [Hin|Hin%list_elem_of_singleton]; [|auto].
      left. exists (mkPromise Pending rs). auto.
    + rewrite list_lookup_insert_ne in Hz by done. left. by exists pr.
  - intros (pr & Hz & Hin). rewrite Hp in Hz. left. by exists pr.
Qed.

Lemma subscribe_registered z r s :
  z < length (promises s) -> pstateOf s z = Pending -> reaction_at (subscribe z r s) z r.
Proof.
  intros Hlt Hp. destruct s as [c m ps js ds al fl lg]. unfold pstateOf in Hp.
  cbn [promises] in *.
  match type of Hp with match ?t with _ => _ end = _ =>
    destruct t as [[st rs]|] eqn:Hlk
  end.
  - simpl in Hp. subst st. rewrite (subscribe_pending _ _ _ _ _ _ _ _ _ _ rs Hlk).
    eexists. cbn [promises].
    split; [by apply list_lookup_insert_eq|]. cbn [reactions].
    apply elem_of_app. right. by apply list_elem_of_singleton.
  - apply lookup_ge_None in Hlk. lia.
Qed.

Lemma subscribe_job z r s r0 v :
  (r0, v) ∈ jobs (subscribe z r s) ->
  (r0, v) ∈ jobs s \/ (r0 = r /\ pstateOf s z = settlement v).
Proof.
  destruct (subscribe_cases z r s) as [->|[(rs & _ & _ & ->)|(v' & Hv & _ & ->)]];
    [auto..|].
  intros [Hin|Hin%list_elem_of_singleton]%elem_of_app; [auto|].
  injection Hin as -> ->. auto.
Qed.

Lemma refs_ok_subscribe s x A D z r :
  refs_ok s x A D -> (x ∈ rtargets r -> A z r) -> refs_ok (subscribe z r s) x A D.
Proof.
  intros (R1 & R2 & R3 & R4 & R5) HA. split; [|split; [|split; [|split]]].
  - intros z0 r0 [Hold|[-> ->]]%subscribe_reaction_at Hx; eauto.
  - intros r0 v [Hold|[-> Hv]]%subscribe_job Hx.
    + destruct (R2 r0 v Hold Hx) as (z' & ? & ?). exists z'.
      by rewrite pstateOf_subscribe.
    + exists z. rewrite pstateOf_subscribe. auto.
  - by rewrite subscribe_drains.
  - by rewrite subscribe_flushes.
  - by rewrite subscribe_length.
Qed.

Lemma refs_ok_fresh s A D :
  WF s -> refs_ok (snd (newPromise s)) (length (promises s)) A D.
Proof.
  intros HW. unfold newPromise. cbn [snd].
  eapply (refs_ok_extend s _ [mkPromise Pending []] []); psimpl;
    try reflexivity; auto.
  - by rewrite app_nil_r.
  - rewrite length_app. cbn [length]. lia.
  - intros k pr r Hk Hr. destruct k as [|k]; [|by destruct k].
    injection Hk as <-. by apply elem_of_nil in Hr.
  - intros j d Hj. by rewrite lookup_nil in Hj.
Qed.

Lemma pstateOf_newPromise s x :
  pstateOf (snd (newPromise s)) x = pstateOf s x.
Proof.
  unfold newPromise, pstateOf. psimpl.
  destruct (Nat.lt_ge_cases x (length (promises s))) as [Hlt|Hge].
  - by rewrite lookup_app_l.
  - rewrite (lookup_ge_None_2 (promises s)) by done.
    rewrite lookup_app_r by done. by destruct (x - length (promises s)) as [|[|]].
Qed.

Lemma pstateOf_fresh s x : length (promises s) <= x -> pstateOf s x = Pending.
Proof. intros Hx. unfold pstateOf. by rewrite lookup_ge_None_2. Qed.

Lemma newPromise_length s :
  length (promises (snd (newPromise s))) = S (length (promises s)).
Proof. unfold newPromise. psimpl. rewrite length_app. cbn. lia. Qed.

Lemma newPromise_drains s : drains (snd (newPromise s)) = drains s.
Proof. reflexivity. Qed.

Lemma WF_newPromise s : WF s -> WF (snd (newPromise s)).
Proof.
  intros HW. eapply (WF_eff (fun _ => False)); [exact HW| |tauto].
  apply effA_newPromise, eff_refl.
Qed.

Lemma WF_subscribe z r s :
  WF s -> (forall x, x ∈ rtargets r -> x < length (promises s)) -> WF (subscribe z r s).
Proof.
  intros HW Hr.
  eapply (WF_eff (fun x => x < length (promises s))); [exact HW| |auto].
  apply effA_subscribe; [apply eff_refl|]. intros x Hx. right. auto.
Qed.

(** ** Ownership is kept by what does not touch the promise *)

Lemma link_eff S s s' y r :
  link s y r -> eff S s s' -> ~ S (derived r) -> link s' y r.
Proof.
  intros [[Hp Hr]|(Hx & Hy & Hf)] He Hn; [|by eapply link_settled_stable].
  destruct (refs_ok_eff _ _ _ _ _ _ Hr He Hn) as [Hr' Hp']. left.
  split; [congruence|done].
Qed.

Lemma drain_owned_eff S s s' k x :
  drain_owned s k x -> eff S s s' -> ~ S x ->
  (forall d, drains s !! k = Some d -> drains s' !! k = Some d) ->
  drain_owned s' k x.
Proof.
  intros (d & Hd & Hx & Ho) He Hn Hds. exists d. split; [auto|]. split; [done|].
  destruct Ho as [[Hp Hr]|Hterm]; [|auto]. left.
  destruct (refs_ok_eff _ _ _ _ _ _ Hr He Hn) as [Hr' Hp']. split; [congruence|done].
Qed.

Lemma chain_eff S s s' q b k :
  chain s q b k -> eff S s s' ->
  (forall x, S x -> x <= b \/ b + 4 < x) ->
  (forall d, drains s !! k = Some d -> drains s' !! k = Some d) ->
  chain s' q b k.
Proof.
  intros (Ho & (d & Hd & Hq) & L1 & L2 & L3) He HS Hds.
  assert (Hn : forall i, 1 <= i <= 4 -> ~ S (b + i)).
  { intros i Hi Hx. apply HS in Hx. lia. }
  split; [eapply drain_owned_eff; eauto; apply Hn; lia|].
  split; [exists d; auto|].
  split; [eapply link_eff; eauto; cbn [r_then derived]; apply Hn; lia|].
  split; [eapply link_eff; eauto; cbn [r_catch derived]; apply Hn; lia|].
  eapply link_eff; eauto; cbn [fwd derived]; apply Hn; lia.
Qed.

(** ** A promise returned from an async function, with a [then] on it *)

Lemma simple_plain h pf :
  (forall q, h <> HStartRefresh q) -> htargets h = [] ->
  simple (mkReaction h HForward pf).
Proof.
  intros Hh Ht. split; [exact Hh|]. split; [intros q; discriminate|].
  cbn [onFulfilled onRejected derived]. rewrite Ht. by intros ?%elem_of_nil.
Qed.

Lemma rtargets_fwd (x y : PromiseId) : y ∈ rtargets (fwd x) -> y = x.
Proof.
  unfold rtargets, fwd. cbn [derived onFulfilled onRejected htargets app].
  by intros ?%list_elem_of_singleton.
Qed.

Lemma adopt_then_eq s x h :
  snd (then_ (length (promises s)) h HForward
         (adopt x (length (promises s)) (snd (newPromise s)))) =
  subscribe (length (promises s)) (mkReaction h HForward (length (promises s) + 1))
    (snd (newPromise (subscribe x (fwd (length (promises s))) (snd (newPromise s))))).
Proof.
  unfold then_, adopt, fwd. cbn [newPromise fst snd].
  rewrite subscribe_length. psimpl. rewrite length_app. cbn [length].
  reflexivity.
Qed.

Lemma adopt_then_links s x h :
  WF s -> x < length (promises s) -> htargets h = [] ->
  let pa := length (promises s) in
  let s1 := snd (then_ pa h HForward (adopt x pa (snd (newPromise s)))) in
  link s1 x (fwd pa) /\ link s1 pa (mkReaction h HForward (pa + 1)) /\
  eff (fun _ => False) s s1 /\ drains s1 = drains s /\ WF s1 /\
  length (promises s1) = pa + 2 /\
  reaction_at s1 pa (mkReaction h HForward (pa + 1)).
Proof.
  intros HW Hx Hh. cbn zeta. rewrite adopt_then_eq. set (pa := length (promises s)).
  set (sc := snd (newPromise s)).
  set (sd := subscribe x (fwd pa) sc).
  assert (Hlc : length (promises sc) = pa + 1) by (unfold sc; rewrite newPromise_length; lia).
  assert (Hld : length (promises sd) = pa + 1) by (unfold sd; by rewrite subscribe_length).
  set (se := snd (newPromise sd)).
  set (rf := mkReaction h HForward (pa + 1)).
  assert (Hle : length (promises se) = pa + 2) by (unfold se; rewrite newPromise_length; lia).
  assert (HWc : WF sc) by (by apply WF_newPromise).
  assert (HWd : WF sd).
  { apply WF_subscribe; [done|]. intros y ->%rtargets_fwd. lia. }
  assert (HWe : WF se) by (by apply WF_newPromise).
  assert (Hrf : forall y, y ∈ rtargets rf -> y = pa + 1).
  { intros y Hy. unfold rtargets, rf in Hy. cbn [derived onFulfilled onRejected] in Hy.
    rewrite Hh in Hy. cbn [htargets app] in Hy. by apply list_elem_of_singleton in Hy. }
  assert (Hpa_d : pstateOf sd pa = Pending).
  { unfold sd, sc. rewrite pstateOf_subscribe, pstateOf_newPromise.
    by apply pstateOf_fresh. }
  assert (Hpf_e : pstateOf se (pa + 1) = Pending).
  { unfold se. rewrite pstateOf_newPromise. apply pstateOf_fresh. lia. }
  assert (Hde : eff (fun _ => False) sd (subscribe pa rf se)).
  { apply effA_subscribe; [apply effA_newPromise, eff_refl|].
    intros y Hy%Hrf. left. unfold fresh_in. lia. }
  split; [|split; [|split; [|split; [|split; [|split]]]]].
  - left. cbn [fwd derived].
    assert (Hr : refs_ok sd pa (fun z r' => z = x /\ r' = fwd pa) (fun _ => False)).
    { unfold sd. apply refs_ok_subscribe; [|auto]. by apply refs_ok_fresh. }
    destruct (refs_ok_eff _ _ _ _ _ _ Hr Hde (fun F => F)) as [Hr' Hp'].
    split; [congruence|done].
  - left. change (derived rf) with (pa + 1).
    split; [by rewrite pstateOf_subscribe|].
    apply refs_ok_subscribe; [|auto]. unfold se. rewrite <- Hld. by apply refs_ok_fresh.
  - apply effA_subscribe.
    + apply effA_newPromise. apply effA_subscribe; [apply effA_newPromise, eff_refl|].
      intros y ->%rtargets_fwd. left. unfold fresh_in. fold sc. lia.
    + intros y Hy%Hrf. left. unfold fresh_in. fold sc sd se. lia.
  - rewrite subscribe_drains. unfold se, sd, sc.
    by rewrite newPromise_drains, subscribe_drains, newPromise_drains.
  - apply WF_subscribe; [done|]. intros y Hy%Hrf. lia.
  - by rewrite subscribe_length.
  - apply subscribe_registered; [lia|].
    unfold se. by rewrite pstateOf_newPromise.
Qed.

(** ** The refresh started after a tracked one *)

Lemma drains_length_step e s s' :
  step getQueryFilter e s = Some s' -> length (drains s) <= length (drains s').
Proof.
  intros Hs.
  destruct (Nat.le_gt_cases (length (drains s)) (length (drains s'))) as [|Hgt]; [done|].
  destruct (lookup_lt_is_Some_2 (drains s) (length (drains s')) Hgt) as [d Hd].
  destruct (drain_le_step _ _ _ _ _ Hs Hd) as (d' & Hd' & _).
  apply lookup_lt_Some in Hd'. lia.
Qed.

Lemma WF_pop j js s : WF s -> jobs s = j :: js -> WF (set_jobs js s).
Proof.
  intros (W1 & W2 & W3 & W4 & W5) Hj. split; [|split; [|split; [|split]]]; auto.
  intros r v x Hin. apply (W2 r v x). rewrite Hj. apply elem_of_cons. auto.
Qed.

Lemma refs_ok_pop s x A D j js :
  refs_ok s x A D -> jobs s = j :: js -> refs_ok (set_jobs js s) x A D.
Proof.
  intros (R1 & R2 & R3 & R4 & R5) Hj. split; [|split; [|split; [|split]]]; auto.
  intros r v Hin. apply (R2 r v). rewrite Hj. apply elem_of_cons. auto.
Qed.

Lemma runJob_start q pt s :
  runJob (r_start q pt, None) s =
  adopt (fst (startRefresh q s)) pt (snd (startRefresh q s)).
Proof.
  unfold runJob, r_start. cbn [onFulfilled derived runHandler].
  by destruct (startRefresh q s).
Qed.

Lemma startRefresh_fst q s : fst (startRefresh q s) = length (promises s) + 4.
Proof. by rewrite startRefresh_eq. Qed.

Lemma startRefresh_drains q s :
  drains (snd (startRefresh q s)) = drains s ++ [startedDrain s q].
Proof. by rewrite startRefresh_eq. Qed.

Lemma next_owner_mono q p pt X X' z r :
  (forall x, x ∈ X -> x ∈ X') -> next_owner q p pt X z r -> next_owner q p pt X' z r.
Proof.
  intros HX [?|(-> & b & k & Hin & ->)]; [by left|]. right. split; [done|].
  exists b, k. auto.
Qed.

Lemma next_refresh_step e s s' q p pt k0 :
  WF s -> k0 <= length (drains s) -> next_refresh s q p pt k0 ->
  step getQueryFilter e s = Some s' -> next_refresh s' q p pt k0.
Proof.
  intros HW Hk0 Hn Hs. pose proof (eff_step e s s' Hs) as He.
  destruct Hn as [[Hp (X & HX & Hr)]|[[e0 Hrej]|(k & d & Hk & Hd & Hq & Ht)]].
  3: { destruct (drain_record_step e s s' k d Hs Hd) as (d' & Hd' & _ & Hq' & Ht').
       right. right. exists k, d'. repeat split; auto; congruence. }
  2: { right. left. exists e0. rewrite (pstateOf_immutable _ _ _ _ He); [done|].
       by rewrite Hrej. }
  assert (HX' : forall b k, (b, k) ∈ X -> k0 <= k /\ chain s' q b k).
  { intros b k Hin. destruct (HX b k Hin). split; [done|]. by eapply chain_step. }
  assert (Hkeep : ~ may_settle e s pt -> next_refresh s' q p pt k0).
  { intros Hns. destruct (refs_ok_eff _ _ _ _ _ _ Hr He Hns) as [Hr' Hp']. left.
    split; [congruence|]. exists X. auto. }
  assert (e = ETick \/ e <> ETick) as [->|Hne]
    by (destruct e; auto; right; discriminate).
  2: { apply Hkeep. eapply refs_no_settle; [exact Hr|]. intros r0 v0 js0 _ ?. done. }
  pose proof Hs as Hstep.
  cbn [step] in Hs. destruct (jobs s) as [|[rj v] js] eqn:Hj; [done|].
  apply (inj Some) in Hs.
  destruct (decide (pt ∈ rtargets rj)) as [Hin|Hnin].
  2: { apply Hkeep. eapply refs_no_settle; [exact Hr|].
       intros r0 v0 js0 Hj0 _. rewrite Hj in Hj0. by injection Hj0 as <- _ _. }
  pose proof Hr as (R1 & R2 & R3 & R4 & R5).
  destruct (R2 rj v) as (z & Hown & Hzs); [rewrite Hj; apply elem_of_cons; auto|done|].
  set (sj := set_jobs js s) in *.
  assert (Hpj : pstateOf sj pt = Pending) by exact Hp.
  assert (Hlj : length (promises sj) = length (promises s)) by reflexivity.
  destruct Hown as [[-> ->]|[-> (b & k & HbX & ->)]].
  - destruct v as [e0|].
    + right. left. exists e0. rewrite <- Hs.
      cbn [runJob r_start onRejected derived runHandler]. by apply settle_pending_eq.
    + left.
      assert (HWj : WF sj) by (eapply WF_pop; eauto).
      assert (Hrj : refs_ok sj pt (next_owner q p pt X) (fun _ => False))
        by (eapply refs_ok_pop; eauto).
      assert (Her : eff (fun _ => False) sj (snd (startRefresh q sj)))
        by apply effA_startRefresh, eff_refl.
      destruct (refs_ok_eff _ _ _ _ _ _ Hrj Her (fun F => F)) as [Hrr Hpr].
      assert (Hs' : s' = subscribe (length (promises s) + 4) (fwd pt)
                           (snd (startRefresh q sj))).
      { rewrite <- Hs, runJob_start, startRefresh_fst. reflexivity. }
      split; [rewrite Hs', pstateOf_subscribe; congruence|].
      exists ((length (promises s), length (drains s)) :: X). split.
      * intros b' k' [Hin'|Hin']%elem_of_cons; [|auto].
        injection Hin' as -> ->. split; [done|]. rewrite Hs'.
        eapply (chain_eff (fun x => x = pt)); [apply (chain_start sj q HWj)| | |].
        -- apply effA_subscribe; [apply eff_refl|]. intros x ->%rtargets_fwd. by right.
        -- intros x ->. left. lia.
        -- intros d Hd. by rewrite subscribe_drains.
      * rewrite Hs'. apply refs_ok_subscribe.
        -- eapply refs_ok_weaken; [| |exact Hrr]; [|auto].
           intros z r. apply next_owner_mono. intros x Hx. apply elem_of_cons. auto.
        -- intros _. right. split; [done|]. eexists _, _.
           split; [apply elem_of_cons; left; reflexivity|done].
  - destruct (HX' b k HbX) as [Hk Hc].
    assert (Hrun : s' = settle pt v sj) by (rewrite <- Hs; by destruct v).
    destruct v as [e0|].
    + right. left. exists e0. rewrite Hrun. by apply settle_pending_eq.
    + right. right.
      assert (Hb4 : pstateOf s' (b + 4) <> Pending).
      { rewrite (pstateOf_immutable _ _ _ _ He); by rewrite Hzs. }
      destruct (chain_done _ _ _ _ Hc Hb4) as (d & Hd & Hq & Ht).
      exists k, d. auto.
Qed.

(** What holds after a change event of the locator was handled with [k0]
    drains started: [pa] is the promise of [triggerNewRefresh], [y] the
    promise it returned and [rf] the reaction that fires the event. *)
Lemma locator_inv_step e s s' y pa rf k0 :
  simple rf ->
  (WF s /\ k0 <= length (drains s) /\ link s y (fwd pa) /\ link s pa rf /\
   ((exists b, y = b + 4 /\ chain s None b k0) \/
    (exists p, next_refresh s None p y k0))) ->
  step getQueryFilter e s = Some s' ->
  WF s' /\ k0 <= length (drains s') /\ link s' y (fwd pa) /\ link s' pa rf /\
  ((exists b, y = b + 4 /\ chain s' None b k0) \/
   (exists p, next_refresh s' None p y k0)).
Proof.
  intros Hsim (HW & Hk & L1 & L2 & Hc) Hs.
  split; [by eapply WF_step|].
  split; [pose proof (drains_length_step _ _ _ Hs); lia|].
  split; [eapply link_step; eauto using simple_fwd|].
  split; [by eapply link_step|].
  destruct Hc as [(b & -> & Hc)|(p & Hn)].
  - left. exists b. split; [done|]. by eapply chain_step.
  - right. exists p. by eapply next_refresh_step.
Qed.

Lemma locator_inv_run tr s s' y pa rf k0 :
  simple rf ->
  (WF s /\ k0 <= length (drains s) /\ link s y (fwd pa) /\ link s pa rf /\
   ((exists b, y = b + 4 /\ chain s None b k0) \/
    (exists p, next_refresh s None p y k0))) ->
  run getQueryFilter tr s = Some s' ->
  WF s' /\ k0 <= length (drains s') /\ link s' y (fwd pa) /\ link s' pa rf /\
  ((exists b, y = b + 4 /\ chain s' None b k0) \/
   (exists p, next_refresh s' None p y k0)).
Proof.
  intros Hsim. revert s. induction tr as [|e tr IH]; intros s Hinv Hr; simpl in Hr.
  - by injection Hr as <-.
  - destruct (step getQueryFilter e s) as [s2|] eqn:Hs; [|done]. simpl in Hr.
    eapply IH; [|exact Hr]. eapply locator_inv_step; eauto.
Qed.

Lemma onLocatorChanged_eq ev s :
  onLocatorChanged ev s =
  let '(next, s1) :=
    match getRefreshPromiseForQuery None s with
    | Some refreshPromise => then_ refreshPromise (HStartRefresh None) HForward s
    | None => startRefresh None s
    end in
  snd (then_ (length (promises s1))
         (HFire (mkChange (ev_type ev) (searchLocation ev))) HForward
         (adopt next (length (promises s1)) (snd (newPromise s1)))).
Proof.
  unfold onLocatorChanged, triggerNewRefresh.
  by destruct (match getRefreshPromiseForQuery None s with
               | Some rp => then_ rp (HStartRefresh None) HForward s
               | None => startRefresh None s
               end).
Qed.

Lemma then_eq y f g s :
  then_ y f g s =
  (length (promises s),
   subscribe y (mkReaction f g (length (promises s))) (snd (newPromise s))).
Proof. reflexivity. Qed.

Lemma onLocatorChanged_inv ev s :
  WF s ->
  let s1 := onLocatorChanged ev s in
  let pf := length (promises s1) - 1 in
  let rf := mkReaction (HFire (mkChange (ev_type ev) (searchLocation ev))) HForward pf in
  exists y pa,
    reaction_at s1 pa rf /\
    WF s1 /\ length (drains s) <= length (drains s1) /\
    link s1 y (fwd pa) /\ link s1 pa rf /\
    ((getRefreshPromiseForQuery None s = None /\
      exists b, y = b + 4 /\ chain s1 None b (length (drains s))) \/
     (exists p, getRefreshPromiseForQuery None s = Some p /\
                pstateOf s1 y = Pending /\
                refs_ok s1 y (next_owner None p y []) (fun _ => False))).
Proof.
  intros HW s1 pf rf. subst rf pf s1. rewrite onLocatorChanged_eq.
  destruct (getRefreshPromiseForQuery None s) as [p|] eqn:Hg.
  - rewrite (then_eq p (HStartRefresh None)). cbv beta iota.
    change (mkReaction (HStartRefresh None) HForward (length (promises s)))
      with (r_start None (length (promises s))).
    set (n := length (promises s)). set (sa := snd (newPromise s)).
    set (sb := subscribe p (r_start None n) sa).
    assert (Hlb : length (promises sb) = n + 1).
    { unfold sb, sa. rewrite subscribe_length, newPromise_length. lia. }
    assert (HWb : WF sb).
    { apply WF_subscribe; [by apply WF_newPromise|]. intros x Hx.
      unfold rtargets, r_start in Hx.
      cbn [derived onFulfilled onRejected htargets app] in Hx.
      apply list_elem_of_singleton in Hx as ->. unfold sa. rewrite newPromise_length.
      lia. }
    destruct (adopt_then_links sb n
                (HFire (mkChange (ev_type ev) (searchLocation ev))) HWb)
      as (L1 & L2 & He & Hd & HW1 & Hlen & Hreg); [lia|reflexivity|].
    rewrite Hlb in *. set (s1 := snd (then_ _ _ _ _)) in *.
    rewrite Hlen. replace (n + 1 + 2 - 1) with (n + 1 + 1) by lia.
    exists n, (n + 1). split; [exact Hreg|]. split; [exact HW1|].
    split; [rewrite Hd; unfold sb, sa; rewrite subscribe_drains, newPromise_drains; lia|].
    split; [exact L1|]. split; [exact L2|].
    right. exists p. split; [done|].
    assert (Hr : refs_ok sb n (next_owner None p n []) (fun _ => False)).
    { unfold sb. apply refs_ok_subscribe; [by apply refs_ok_fresh|]. intros _. by left. }
    destruct (refs_ok_eff _ _ _ _ _ _ Hr He (fun F => F)) as [Hr' Hp'].
    split; [|exact Hr'].
    rewrite Hp'. unfold sb, sa. rewrite pstateOf_subscribe, pstateOf_newPromise.
    by apply pstateOf_fresh.
  - pose proof (chain_start s None HW) as Hc.
    pose proof (startRefresh_fst None s) as Hf.
    pose proof (startRefresh_drains None s) as Hds.
    assert (Hl : length (promises (snd (startRefresh None s))) = length (promises s) + 5).
    { rewrite startRefresh_eq. cbn [snd]. cbn zeta. psimpl. rewrite length_app. cbn. lia. }
    assert (HWr : WF (snd (startRefresh None s))).
    { eapply (WF_eff (fun _ => False)); [exact HW| |tauto].
      apply effA_startRefresh, eff_refl. }
    destruct (startRefresh None s) as [next sr]. cbn [fst snd] in *. subst next.
    set (n := length (promises s)) in *.
    destruct (adopt_then_links sr (n + 4)
                (HFire (mkChange (ev_type ev) (searchLocation ev))) HWr)
      as (L1 & L2 & He & Hd & HW1 & Hlen & Hreg); [lia|reflexivity|].
    rewrite Hl in *. set (s1 := snd (then_ _ _ _ _)) in *.
    rewrite Hlen. replace (n + 5 + 2 - 1) with (n + 5 + 1) by lia.
    exists (n + 4), (n + 5). split; [exact Hreg|]. split; [exact HW1|].
    split; [rewrite Hd, Hds, length_app; lia|].
    split; [exact L1|]. split; [exact L2|].
    left. split; [done|]. exists n. split; [done|].
    eapply chain_eff; [exact Hc|exact He|intros x []|].
    intros d Hlk. by rewrite Hd.
Qed.

(** X6. A change event of the locator is passed on only after a refresh
    that was started after the event has ended.  The listener of the
    constructor registers the callback that fires the event as the last
    promise it creates; in every run, that promise is fulfilled, which is when
    the callback has run, only if a drain for the [undefined] query that was
    started after the event arrived has returned or thrown.  This holds
    whether or not a refresh was tracked when the event arrived. *)
Theorem X6_change_event_after_new_refresh
    (c : C) (s s' : State C) (ev : ChangeEvent) (tr : list Event) :
  reachable getQueryFilter c s ->
  run getQueryFilter tr (onLocatorChanged ev s) = Some s' ->
  let s1 := onLocatorChanged ev s in
  let pf := length (promises s1) - 1 in
  (exists pa, reaction_at s1 pa
     (mkReaction (HFire (mkChange (ev_type ev) (searchLocation ev))) HForward pf)) /\
  (pstateOf s' pf = Fulfilled ->
   exists k d, length (drains s) <= k /\ drains s' !! k = Some d /\
               d_query d = None /\ terminal d).
Proof.
  intros Hreach Hr. cbn zeta.
  destruct (onLocatorChanged_inv ev s (reachable_WF _ _ Hreach))
    as (y & pa & Hreg & Hinv).
  set (s1 := onLocatorChanged ev s) in *. set (pf := length (promises s1) - 1) in *.
  set (rf := mkReaction _ HForward pf) in *.
  split; [by exists pa|].
  assert (Hsim : simple rf) by (apply simple_plain; [discriminate|reflexivity]).
  assert (Hinv' : WF s' /\ length (drains s) <= length (drains s') /\
                  link s' y (fwd pa) /\ link s' pa rf /\
                  ((exists b, y = b + 4 /\ chain s' None b (length (drains s))) \/
                   (exists p, next_refresh s' None p y (length (drains s))))).
  { eapply locator_inv_run; [exact Hsim| |exact Hr].
    destruct Hinv as (HW1 & Hk1 & L1 & L2 & Hc).
    split; [done|]. split; [done|]. split; [done|]. split; [done|].
    destruct Hc as [[_ Hc]|(p & _ & Hp & Hrefs)]; [by left|].
    right. exists p. left. split; [done|]. exists []. split; [|done].
    intros b k Hin. by apply elem_of_nil in Hin. }
  clear Hinv. destruct Hinv' as (_ & _ & L1 & L2 & Hc). intros Hpf.
  assert (Hpa : pstateOf s' pa = Fulfilled).
  { destruct (link_settled _ _ _ L2) as [Hnp Hout]; [change (derived rf) with pf; by rewrite Hpf|].
    destruct (not_pending_settlement _ Hnp) as [[e0|] Hv]; [|done].
    specialize (Hout (Some e0) Hv eq_refl). change (derived rf) with pf in Hout.
    rewrite Hpf in Hout. discriminate Hout. }
  assert (Hy : pstateOf s' y = Fulfilled).
  { destruct (link_settled _ _ _ L1) as [Hnp Hout]; [cbn [fwd derived]; by rewrite Hpa|].
    destruct (not_pending_settlement _ Hnp) as [[e0|] Hv]; [|done].
    specialize (Hout (Some e0) Hv eq_refl). cbn [fwd derived] in Hout.
    rewrite Hpa in Hout. discriminate Hout. }
  destruct Hc as [(b & -> & Hc)|(p & [[Hp _]|[[e0 He0]|Hdone]])].
  - destruct (chain_done _ _ _ _ Hc) as (d & Hd & Hq & Ht); [by rewrite Hy|].
    exists (length (drains s)), d. auto.
  - congruence.
  - congruence.
  - exact Hdone.
Qed.

(** ** The tracked handle *)

(** The deferred promise [b] of a [startRefresh] is settled by the [then]
    callback or by the [catch] callback, and by nothing else. *)
Lemma deferred_start s q :
  WF s ->
  let b := length (promises s) in
  let s1 := snd (startRefresh q s) in
  pstateOf s1 b = Pending /\
  refs_ok s1 b (fun z r => (z = b + 1 /\ r = r_then q b) \/ (z = b + 2 /\ r = r_catch b))
    (fun _ => False).
Proof.
  intros HW. cbn zeta. rewrite startRefresh_eq. cbn zeta. cbn [snd].
  set (b := length (promises s)). split.
  - eapply (pstateOf_extend s); [reflexivity|repeat constructor|]. fold b. lia.
  - eapply (refs_ok_extend s); try reflexivity; [exact HW|auto| | |].
    + psimpl. rewrite length_app. cbn [length]. fold b. lia.
    + intros k pr r Hk Hr Hx. fold b.
      destruct k as [|[|[|[|[|k]]]]]; cbn in Hk; try discriminate Hk;
        injection Hk as <-; cbn [reactions] in Hr;
        try (by apply elem_of_nil in Hr);
        apply list_elem_of_singleton in Hr as ->.
      * left. split; [lia|reflexivity].
      * right. split; [lia|reflexivity].
      * exfalso. unfold rtargets in Hx.
        cbn [derived onFulfilled onRejected htargets app] in Hx.
        apply list_elem_of_singleton in Hx. lia.
    + intros j d Hj Hp. apply list_elem_of_lookup_2, list_elem_of_singleton in Hj as ->.
      cbn [startedDrain d_promise] in Hp. fold b in Hp. lia.
Qed.

Lemma deferred_step e s s' q b k :
  chain s q b k ->
  (pstateOf s b = Pending /\
   refs_ok s b (fun z r => (z = b + 1 /\ r = r_then q b) \/ (z = b + 2 /\ r = r_catch b))
     (fun _ => False)) \/
  pstateOf s (b + 1) <> Pending ->
  step getQueryFilter e s = Some s' ->
  (pstateOf s' b = Pending /\
   refs_ok s' b (fun z r => (z = b + 1 /\ r = r_then q b) \/ (z = b + 2 /\ r = r_catch b))
     (fun _ => False)) \/
  pstateOf s' (b + 1) <> Pending.
Proof.
  intros (_ & _ & L1 & _) Hk Hs. pose proof (eff_step e s s' Hs) as He.
  destruct Hk as [[Hp Hr]|Hd].
  2: { right. by rewrite (pstateOf_immutable _ _ _ _ He). }
  assert (Hkeep : ~ may_settle e s b ->
            pstateOf s' b = Pending /\
            refs_ok s' b
              (fun z r => (z = b + 1 /\ r = r_then q b) \/ (z = b + 2 /\ r = r_catch b))
              (fun _ => False)).
  { intros Hn. destruct (refs_ok_eff _ _ _ _ _ _ Hr He Hn) as [Hr' Hp'].
    split; [congruence|done]. }
  assert (e = ETick \/ e <> ETick) as [->|Hne]
    by (destruct e; auto; right; discriminate).
  2: { left. apply Hkeep. eapply refs_no_settle; [exact Hr|]. intros r0 v0 js0 _ ?. done. }
  cbn [step] in Hs. destruct (jobs s) as [|[rj v] js] eqn:Hj; [done|].
  destruct (decide (b ∈ rtargets rj)) as [Hin|Hnin].
  2: { left. apply Hkeep. eapply refs_no_settle; [exact Hr|].
       intros r0 v0 js0 Hj0 _. rewrite Hj in Hj0. by injection Hj0 as <- _ _. }
  right. pose proof Hr as (_ & R2 & _).
  destruct (R2 rj v) as (z & Hown & Hzs); [rewrite Hj; apply elem_of_cons; auto|done|].
  assert (H1 : pstateOf s (b + 1) <> Pending).
  { destruct Hown as [[-> _]|[-> _]].
    - rewrite Hzs. apply settlement_not_pending.
    - apply (link_settled _ _ _ L1). cbn [r_then derived]. rewrite Hzs.
      apply settlement_not_pending. }
  by rewrite (pstateOf_immutable _ _ _ _ He).
Qed.

(** X12. The handle that [startRefresh] registers in [refreshPromises],
    which later callers of [triggerRefresh] and readers of [refreshPromise]
    wait on, stays pending as long as the drain runs: in every run, it is
    settled only when the drain started with it has returned or thrown. *)
Theorem X12_tracked_handle_settles_after_drain
    (c : C) (s s' : State C) (q : Query) (tr : list Event) :
  reachable getQueryFilter c s ->
  getRefreshPromiseForQuery q s = None ->
  run getQueryFilter tr (snd (triggerRefresh q s)) = Some s' ->
  let b := length (promises s) in
  map_get q (refreshPromises (snd (triggerRefresh q s))) = Some b /\
  pstateOf (snd (triggerRefresh q s)) b = Pending /\
  (pstateOf s' b <> Pending ->
   exists d, drains s' !! length (drains s) = Some d /\ d_query d = q /\ terminal d).
Proof.
  intros Hreach Hmiss Hr. cbn zeta. rewrite (triggerRefresh_miss _ _ Hmiss) in *.
  pose proof (reachable_WF _ _ Hreach) as HW.
  pose proof (chain_start s q HW) as Hc.
  destruct (deferred_start s q HW) as [Hp Hrefs].
  split; [rewrite startRefresh_eq; cbn zeta; cbn [snd]; psimpl; apply map_get_set_eq|].
  split; [exact Hp|].
  assert (Hinv : chain s' q (length (promises s)) (length (drains s)) /\
            ((pstateOf s' (length (promises s)) = Pending /\
              refs_ok s' (length (promises s))
                (fun z r => (z = length (promises s) + 1 /\
                             r = r_then q (length (promises s))) \/
                            (z = length (promises s) + 2 /\
                             r = r_catch (length (promises s))))
                (fun _ => False)) \/
             pstateOf s' (length (promises s) + 1) <> Pending)).
  { assert (Hinv0 : chain (snd (startRefresh q s)) q (length (promises s))
                      (length (drains s)) /\
              ((pstateOf (snd (startRefresh q s)) (length (promises s)) = Pending /\
                refs_ok (snd (startRefresh q s)) (length (promises s))
                  (fun z r => (z = length (promises s) + 1 /\
                               r = r_then q (length (promises s))) \/
                              (z = length (promises s) + 2 /\
                               r = r_catch (length (promises s))))
                  (fun _ => False)) \/
               pstateOf (snd (startRefresh q s)) (length (promises s) + 1) <> Pending))
      by auto.
    clear Hp Hrefs Hc. revert Hinv0 Hr. generalize (snd (startRefresh q s)).
    induction tr as [|e tr IH]; intros s1 Hinv0 Hr; simpl in Hr.
    - by injection Hr as <-.
    - destruct (step getQueryFilter e s1) as [s2|] eqn:Hs; [|done]. simpl in Hr.
      apply (IH s2); [|exact Hr]. destruct Hinv0 as [Hc0 Hk0].
      split; [by eapply chain_step|by eapply deferred_step]. }
  destruct Hinv as [Hc' Hk]. intros Hnp.
  destruct Hk as [[Hpe _]|H1]; [done|].
  destruct Hc' as (Ho & (d & Hd & Hq) & _).
  destruct Ho as (d0 & Hd0 & _ & [[Hp0 _]|Hterm]); [done|].
  exists d. assert (d0 = d) as -> by congruence. auto.
Qed.


(** ** A change event behind a rejected handle *)

Lemma rejected_next_step e s s' q p pt err :
  pstateOf s p = Rejected err ->
  (pstateOf s pt = Pending /\ refs_ok s pt (next_owner q p pt []) (fun _ => False)) \/
  pstateOf s pt = Rejected err ->
  step getQueryFilter e s = Some s' ->
  (pstateOf s' pt = Pending /\ refs_ok s' pt (next_owner q p pt []) (fun _ => False)) \/
  pstateOf s' pt = Rejected err.
Proof.
  intros Hrej Hn Hs. pose proof (eff_step e s s' Hs) as He.
  destruct Hn as [[Hp Hr]|Hd].
  2: { right. rewrite (pstateOf_immutable _ _ _ _ He); [done|]. by rewrite Hd. }
  assert (Hkeep : ~ may_settle e s pt ->
            pstateOf s' pt = Pending /\
            refs_ok s' pt (next_owner q p pt []) (fun _ => False)).
  { intros Hns. destruct (refs_ok_eff _ _ _ _ _ _ Hr He Hns) as [Hr' Hp'].
    split; [congruence|done]. }
  assert (e = ETick \/ e <> ETick) as [->|Hne]
    by (destruct e; auto; right; discriminate).
  2: { left. apply Hkeep. eapply refs_no_settle; [exact Hr|]. intros r0 v0 js0 _ ?. done. }
  cbn [step] in Hs. destruct (jobs s) as [|[rj v] js] eqn:Hj; [done|].
  apply (inj Some) in Hs.
  destruct (decide (pt ∈ rtargets rj)) as [Hin|Hnin].
  2: { left. apply Hkeep. eapply refs_no_settle; [exact Hr|].
       intros r0 v0 js0 Hj0 _. rewrite Hj in Hj0. by injection Hj0 as <- _ _. }
  right. pose proof Hr as (_ & R2 & _ & _ & R5).
  destruct (R2 rj v) as (z & Hown & Hzs); [rewrite Hj; apply elem_of_cons; auto|done|].
  destruct Hown as [[-> ->]|(_ & b & k & Hbk & _)]; [|by apply elem_of_nil in Hbk].
  rewrite Hrej in Hzs. change (Rejected err) with (settlement (Some err)) in Hzs.
  apply settlement_inj in Hzs as <-. rewrite <- Hs.
  cbn [runJob r_start onRejected derived runHandler]. by apply settle_pending_eq.
Qed.

(** X14. After a refresh for the [undefined] query has failed, its
    rejected handle is still tracked, and then change events of the locator
    are swallowed.  [triggerNewRefresh] chains the new refresh behind the
    tracked promise with [then], which has no callback for a rejection: the
    rejection passes down the chain.  In every run, the promise of the
    listener's [.then(() => this.fire(...))] is never fulfilled, so the event
    is never fired. *)
Theorem X14_rejected_handle_swallows_change_events
    (c : C) (s s' : State C) (ev : ChangeEvent) (tr : list Event)
    (p : PromiseId) (err : Err) :
  reachable getQueryFilter c s ->
  getRefreshPromiseForQuery None s = Some p ->
  pstateOf s p = Rejected err ->
  run getQueryFilter tr (onLocatorChanged ev s) = Some s' ->
  let s1 := onLocatorChanged ev s in
  let pf := length (promises s1) - 1 in
  (exists pa, reaction_at s1 pa
     (mkReaction (HFire (mkChange (ev_type ev) (searchLocation ev))) HForward pf)) /\
  drains s1 = drains s /\
  pstateOf s' pf <> Fulfilled.
Proof.
  intros Hreach Hg Hrej Hr. cbn zeta.
  destruct (onLocatorChanged_inv ev s (reachable_WF _ _ Hreach))
    as (y & pa & Hreg & _ & _ & L1 & L2 & Hc).
  assert (Hds : drains (onLocatorChanged ev s) = drains s).
  { rewrite onLocatorChanged_eq, Hg, then_eq. cbv beta iota.
    unfold then_, adopt. cbn [snd fst]. unfold newPromise. cbn [snd fst].
    repeat (autorewrite with frame_db; psimpl). reflexivity. }
  assert (Hp1 : pstateOf (onLocatorChanged ev s) p = Rejected err).
  { pose proof (effA_onLocatorChanged (fun _ => False) s s ev (eff_refl _ s)) as He.
    rewrite (pstateOf_immutable _ _ _ _ He); [done|]. by rewrite Hrej. }
  set (s1 := onLocatorChanged ev s) in *. set (pf := length (promises s1) - 1) in *.
  set (rf := mkReaction _ HForward pf) in *.
  split; [by exists pa|]. split; [exact Hds|].
  destruct Hc as [[Hnone _]|(p' & Hg' & Hpy & Hrefs)]; [congruence|].
  assert (p' = p) as -> by congruence.
  assert (Hsim : simple rf) by (apply simple_plain; [discriminate|reflexivity]).
  assert (Hinv : pstateOf s' p = Rejected err /\ link s' y (fwd pa) /\ link s' pa rf /\
            ((pstateOf s' y = Pending /\
              refs_ok s' y (next_owner None p y []) (fun _ => False)) \/
             pstateOf s' y = Rejected err)).
  { assert (Hinv0 : pstateOf s1 p = Rejected err /\ link s1 y (fwd pa) /\
              link s1 pa rf /\
              ((pstateOf s1 y = Pending /\
                refs_ok s1 y (next_owner None p y []) (fun _ => False)) \/
               pstateOf s1 y = Rejected err)).
    { split; [exact Hp1|]. split; [exact L1|]. split; [exact L2|]. left. by split. }
    clear Hreg Hds Hp1 L1 L2 Hpy Hrefs. revert Hinv0 Hr. generalize s1.
    induction tr as [|e tr IH]; intros s2 Hinv0 Hr; simpl in Hr.
    - by injection Hr as <-.
    - destruct (step getQueryFilter e s2) as [s3|] eqn:Hs; [|done]. simpl in Hr.
      apply (IH s3); [|exact Hr]. destruct Hinv0 as (H1 & H2 & H3 & H4).
      split.
      { rewrite (pstateOf_immutable _ _ _ _ (eff_step _ _ _ Hs)); [done|]. by rewrite H1. }
      split; [eapply link_step; eauto using simple_fwd|].
      split; [by eapply link_step|]. by eapply rejected_next_step. }
  destruct Hinv as (_ & L1' & L2' & Hy). intros Hpf.
  assert (Hpa : pstateOf s' pa = Fulfilled).
  { destruct (link_settled _ _ _ L2') as [Hnp Hout];
      [change (derived rf) with pf; by rewrite Hpf|].
    destruct (not_pending_settlement _ Hnp) as [[e0|] Hv]; [|done].
    specialize (Hout (Some e0) Hv eq_refl). change (derived rf) with pf in Hout.
    rewrite Hpf in Hout. discriminate Hout. }
  assert (Hyf : pstateOf s' y = Fulfilled).
  { destruct (link_settled _ _ _ L1') as [Hnp Hout]; [cbn [fwd derived]; by rewrite Hpa|].
    destruct (not_pending_settlement _ Hnp) as [[e0|] Hv]; [|done].
    specialize (Hout (Some e0) Hv eq_refl). cbn [fwd derived] in Hout.
    rewrite Hpa in Hout. discriminate Hout. }
  destruct Hy as [[Hy _]|Hy]; congruence.
Qed.

(** ** Refresh-start notifications *)

Lemma starts_refl s : starts s s.
Proof. exists [], []. by rewrite !app_nil_r. Qed.

Lemma starts_trans s1 s2 s3 : starts s1 s2 -> starts s2 s3 -> starts s1 s3.
Proof.
  intros (nq1 & nl1 & Hd1 & Hl1 & Hf1) (nq2 & nl2 & Hd2 & Hl2 & Hf2).
  exists (nq1 ++ nq2), (nl1 ++ nl2).
  rewrite Hd2, Hd1, Hl2, Hl1, <- !app_assoc, List.filter_app, flat_map_app, Hf1, Hf2.
  done.
Qed.

Lemma starts_same s s' : drains s' = drains s -> log s' = log s -> starts s s'.
Proof. intros Hd Hl. exists [], []. by rewrite Hd, Hl, !app_nil_r. Qed.

Lemma starts_log s s' nl :
  map d_query (drains s') = map d_query (drains s) -> log s' = log s ++ nl ->
  List.filter is_start nl = [] -> starts s s'.
Proof. intros Hd Hl Hf. exists [], nl. by rewrite Hd, Hl, Hf, app_nil_r. Qed.

Lemma starts_settle p v s : starts s (settle p v s).
Proof. apply starts_same; by autorewrite with frame_db. Qed.

Lemma starts_subscribe p r s : starts s (subscribe p r s).
Proof. apply starts_same; by autorewrite with frame_db. Qed.

Lemma starts_then p f g s : starts s (snd (then_ p f g s)).
Proof. unfold then_, newPromise. simpl. apply starts_same; by autorewrite with frame_db. Qed.

Lemma starts_startRefresh q s : starts s (snd (startRefresh q s)).
Proof.
  rewrite startRefresh_eq. cbn zeta. cbn [snd]. exists [q], (start_entries q). psimpl.
  by rewrite map_app.
Qed.

Lemma starts_triggerRefresh q s : starts s (snd (triggerRefresh q s)).
Proof.
  unfold triggerRefresh. case_match; [apply starts_refl | apply starts_startRefresh].
Qed.

Lemma starts_triggerNewRefresh q s : starts s (snd (triggerNewRefresh q s)).
Proof.
  unfold triggerNewRefresh, newPromise, adopt.
  destruct (getRefreshPromiseForQuery q s) as [p|].
  - pose proof (starts_then p (HStartRefresh q) HForward s) as Hf.
    destruct (then_ _ _ _ s) as [x s1]. simpl in *.
    eapply starts_trans; [exact Hf|]. apply starts_same; by autorewrite with frame_db.
  - pose proof (starts_startRefresh q s) as Hf.
    destruct (startRefresh q s) as [x s1]. simpl in *.
    eapply starts_trans; [exact Hf|]. apply starts_same; by autorewrite with frame_db.
Qed.

Lemma starts_onLocatorChanged ev s : starts s (onLocatorChanged ev s).
Proof.
  unfold onLocatorChanged.
  pose proof (starts_triggerNewRefresh None s) as Hf.
  destruct (triggerNewRefresh None s) as [p s1]. simpl in Hf.
  eapply starts_trans; [exact Hf|]. apply starts_then.
Qed.

Lemma starts_emit e s : is_start e = false -> starts s (emit e s).
Proof.
  intros He. apply (starts_log _ _ [e]); [done|done|]. cbn [List.filter]. by rewrite He.
Qed.

Lemma starts_getEnvs q s : starts s (snd (getEnvs getQueryFilter q s)).
Proof.
  unfold getEnvs. simpl. case_match; [|apply starts_refl].
  pose proof (starts_triggerRefresh None (emit (LTraceError refresh_error_msg) s)) as Hf.
  destruct (triggerRefresh None _) as [p s1]. simpl in Hf.
  eapply starts_trans; [by apply (starts_emit (LTraceError refresh_error_msg))|].
  eapply starts_trans; [exact Hf|]. apply starts_then.
Qed.

Lemma starts_fold_then pall vals s :
  starts s (fold_left (fun st v => snd (then_ v (HAllResolve pall) (HAllReject pall) st))
              vals s).
Proof.
  revert s. induction vals as [|v vals IH]; intros s; simpl; [apply starts_refl|].
  eapply starts_trans; [|apply IH]. apply starts_then.
Qed.

Lemma starts_promiseAll vals s : starts s (snd (promiseAll vals s)).
Proof.
  unfold promiseAll, newPromise. destruct vals as [|v vals]; cbn [snd].
  - apply starts_same; by autorewrite with frame_db.
  - eapply starts_trans; [|apply (starts_fold_then _ (v :: vals))]. by apply starts_same.
Qed.

Lemma starts_refreshPromise s : starts s (snd (refreshPromise s)).
Proof.
  unfold refreshPromise.
  pose proof (starts_promiseAll (map snd (refreshPromises s)) s) as Hf.
  destruct (promiseAll _ s) as [p s1]. simpl in Hf.
  eapply starts_trans; [exact Hf|]. apply starts_then.
Qed.

Lemma starts_runHandler h v s : starts s (fst (runHandler h v s)).
Proof.
  destruct h; cbn [runHandler fst]; try apply starts_refl.
  - eapply starts_trans; [apply (starts_settle deferred None)|].
    eapply starts_trans; [|by apply (starts_emit (LTelemetry _))].
    by apply starts_same.
  - destruct v; [apply starts_settle | apply starts_refl].
  - pose proof (starts_startRefresh q s) as Hf. by destruct (startRefresh q s).
  - by apply (starts_emit (LFire ev)).
  - destruct (all_dec pall (alls s)) as [a last]. cbn [fst].
    destruct last; [|by apply starts_same].
    eapply starts_trans; [|apply starts_settle]. by apply starts_same.
  - apply starts_settle.
Qed.

Lemma starts_runJob j s : starts s (runJob j s).
Proof.
  destruct j as [r v]. unfold runJob.
  pose proof (starts_runHandler
                (match v with None => onFulfilled r | Some _ => onRejected r end) v s) as Hf.
  destruct (runHandler _ v s) as [s1 o]. simpl in Hf.
  eapply starts_trans; [exact Hf|].
  destruct o; [apply starts_settle | apply starts_settle | apply starts_subscribe].
Qed.

Lemma starts_flushDone pf r s s' : flushDone pf r s = Some s' -> starts s s'.
Proof. unfold flushDone. case_match; [|done]. intros [= <-]. apply starts_settle. Qed.

Lemma then_log y f g s : log (snd (then_ y f g s)) = log s.
Proof. unfold then_, newPromise. cbn [snd]. by rewrite subscribe_log. Qed.

Ltac quiet_log :=
  autorewrite with frame_db; psimpl; rewrite ?then_log; psimpl;
  rewrite <- ?app_assoc; cbn [app];
  first [ by exists []; rewrite app_nil_r
        | eexists; split; [reflexivity|reflexivity] ].

(** The events of a drain log no refresh start. *)
Lemma drain_step_log e s s' i :
  drain_index e = Some i -> step getQueryFilter e s = Some s' ->
  exists nl, log s' = log s ++ nl /\ List.filter is_start nl = [].
Proof.
  intros Hi Hs.
  destruct e as [q|q| |ev|ev|j env|j|j msg|j event|j r|pf r|]; try discriminate Hi;
    injection Hi as ->; cbn [step] in Hs.
  - unfold drainYield in Hs. destruct (drains s !! i) as [d|]; [|done].
    cbn [mbind option_bind] in Hs. destruct (decide _) as [Hp|]; [|done].
    destruct (addEnv _ env); apply (inj Some) in Hs; subst s'; unfold failDrain;
      quiet_log.
  - unfold drainEnd in Hs. destruct (drains s !! i) as [d|]; [|done].
    cbn [mbind option_bind] in Hs. destruct (decide _) as [Hp|]; [|done].
    destruct (d_updatesDone d); apply (inj Some) in Hs; subst s'; unfold callValidate;
      quiet_log.
  - unfold drainThrow in Hs. destruct (drains s !! i) as [d|]; [|done].
    cbn [mbind option_bind] in Hs. destruct (decide _) as [Hp|]; [|done].
    apply (inj Some) in Hs; subst s'; unfold failDrain. quiet_log.
  - unfold drainUpdate in Hs. destruct (drains s !! i) as [d|]; [|done].
    cbn [mbind option_bind] in Hs. destruct (d_listening d) eqn:Hli; [|done].
    destruct event as [[index update]|].
    + destruct (updateEnv _ _ update); apply (inj Some) in Hs; subst s';
        unfold callValidate; repeat case_match; quiet_log.
    + apply (inj Some) in Hs; subst s'; unfold callValidate; repeat case_match;
        quiet_log.
  - unfold drainValidated in Hs. destruct (drains s !! i) as [d|]; [|done].
    cbn [mbind option_bind] in Hs. destruct (decide _) as [Hp|]; [|done].
    destruct r as [msg|]; apply (inj Some) in Hs; subst s'; unfold failDrain.
    + quiet_log.
    + cbn [newPromise fst snd]. quiet_log.
Qed.

Lemma starts_step e s s' : step getQueryFilter e s = Some s' -> starts s s'.
Proof.
  intros Hs. destruct (drain_index e) as [i|] eqn:Hi.
  - destruct (drain_step_log e s s' i Hi Hs) as (nl & Hl & Hf).
    destruct (drain_step_some e s s' i Hi Hs) as [d Hd].
    destruct (drain_step_shape e s s' i d Hi Hd Hs) as (d' & Hds & _ & Hq & _).
    apply (starts_log _ _ nl); [|done|done].
    rewrite Hds, list_fmap_insert, Hq. apply list_insert_id.
    by rewrite list_lookup_fmap, Hd.
  - destruct e as [q|q| |ev|ev|i env|i|i msg|i event|i r|pf r|]; try discriminate Hi;
      cbn [step] in Hs.
    + apply (inj Some) in Hs. subst s'. apply starts_triggerRefresh.
    + apply (inj Some) in Hs. subst s'. apply starts_getEnvs.
    + apply (inj Some) in Hs. subst s'. apply starts_refreshPromise.
    + apply (inj Some) in Hs. subst s'. apply starts_onLocatorChanged.
    + apply (inj Some) in Hs. subst s'. by apply (starts_emit (LFire ev)).
    + by eapply starts_flushDone.
    + destruct (jobs s) as [|j js] eqn:Hj; [done|]. apply (inj Some) in Hs. subst s'.
      eapply starts_trans; [|apply starts_runJob]. by apply starts_same.
Qed.

Lemma filter_iter_start l :
  List.filter is_iterEnvs (List.filter is_start l) = List.filter is_iterEnvs l.
Proof.
  induction l as [|e l IH]; [done|]. destruct e; cbn; rewrite ?IH; done.
Qed.

Lemma iter_start_entries qs :
  length (List.filter is_iterEnvs (flat_map start_entries qs)) = length qs.
Proof. induction qs as [|q qs IH]; [done|]. cbn. by rewrite IH. Qed.


(** ** Flush and the outcome of a drain *)

Ltac flush_log Hin :=
  autorewrite with frame_db in Hin; psimpl in Hin; rewrite ?then_log in Hin;
  psimpl in Hin;
  rewrite ?elem_of_app, ?elem_of_cons, ?elem_of_nil in Hin;
  intuition (try discriminate).

Lemma drain_step_flush e s s' j i :
  drain_index e = Some j -> step getQueryFilter e s = Some s' ->
  LFlush i ∈ log s' ->
  LFlush i ∈ log s \/
  (i = j /\ exists d', drains s' !! j = Some d' /\ d_phase d' = Finished).
Proof.
  intros Hi Hs Hin.
  destruct e as [q|q| |ev|ev|k env|k|k msg|k event|k r|pf r|]; try discriminate Hi;
    injection Hi as ->; cbn [step] in Hs.
  - unfold drainYield in Hs. destruct (drains s !! j) as [d|]; [|done].
    cbn [mbind option_bind] in Hs. destruct (decide _) as [Hp|]; [|done].
    destruct (addEnv _ env); apply (inj Some) in Hs; subst s'; unfold failDrain in Hin;
      flush_log Hin.
  - unfold drainEnd in Hs. destruct (drains s !! j) as [d|]; [|done].
    cbn [mbind option_bind] in Hs. destruct (decide _) as [Hp|]; [|done].
    destruct (d_updatesDone d); apply (inj Some) in Hs; subst s';
      unfold callValidate in Hin; flush_log Hin.
  - unfold drainThrow in Hs. destruct (drains s !! j) as [d|]; [|done].
    cbn [mbind option_bind] in Hs. destruct (decide _) as [Hp|]; [|done].
    apply (inj Some) in Hs; subst s'; unfold failDrain in Hin. flush_log Hin.
  - unfold drainUpdate in Hs. destruct (drains s !! j) as [d|]; [|done].
    cbn [mbind option_bind] in Hs. destruct (d_listening d) eqn:Hli; [|done].
    destruct event as [[index update]|].
    + destruct (updateEnv _ _ update); apply (inj Some) in Hs; subst s';
        unfold callValidate in Hin; repeat case_match; flush_log Hin.
    + apply (inj Some) in Hs; subst s'; unfold callValidate in Hin; repeat case_match;
        flush_log Hin.
  - destruct (drains s !! j) as [d|] eqn:Hd;
      [|unfold drainValidated in Hs; rewrite Hd in Hs; done].
    destruct (decide (d_phase d = Validating)) as [Hp|Hp];
      [|unfold drainValidated in Hs; rewrite Hd in Hs; cbn [mbind option_bind] in Hs;
        by rewrite decide_False in Hs].
    destruct r as [msg|].
    + unfold drainValidated in Hs. rewrite Hd in Hs. cbn [mbind option_bind] in Hs.
      rewrite decide_True in Hs by done. apply (inj Some) in Hs. subst s'.
      unfold failDrain in Hin. flush_log Hin.
    + rewrite (drainValidated_ok_eq j d s Hd Hp) in Hs. apply (inj Some) in Hs. subst s'.
      destruct (decide (i = j)) as [->|Hne].
      * right. split; [done|]. eexists. split.
        -- autorewrite with frame_db. psimpl. rewrite then_drains. psimpl.
           apply list_lookup_insert_eq. by eapply lookup_lt_Some.
        -- reflexivity.
      * left. flush_log Hin. congruence.
Qed.

Lemma flush_finished_step tr e s s' :
  I3 tr s ->
  (forall i d, drains s !! i = Some d -> LFlush i ∈ log s -> d_phase d = Finished) ->
  step getQueryFilter e s = Some s' ->
  (forall i d, drains s' !! i = Some d -> LFlush i ∈ log s' -> d_phase d = Finished).
Proof.
  intros [_ Hb] HJ Hs i d' Hd' Hin.
  assert (Hold : LFlush i ∈ log s -> d_phase d' = Finished).
  { intros Hin0. assert (Hlt : i < length (drains s)) by auto.
    apply lookup_lt_is_Some in Hlt as [d Hd].
    destruct (drain_le_step e s s' i d Hs Hd) as (d2 & Hd2 & Hle).
    assert (d2 = d') as -> by congruence.
    pose proof (HJ i d Hd Hin0) as Hf.
    destruct Hle as (_ & _ & _ & _ & _ & _ & _ & _ & [Hp|Hp]); [congruence|].
    rewrite Hf in Hp. cbn [phase_rank] in Hp. destruct (d_phase d'); cbn in Hp; lia. }
  destruct (drain_index e) as [j|] eqn:Hi.
  - destruct (drain_step_flush e s s' j i Hi Hs Hin) as [Hin0|(-> & d2 & Hd2 & Hf)];
      [auto|congruence].
  - destruct (frame_step e s s' Hi Hs) as (nd & nl & _ & _ & Hl & Hq).
    apply Hold. rewrite Hl in Hin. apply elem_of_app in Hin as [?|Hin]; [done|].
    by apply quiet_not_flush in Hin.
Qed.


(** ** Symbolic runs *)

Lemma settle_at (c : C) m ps js ds al fl lg (k : nat) new rs v :
  new !! k = Some (mkPromise Pending rs) ->
  settle (length ps + k) v (mkState c m (ps ++ new) js ds al fl lg) =
  mkState c m (ps ++ <[k := mkPromise (settlement v) []]> new)
    (js ++ map (fun r => (r, v)) rs) ds al fl lg.
Proof.
  intros Hk. unfold settle. sst. rewrite lookup_snoc_off, Hk.
  by rewrite insert_snoc_off.
Qed.

Lemma subscribe_at (c : C) m ps js ds al fl lg (k : nat) new rs r :
  new !! k = Some (mkPromise Pending rs) ->
  subscribe (length ps + k) r (mkState c m (ps ++ new) js ds al fl lg) =
  mkState c m (ps ++ <[k := mkPromise Pending (rs ++ [r])]> new) js ds al fl lg.
Proof.
  intros Hk. unfold subscribe. sst. rewrite lookup_snoc_off, Hk.
  by rewrite insert_snoc_off.
Qed.

Lemma subscribe_at_fulfilled (c : C) m ps js ds al fl lg (k : nat) new rs r :
  new !! k = Some (mkPromise Fulfilled rs) ->
  subscribe (length ps + k) r (mkState c m (ps ++ new) js ds al fl lg) =
  mkState c m (ps ++ new) (js ++ [(r, None)]) ds al fl lg.
Proof. intros Hk. unfold subscribe. sst. by rewrite lookup_snoc_off, Hk. Qed.

Lemma pstateOf_at (c : C) m ps js ds al fl lg (k : nat) new pr :
  new !! k = Some pr ->
  pstateOf (mkState c m (ps ++ new) js ds al fl lg) (length ps + k) = pstate pr.
Proof. intros Hk. unfold pstateOf. sst. by rewrite lookup_snoc_off, Hk. Qed.

Lemma settle_at0 (c : C) m ps js ds al fl lg new rs v :
  new !! 0 = Some (mkPromise Pending rs) ->
  settle (length ps) v (mkState c m (ps ++ new) js ds al fl lg) =
  mkState c m (ps ++ <[0 := mkPromise (settlement v) []]> new)
    (js ++ map (fun r => (r, v)) rs) ds al fl lg.
Proof.
  intros Hk. rewrite <- (Nat.add_0_r (length ps)) at 1. by apply settle_at.
Qed.

Lemma subscribe_at0_fulfilled (c : C) m ps js ds al fl lg new rs r :
  new !! 0 = Some (mkPromise Fulfilled rs) ->
  subscribe (length ps) r (mkState c m (ps ++ new) js ds al fl lg) =
  mkState c m (ps ++ new) (js ++ [(r, None)]) ds al fl lg.
Proof.
  intros Hk. rewrite <- (Nat.add_0_r (length ps)) at 1. by eapply subscribe_at_fulfilled.
Qed.

Lemma pstateOf_at0 (c : C) m ps js ds al fl lg new pr :
  new !! 0 = Some pr ->
  pstateOf (mkState c m (ps ++ new) js ds al fl lg) (length ps) = pstate pr.
Proof.
  intros Hk. rewrite <- (Nat.add_0_r (length ps)). by apply pstateOf_at.
Qed.

(** [refreshPromise] in closed form when nothing is tracked. *)
Lemma refreshPromise_idle_eq s :
  refreshPromises s = [] ->
  refreshPromise s =
  let n := length (promises s) in
  (n + 1,
   mkState (cache s) [] (promises s ++ [mkPromise Fulfilled []; mkPromise Pending []])
     (jobs s ++ [(fwd (n + 1), None)]) (drains s) (alls s) (flushes s) (log s)).
Proof.
  intros Hm. destruct s as [c m ps js ds al fl lg]. cbn in Hm. subst m.
  unfold refreshPromise, promiseAll.
  cbn [refreshPromises map newPromise promises set_promises fst snd].
  rewrite (settle_at0 _ _ _ _ _ _ _ _ _ []) by reflexivity.
  cbn [insert list_insert map settlement]. rewrite app_nil_r.
  unfold then_. cbn [newPromise promises set_promises fst snd]. norm.
  rewrite (subscribe_at0_fulfilled _ _ _ _ _ _ _ _ _ []) by reflexivity.
  reflexivity.
Qed.

Lemma same_fold_then pall vals s :
  let s' := fold_left (fun st v => snd (then_ v (HAllResolve pall) (HAllReject pall) st))
              vals s in
  cache s' = cache s /\ refreshPromises s' = refreshPromises s /\
  drains s' = drains s /\ flushes s' = flushes s /\ log s' = log s /\
  length (promises s') = length (promises s) + length vals.
Proof.
  cbn zeta. revert s. induction vals as [|v vals IH]; intros s; cbn [fold_left length].
  - repeat split; auto.
  - destruct (IH (snd (then_ v (HAllResolve pall) (HAllReject pall) s)))
      as (H1 & H2 & H3 & H4 & H5 & H6).
    rewrite H1, H2, H3, H4, H5, H6. unfold then_, newPromise. cbn [snd].
    autorewrite with frame_db. psimpl. rewrite length_app. cbn [length].
    repeat split; auto. lia.
Qed.

(** X8. Reading [refreshPromise] only observes: it returns a new promise
    and leaves the cache, the tracked handles, the drains, the flushes and
    the log as they are, so it starts no refresh and announces nothing.  With
    nothing tracked, [Promise.all([])] is fulfilled at once and the promise
    returned is fulfilled, not synchronously, but by the microtask queued for
    it; with an empty queue that is the very next microtask. *)
Theorem X8_refreshPromise_observes (s : State C) :
  let n := length (promises s) in
  let s1 := snd (refreshPromise s) in
  let p := fst (refreshPromise s) in
  (p = n + 1 + length (refreshPromises s) /\
   cache s1 = cache s /\ refreshPromises s1 = refreshPromises s /\
   drains s1 = drains s /\ flushes s1 = flushes s /\ log s1 = log s) /\
  (refreshPromises s = [] ->
   pstateOf s1 n = Fulfilled /\ pstateOf s1 p = Pending /\
   jobs s1 = jobs s ++ [(fwd p, None)] /\
   (jobs s = [] ->
    exists s2, step getQueryFilter ETick s1 = Some s2 /\
               pstateOf s2 p = Fulfilled /\ jobs s2 = [])).
Proof.
  cbn zeta. split.
  - unfold refreshPromise, promiseAll.
    destruct (map snd (refreshPromises s)) as [|v vals] eqn:Hv.
    + apply (f_equal length) in Hv. rewrite length_map in Hv. cbn [length] in Hv.
      rewrite Hv. unfold then_, newPromise. cbn [fst snd].
      repeat (autorewrite with frame_db; psimpl). rewrite length_app. cbn [length].
      repeat split; auto; lia.
    + apply (f_equal length) in Hv. rewrite length_map in Hv. rewrite Hv.
      cbn [newPromise fst snd].
      pose proof (same_fold_then (length (promises s)) (v :: vals)
                    (set_alls (alls s ++ [(length (promises s), length (v :: vals))])
                       (set_promises (promises s ++ [mkPromise Pending []]) s)))
        as (H1 & H2 & H3 & H4 & H5 & H6).
      cbn zeta in *. set (S := fold_left _ _ _) in *.
      rewrite then_eq. cbn [fst snd]. unfold newPromise. cbn [snd].
      repeat (autorewrite with frame_db; psimpl).
      rewrite H1, H2, H3, H4, H5, H6. psimpl. rewrite length_app. cbn [length].
      repeat split; auto; lia.
  - intros Hm. rewrite (refreshPromise_idle_eq s Hm). cbn zeta. cbn [fst snd].
    split; [|split; [|split]].
    + by rewrite (pstateOf_at0 _ _ _ _ _ _ _ _ _ (mkPromise Fulfilled [])).
    + by rewrite (pstateOf_at _ _ _ _ _ _ _ _ 1 _ (mkPromise Pending [])).
    + reflexivity.
    + intros Hj. rewrite Hj. cbn [step jobs app]. eexists. split; [reflexivity|].
      cbn [runJob fwd onFulfilled derived runHandler]. psimpl.
      rewrite (settle_at _ _ _ _ _ _ _ _ 1 _ []) by reflexivity.
      cbn [insert list_insert map app].
      split; [|reflexivity].
      by rewrite (pstateOf_at _ _ _ _ _ _ _ _ 1 _ (mkPromise Fulfilled [])).
Qed.

Lemma map_delete_set q p m : map_get q m = None -> map_delete q (map_set q p m) = m.
Proof.
  induction m as [|[k v] m IH]; cbn; intros Hg.
  - by rewrite decide_True.
  - destruct (decide (k = q)); [done|]. cbn. rewrite decide_False by done.
    by rewrite IH.
Qed.


(** ** The outcome of a refresh *)

Lemma pstateOf_then y f g s x : pstateOf (snd (then_ y f g s)) x = pstateOf s x.
Proof. rewrite then_eq. cbn [snd]. by rewrite pstateOf_subscribe, pstateOf_newPromise. Qed.

Lemma owned_not_settled e s x k :
  refs_ok s x (fun _ _ => False) (fun i => i = k) ->
  drain_index e <> Some k -> ~ may_settle e s x.
Proof.
  intros (R1 & R2 & R3 & R4 & R5) Hne.
  destruct e as [q|q| |ev|ev|j env|j|j msg|j event|j r|pf r|];
    cbn [may_settle drain_index] in *; try tauto.
  - intros (d0 & Hd0 & Hx0). apply Hne. f_equal. eauto.
  - intros (d0 & Hd0 & Hx0). apply Hne. f_equal. eauto.
  - intros (d0 & Hd0 & Hx0). apply Hne. f_equal. eauto.
  - intros (d0 & Hd0 & Hx0). apply Hne. f_equal. eauto.
  - intros (d0 & Hd0 & Hx0). apply Hne. f_equal. eauto.
  - intros [-> Hpf]. done.
  - intros (r & v & js & Hj & Hin).
    destruct (R2 r v) as (z & [] & _); [rewrite Hj; apply elem_of_cons; auto|done].
Qed.

Ltac outcome_quiet Hd Hp :=
  eexists; split;
  [ psimpl; rewrite ?list_insert_insert_eq; apply list_lookup_insert_eq;
    by eapply lookup_lt_Some
  | left; split; [exact Hp | eff_drain_fields Hd] ].

Ltac outcome_failed Hlt Hp :=
  eexists; split;
  [ autorewrite with frame_db; psimpl; rewrite ?list_insert_insert_eq;
    apply list_lookup_insert_eq; by eapply lookup_lt_Some
  | right; right; eexists; split;
    [ cbn [d_promise]; rewrite settle_pending_eq; [reflexivity | exact Hlt | exact Hp]
    | reflexivity ] ].

(** What an event of drain [k] does to the promise of the drain. *)
Lemma drain_settle_outcome e s s' k d :
  drain_index e = Some k -> drains s !! k = Some d ->
  step getQueryFilter e s = Some s' ->
  d_promise d < length (promises s) -> pstateOf s (d_promise d) = Pending ->
  exists d', drains s' !! k = Some d' /\
    ((pstateOf s' (d_promise d) = Pending /\ eff (fun _ => False) s s') \/
     (pstateOf s' (d_promise d) = Fulfilled /\ d_phase d' = Finished) \/
     (exists err, pstateOf s' (d_promise d) = Rejected err /\ d_phase d' = Failed)).
Proof.
  intros Hi Hd Hs Hlt Hp.
  destruct e as [q|q| |ev|ev|j env|j|j msg|j event|j r|pf r|]; try discriminate Hi;
    injection Hi as ->; cbn [step] in Hs.
  - unfold drainYield in Hs. rewrite Hd in Hs. cbn [mbind option_bind] in Hs.
    destruct (decide _) as [Hph|]; [|done].
    destruct (addEnv _ env); apply (inj Some) in Hs; subst s'; unfold failDrain.
    + outcome_failed Hlt Hp.
    + outcome_quiet Hd Hp.
  - unfold drainEnd in Hs. rewrite Hd in Hs. cbn [mbind option_bind] in Hs.
    destruct (decide _) as [Hph|]; [|done].
    destruct (d_updatesDone d); apply (inj Some) in Hs; subst s'; unfold callValidate;
      outcome_quiet Hd Hp.
  - unfold drainThrow in Hs. rewrite Hd in Hs. cbn [mbind option_bind] in Hs.
    destruct (decide _) as [Hph|]; [|done].
    apply (inj Some) in Hs; subst s'; unfold failDrain. outcome_failed Hlt Hp.
  - unfold drainUpdate in Hs. rewrite Hd in Hs. cbn [mbind option_bind] in Hs.
    destruct (d_listening d) eqn:Hli; [|done].
    destruct event as [[index update]|].
    + destruct (updateEnv _ _ update); apply (inj Some) in Hs; subst s';
        unfold callValidate; repeat case_match; outcome_quiet Hd Hp.
    + apply (inj Some) in Hs; subst s'; unfold callValidate; repeat case_match;
        outcome_quiet Hd Hp.
  - destruct (decide (d_phase d = Validating)) as [Hph|Hph];
      [|unfold drainValidated in Hs; rewrite Hd in Hs; cbn [mbind option_bind] in Hs;
        by rewrite decide_False in Hs].
    destruct r as [msg|].
    + unfold drainValidated in Hs. rewrite Hd in Hs. cbn [mbind option_bind] in Hs.
      rewrite decide_True in Hs by done. apply (inj Some) in Hs. subst s'.
      unfold failDrain. outcome_failed Hlt Hp.
    + pose proof (e_len _ _ _ (eff_drainValidated _ _ _ _ Hs)) as Hlen.
      rewrite (drainValidated_ok_eq k d s Hd Hph) in Hs. apply (inj Some) in Hs. subst s'.
      rewrite settle_length in Hlen.
      eexists. split.
      * autorewrite with frame_db. psimpl. rewrite then_drains. psimpl.
        apply list_lookup_insert_eq. by eapply lookup_lt_Some.
      * right. left. split; [|reflexivity].
        apply settle_pending_eq.
        -- lia.
        -- change (pstateOf (snd (then_ (length (promises s)) HForward HIgnore
                     (set_flushes (flushes s ++ [length (promises s)])
                        (set_promises (promises s ++ [mkPromise Pending []])
                           (emit (LFlush k) (set_cache (validated (cache s)) s))))))
                     (d_promise d) = Pending).
           rewrite pstateOf_then. unfold pstateOf in *. psimpl.
           by rewrite lookup_app_l.
Qed.

Lemma drain_result_step e s s' k x :
  drain_result s k x -> step getQueryFilter e s = Some s' -> drain_result s' k x.
Proof.
  intros (d & Hd & Hx & Hc) Hs. subst x.
  destruct (drain_le_step e s s' k d Hs Hd) as (d' & Hd' & Hle).
  pose proof (eff_step e s s' Hs) as He.
  assert (Hpd : d_promise d' = d_promise d) by apply Hle.
  assert (Hph : phase_rank (d_phase d) = 3 -> d_phase d' = d_phase d).
  { intros Hr. destruct Hle as (_ & _ & _ & _ & _ & _ & _ & _ & [Hq|Hq]); [done|].
    rewrite Hr in Hq. destruct (d_phase d'); cbn in Hq; lia. }
  exists d'. split; [done|]. split; [done|].
  destruct Hc as [[Hp Hr]|[[Hf Hfin]|(err & Hrej & Hfail)]].
  - destruct (decide (drain_index e = Some k)) as [Hi|Hi].
    + pose proof Hr as (_ & _ & _ & _ & R5).
      destruct (drain_settle_outcome e s s' k d Hi Hd Hs R5 Hp) as (d2 & Hd2 & Hcase).
      assert (d2 = d') as -> by congruence.
      destruct Hcase as [[Hq He0]|Hcase]; [|by right].
      left. split; [done|]. by destruct (refs_ok_eff _ _ _ _ _ _ Hr He0 (fun F => F)).
    + left. pose proof (owned_not_settled e s _ k Hr Hi) as Hn.
      destruct (refs_ok_eff _ _ _ _ _ _ Hr He Hn) as [Hr' Hp']. split; [congruence|done].
  - right. left. rewrite (pstateOf_immutable _ _ _ _ He) by (by rewrite Hf).
    split; [done|]. rewrite Hph; [done|]. by rewrite Hfin.
  - right. right. exists err. rewrite (pstateOf_immutable _ _ _ _ He) by (by rewrite Hrej).
    split; [done|]. rewrite Hph; [done|]. by rewrite Hfail.
Qed.

(** The [then] callback of [startRefresh] resolves the deferred promise
    and returns. *)
Lemma runJob_r_then q b s :
  b + 2 < length (promises s) -> pstateOf s (b + 2) = Pending ->
  pstateOf (runJob (r_then q b, None) s) (b + 2) = Fulfilled /\
  (pstateOf s b = Pending -> pstateOf (runJob (r_then q b, None) s) b = Fulfilled).
Proof.
  intros Hlt Hp. cbn [runJob r_then onFulfilled derived runHandler].
  set (s1 := emit _ _).
  assert (Hl1 : length (promises s1) = length (promises s))
    by (unfold s1; psimpl; apply settle_length).
  assert (Hp1 : forall y, pstateOf s1 y = pstateOf (settle b None s) y) by done.
  split.
  - apply settle_pending_eq; [lia|]. rewrite Hp1, settle_pstateOf.
    rewrite decide_False; [done|]. intros [? _]. lia.
  - intros Hb. rewrite settle_pstateOf. rewrite decide_False by (intros [? _]; lia).
    rewrite Hp1. apply settle_pending_eq; [lia|done].
Qed.

(** A fulfilled drain promise never leads to a rejected [then] promise. *)
Lemma then_out_step e s s' q b k :
  chain s q b k ->
  (pstateOf s (b + 1) = Fulfilled -> forall err, pstateOf s (b + 2) <> Rejected err) ->
  step getQueryFilter e s = Some s' ->
  (pstateOf s' (b + 1) = Fulfilled -> forall err, pstateOf s' (b + 2) <> Rejected err).
Proof.
  intros (_ & _ & L1 & _) HT Hs Hf err Hrej. pose proof (eff_step e s s' Hs) as He.
  destruct L1 as [[Hp Hr]|(Hx & Hy & _)]; cbn [r_then derived] in *.
  2: { rewrite (pstateOf_immutable _ _ _ _ He Hx) in Hrej.
       rewrite (pstateOf_immutable _ _ _ _ He Hy) in Hf. by eapply HT. }
  assert (Hkeep : ~ may_settle e s (b + 2) -> False).
  { intros Hn. destruct (refs_ok_eff _ _ _ _ _ _ Hr He Hn) as [_ Hp']. congruence. }
  assert (e = ETick \/ e <> ETick) as [->|Hne]
    by (destruct e; auto; right; discriminate).
  2: { apply Hkeep. eapply refs_no_settle; [exact Hr|]. intros r0 v0 js0 _ ?. done. }
  cbn [step] in Hs. destruct (jobs s) as [|[rj v] js] eqn:Hj; [done|].
  apply (inj Some) in Hs.
  destruct (decide (b + 2 ∈ rtargets rj)) as [Hin|Hnin].
  2: { apply Hkeep. eapply refs_no_settle; [exact Hr|].
       intros r0 v0 js0 Hj0 _. rewrite Hj in Hj0. by injection Hj0 as <- _ _. }
  pose proof Hr as (_ & R2 & _ & _ & R5).
  destruct (R2 rj v) as (z & [-> ->] & Hzs); [rewrite Hj; apply elem_of_cons; auto|done|].
  rewrite (pstateOf_immutable _ _ _ _ He) in Hf
    by (rewrite Hzs; apply settlement_not_pending).
  rewrite Hzs in Hf. change Fulfilled with (settlement None) in Hf.
  apply settlement_inj in Hf as ->.
  destruct (runJob_r_then q b (set_jobs js s) R5 Hp) as [Hful _].
  rewrite Hs in Hful. congruence.
Qed.

Lemma deferred_result_step e s s' q b k :
  chain s q b k ->
  (pstateOf s (b + 1) = Fulfilled -> forall err, pstateOf s (b + 2) <> Rejected err) ->
  deferred_result s q b ->
  step getQueryFilter e s = Some s' -> deferred_result s' q b.
Proof.
  intros (_ & _ & L1 & _) HT Hk Hs. pose proof (eff_step e s s' Hs) as He.
  destruct Hk as [[Hp Hr]|[[Hf H1]|(err & Hrej & H1)]].
  2: { right. left. rewrite !(pstateOf_immutable _ _ _ _ He); [done|..]; congruence. }
  2: { right. right. exists err.
       rewrite !(pstateOf_immutable _ _ _ _ He); [done|..]; congruence. }
  assert (Hkeep : forall S s0, eff S s0 s' -> refs_ok s0 b (deferred_owner q b)
                    (fun _ => False) -> pstateOf s0 b = Pending -> ~ S b ->
                  deferred_result s' q b).
  { intros S s0 He0 Hr0 Hp0 Hn. destruct (refs_ok_eff _ _ _ _ _ _ Hr0 He0 Hn) as [Hr' Hp'].
    left. split; [congruence|done]. }
  assert (e = ETick \/ e <> ETick) as [->|Hne]
    by (destruct e; auto; right; discriminate).
  2: { apply (Hkeep _ s He Hr Hp). eapply refs_no_settle; [exact Hr|].
       intros r0 v0 js0 _ ?. done. }
  cbn [step] in Hs. destruct (jobs s) as [|[rj v] js] eqn:Hj; [done|].
  apply (inj Some) in Hs.
  destruct (decide (b ∈ rtargets rj)) as [Hin|Hnin].
  2: { apply (Hkeep _ s He Hr Hp). eapply refs_no_settle; [exact Hr|].
       intros r0 v0 js0 Hj0 _. rewrite Hj in Hj0. by injection Hj0 as <- _ _. }
  pose proof Hr as (_ & R2 & _ & _ & R5).
  destruct (R2 rj v) as (z & Hown & Hzs); [rewrite Hj; apply elem_of_cons; auto|done|].
  set (sj := set_jobs js s) in *.
  assert (Hrj : refs_ok sj b (deferred_owner q b) (fun _ => False))
    by (eapply refs_ok_pop; eauto).
  assert (Hpj : pstateOf sj b = Pending) by exact Hp.
  assert (Hz : pstateOf s z <> Pending) by (rewrite Hzs; apply settlement_not_pending).
  destruct Hown as [[-> ->]|[-> ->]].
  - destruct v as [err|].
    + (* the drain failed: the rejection passes the [then] *)
      apply (Hkeep (fun x => x = b + 2) sj); [|done|done|lia].
      rewrite <- Hs. cbn [runJob r_then onRejected derived runHandler].
      apply effA_settle; [apply eff_refl|by left].
    + right. left. split.
      * rewrite <- Hs.
        assert (Hl2 : b + 2 < length (promises sj)).
        { destruct L1 as [[_ (_ & _ & _ & _ & ?)]|(Hx & _)]; [done|].
          cbn [r_then derived] in Hx.
          destruct (Nat.lt_ge_cases (b + 2) (length (promises s))) as [|Hge]; [done|].
          by rewrite (pstateOf_fresh s) in Hx. }
        destruct (decide (pstateOf sj (b + 2) = Pending)) as [Hp2|Hp2].
        -- by apply (runJob_r_then q b sj Hl2 Hp2).
        -- cbn [runJob r_then onFulfilled derived runHandler].
           rewrite settle_pstateOf. rewrite decide_False by (intros [? _]; lia).
           change (pstateOf (settle b None sj) b = Fulfilled).
           by apply settle_pending_eq.
      * rewrite (pstateOf_immutable _ _ _ _ He Hz). exact Hzs.
  - destruct v as [err|].
    + right. right. exists err. split.
      * rewrite <- Hs. cbn [runJob r_catch onRejected derived runHandler].
        rewrite settle_pstateOf. rewrite decide_False by (intros [? _]; lia).
        by apply settle_pending_eq.
      * destruct (link_settled _ _ _ L1) as [Hnp Hout]; [exact Hz|].
        cbn [r_then derived] in Hout.
        rewrite (pstateOf_immutable _ _ _ _ He Hnp).
        destruct (not_pending_settlement _ Hnp) as [[e1|] Hv].
        -- specialize (Hout (Some e1) Hv eq_refl). rewrite Hzs in Hout.
           apply settlement_inj in Hout. injection Hout as ->. exact Hv.
        -- exfalso. apply (HT Hv err). exact Hzs.
    + apply (Hkeep (fun x => x = b + 3) sj); [|done|done|lia].
      rewrite <- Hs. cbn [runJob r_catch onFulfilled derived runHandler].
      apply effA_settle; [apply eff_refl|by left].
Qed.

(** X15. The tracked handle mirrors the outcome of its drain.  In every
    run after [triggerRefresh(q)] started a refresh, the deferred promise kept
    in [refreshPromises] is fulfilled only if the drain returned normally
    (and so after [validateCache] succeeded and [flush] was called), and it
    is rejected only if the drain threw. *)
Theorem X15_handle_mirrors_drain_outcome
    (c : C) (s s' : State C) (q : Query) (tr : list Event) :
  reachable getQueryFilter c s ->
  getRefreshPromiseForQuery q s = None ->
  run getQueryFilter tr (snd (triggerRefresh q s)) = Some s' ->
  let b := length (promises s) in
  exists d, drains s' !! length (drains s) = Some d /\ d_query d = q /\
    (pstateOf s' b = Fulfilled -> d_phase d = Finished) /\
    (forall err, pstateOf s' b = Rejected err -> d_phase d = Failed).
Proof.
  intros Hreach Hmiss Hr. cbn zeta. rewrite (triggerRefresh_miss _ _ Hmiss) in *.
  pose proof (reachable_WF _ _ Hreach) as HW.
  set (b := length (promises s)). set (k := length (drains s)).
  assert (Hinv : chain s' q b k /\ drain_result s' k (b + 1) /\
            (pstateOf s' (b + 1) = Fulfilled ->
             forall err, pstateOf s' (b + 2) <> Rejected err) /\
            deferred_result s' q b).
  { assert (Hinv0 : chain (snd (startRefresh q s)) q b k /\
              drain_result (snd (startRefresh q s)) k (b + 1) /\
              (pstateOf (snd (startRefresh q s)) (b + 1) = Fulfilled ->
               forall err, pstateOf (snd (startRefresh q s)) (b + 2) <> Rejected err) /\
              deferred_result (snd (startRefresh q s)) q b).
    { pose proof (chain_start s q HW) as Hc. fold b k in Hc.
      split; [exact Hc|]. split; [|split].
      - destruct Hc as ((d & Hd & Hx & Ho) & _). exists d. split; [done|]. split; [done|].
        destruct Ho as [Ho|[Ht|Ht]]; [by left|..].
        all: exfalso; rewrite startRefresh_drains in Hd; unfold k in Hd;
          rewrite lookup_snoc_here in Hd; injection Hd as <-; discriminate Ht.
      - intros Hf. exfalso.
        assert (Hp1 : pstateOf (snd (startRefresh q s)) (b + 1) = Pending).
        { rewrite startRefresh_eq. cbn zeta. cbn [snd].
          eapply (pstateOf_extend s); [reflexivity|repeat constructor|unfold b; lia]. }
        congruence.
      - left. apply (deferred_start s q HW). }
    revert Hinv0 Hr. generalize (snd (startRefresh q s)).
    induction tr as [|e tr IH]; intros s1 Hinv0 Hr; simpl in Hr.
    - by injection Hr as <-.
    - destruct (step getQueryFilter e s1) as [s2|] eqn:Hs; [|done]. simpl in Hr.
      apply (IH s2); [|exact Hr]. destruct Hinv0 as (Hc0 & Hd0 & HT0 & Hk0).
      split; [by eapply chain_step|]. split; [by eapply drain_result_step|].
      split; [by eapply then_out_step|by eapply deferred_result_step]. }
  destruct Hinv as (_ & (d & Hd & _ & Hres) & _ & Hdef).
  assert (Hq : d_query d = q).
  { assert (Hd0 : drains (snd (startRefresh q s)) !! k = Some (startedDrain s q))
      by (rewrite startRefresh_drains; apply lookup_snoc_here).
    destruct (drain_le_run _ _ _ _ _ Hr Hd0) as (d2 & Hd2 & Hle).
    assert (d2 = d) as -> by congruence. by destruct Hle as [-> _]. }
  exists d. split; [done|]. split; [done|].
  split.
  - intros Hb. destruct Hdef as [[Hp _]|[[_ H1]|(err & Hrej & _)]]; [congruence| |congruence].
    destruct Hres as [[Hp _]|[[_ Hfin]|(err & Hrej & _)]]; [congruence|done|congruence].
  - intros err Hb.
    destruct Hdef as [[Hp _]|[[Hf _]|(err' & Hrej & H1)]]; [congruence|congruence|].
    destruct Hres as [[Hp _]|[[Hf _]|(err2 & _ & Hfail)]]; [congruence|congruence|done].
Qed.

(** ** The counter of pending revisions *)

Ltac pending_record :=
  eexists; split;
  [ autorewrite with frame_db; psimpl; rewrite ?then_drains; psimpl;
    rewrite ?list_insert_insert_eq; apply list_lookup_insert_eq; by eapply lookup_lt_Some
  | psimpl; split;
    [ try done; try lia
    | try done; try (intros; congruence);
      try (let Hx := fresh in
           intros Hx;
           match goal with Hq : d_done _ = true -> _ |- _ => specialize (Hq Hx) end;
           congruence) ] ].

Lemma drain_step_pending e s s' j d :
  (forall c0 old new, exists c1, updateEnv c0 old new = inr c1) ->
  drain_index e = Some j -> drains s !! j = Some d ->
  step getQueryFilter e s = Some s' ->
  d_pending d = 0 -> (d_done d = true -> d_updatesDone d = true) ->
  exists d', drains s' !! j = Some d' /\ d_pending d' = 0 /\
             (d_done d' = true -> d_updatesDone d' = true).
Proof.
  intros Hno Hi Hd Hs Hp0 Hdu.
  destruct e as [q|q| |ev|ev|k env|k|k msg|k event|k r|pf r|]; try discriminate Hi;
    injection Hi as ->; cbn [step] in Hs.
  - unfold drainYield in Hs. rewrite Hd in Hs. cbn [mbind option_bind] in Hs.
    destruct (decide _) as [Hph|]; [|done].
    destruct (addEnv _ env); apply (inj Some) in Hs; subst s'; unfold failDrain;
      pending_record.
  - unfold drainEnd in Hs. rewrite Hd in Hs. cbn [mbind option_bind] in Hs.
    destruct (decide _) as [Hph|]; [|done].
    destruct (d_updatesDone d) eqn:Hud; apply (inj Some) in Hs; subst s';
      unfold callValidate; pending_record.
  - unfold drainThrow in Hs. rewrite Hd in Hs. cbn [mbind option_bind] in Hs.
    destruct (decide _) as [Hph|]; [|done].
    apply (inj Some) in Hs; subst s'; unfold failDrain. pending_record.
  - unfold drainUpdate in Hs. rewrite Hd in Hs. cbn [mbind option_bind] in Hs.
    destruct (d_listening d) eqn:Hli; [|done].
    destruct event as [[index update]|].
    + destruct (Hno (cache (emit (LUpdateEnv (js_get (d_seen d) index) update) s))
                  (js_get (d_seen d) index) update) as [c1 Hc].
      rewrite Hc in Hs. psimpl in Hs. rewrite Hp0 in Hs. cbn [pred Nat.eqb] in Hs.
      rewrite andb_true_r in Hs.
      destruct (d_done d) eqn:Hdn; apply (inj Some) in Hs; subst s';
        unfold callValidate; repeat case_match; pending_record.
    + psimpl in Hs. rewrite Hp0 in Hs. cbn [Nat.eqb andb] in Hs.
      apply (inj Some) in Hs; subst s'; unfold callValidate; repeat case_match;
        pending_record.
  - destruct (decide (d_phase d = Validating)) as [Hph|Hph];
      [|unfold drainValidated in Hs; rewrite Hd in Hs; cbn [mbind option_bind] in Hs;
        by rewrite decide_False in Hs].
    destruct r as [msg|].
    + unfold drainValidated in Hs. rewrite Hd in Hs. cbn [mbind option_bind] in Hs.
      rewrite decide_True in Hs by done. apply (inj Some) in Hs. subst s'.
      unfold failDrain. pending_record.
    + rewrite (drainValidated_ok_eq j d s Hd Hph) in Hs. apply (inj Some) in Hs. subst s'.
      pending_record.
Qed.

Lemma pending_zero_step e s s' :
  (forall c0 old new, exists c1, updateEnv c0 old new = inr c1) ->
  (forall i d, drains s !! i = Some d ->
     d_pending d = 0 /\ (d_done d = true -> d_updatesDone d = true)) ->
  step getQueryFilter e s = Some s' ->
  (forall i d, drains s' !! i = Some d ->
     d_pending d = 0 /\ (d_done d = true -> d_updatesDone d = true)).
Proof.
  intros Hno HP Hs i d' Hd'. destruct (drain_index e) as [j|] eqn:Hi.
  - destruct (drain_step_some e s s' j Hi Hs) as [dj Hdj].
    destruct (HP j dj Hdj) as [Hp0 Hdu].
    destruct (drain_step_pending e s s' j dj Hno Hi Hdj Hs Hp0 Hdu) as (d2 & Hd2 & Hres).
    destruct (decide (i = j)) as [->|Hne]; [congruence|].
    destruct (drain_step_shape e s s' j dj Hi Hdj Hs) as (d3 & Hds & _).
    rewrite Hds, list_lookup_insert_ne in Hd' by done. eauto.
  - destruct (frame_step e s s' Hi Hs) as (nd & nl & Hds & Hfr & _).
    rewrite Hds in Hd'. apply lookup_app_Some in Hd' as [Hd'|[_ Hd']]; [eauto|].
    rewrite Forall_forall in Hfr.
    destruct (Hfr d') as (_ & Hdn & Hp0 & _); [by eapply list_elem_of_lookup_2|].
    split; [done|]. congruence.
Qed.


End ServiceProofs.

(** ** The logging facade *)

(** C10. [logVerbose] and [logInfo] are the same function: both hand their
    arguments to [logToAll] with the global logger at [LogLevel.Info]. *)
Theorem C10_logVerbose_is_logInfo
    (Logger Arguments World : Type)
    (logToAll : list Logger -> Logging.LogLevel -> Arguments -> World -> World)
    (globalLogger : Logger) (args : Arguments) (w : World) :
  Logging.logVerbose logToAll globalLogger args w
    = Logging.logInfo logToAll globalLogger args w /\
  Logging.logVerbose logToAll globalLogger args w
    = logToAll [globalLogger] Logging.Info args w /\
  Logging.logInfo logToAll globalLogger args w
    = logToAll [globalLogger] Logging.Info args w.
Proof. repeat split. Qed.

(** X11. [getPythonOutputChannelContent] reads the channel registered
    last.  After any sequence of [setLoggingLevel] and
    [addOutputChannelLogging] calls it returns the content of the transport
    built for the channel of the last [addOutputChannelLogging] call, and the
    empty string if there was none since the module was loaded.  Changing the
    level never changes that, not even ['off'], which clears the transports
    of the logger but not [_globalLoggerContent]. *)
Theorem X11_output_channel_content
    (Logger Transport Channel Formatter Content : Type)
    (logger_clear : Logger -> Logger)
    (logger_set_level : string -> Logger -> Logger)
    (logger_add : Transport -> Logger -> Logger)
    (resolveLevelName : Logging.LogLevel -> option string)
    (getFormatter : Formatter)
    (getPythonOutputChannelTransport : Channel -> Formatter -> Transport)
    (getContent : Transport -> option Content) (empty_content : Content)
    (logger : Logger) (ks : list (Logging.Call Channel)) :
  let run := Logging.calls logger_clear logger_set_level logger_add resolveLevelName
               getFormatter getPythonOutputChannelTransport in
  let content := Logging.getPythonOutputChannelContent getContent empty_content in
  content (run ks (Logging.mkGlobals logger None)) =
    match Logging.last_channel ks None with
    | Some channel =>
        match getContent (getPythonOutputChannelTransport channel getFormatter) with
        | Some c => c
        | None => empty_content
        end
    | None => empty_content
    end /\
  (forall g level,
     content (Logging.setLoggingLevel logger_clear logger_set_level resolveLevelName
                level g) = content g).
Proof.
  cbn zeta. split.
  - assert (Hgen : forall (g : Logging.Globals Logger Transport) acc,
      Logging._globalLoggerContent g
        = option_map (fun ch => getPythonOutputChannelTransport ch getFormatter) acc ->
      Logging._globalLoggerContent
        (Logging.calls logger_clear logger_set_level logger_add resolveLevelName
           getFormatter getPythonOutputChannelTransport ks g)
        = option_map (fun ch => getPythonOutputChannelTransport ch getFormatter)
            (Logging.last_channel ks acc)).
    { induction ks as [|k ks IH]; intros g acc Hg; [exact Hg|].
      destruct k as [level|channel]; cbn [Logging.calls fold_left Logging.call
                                          Logging.last_channel].
      - apply IH. rewrite <- Hg. unfold Logging.setLoggingLevel.
        destruct level as [l|]; [destruct (resolveLevelName l)|]; reflexivity.
      - apply IH. reflexivity. }
    unfold Logging.getPythonOutputChannelContent.
    rewrite (Hgen (Logging.mkGlobals logger None) None eq_refl).
    by destruct (Logging.last_channel ks None).
  - intros g level. unfold Logging.getPythonOutputChannelContent, Logging.setLoggingLevel.
    destruct level as [l|]; [destruct (resolveLevelName l)|]; reflexivity.
Qed.

(** ** Concrete runs of the service *)

Import ListCache Scenario.

Section PlainLocator.
#[local] Existing Instance plain.

(** C1, as stated, fails twice.  The first of two calls in a row returns the
    promise of the async [startRefresh] (4), the second the deferred promise
    kept in the map (0).  And with a refresh for [Some 1] and a universal
    refresh both tracked, [triggerRefresh (Some 1)] returns its own handle
    (0), not the universal one (5), which [triggerRefresh (Some 2)] gets. *)
Lemma C1_counterexample :
  (let '(p1, s1) := triggerRefresh q7 s0 in
   let '(p2, s2) := triggerRefresh q7 s1 in
   p1 = 4 /\ p2 = 0 /\ p1 <> p2) /\
  (exists s, runPlain exactThenUniversal s0 = Some s /\
     map_get None (refreshPromises s) = Some 5 /\
     pstateOf s 5 = Pending /\
     Some 1 <> Some 2 /\
     fst (triggerRefresh (Some 1) s) = 0 /\
     fst (triggerRefresh (Some 2) s) = 5 /\
     fst (triggerRefresh (Some 1) s) <> fst (triggerRefresh (Some 2) s)).
Proof.
  split.
  - vm_compute. repeat split; discriminate.
  - eexists. split; [vm_compute; reflexivity|].
    vm_compute. repeat split; discriminate.
Qed.

Lemma C1_witness :
  let s1 := snd (triggerRefresh q7 s0) in
  let '(p2, s2) := triggerRefresh q7 s1 in
  s2 = s1 /\
  log s2 = log s0 ++ [LRefreshStarted; LIterEnvs q7] /\
  iterEnvsCalls s2 = S (iterEnvsCalls s0) /\
  drains s2 = drains s0 ++ [startedDrain s0 q7] /\
  p2 = length (promises s0) /\
  map_get q7 (refreshPromises s1) = Some p2.
Proof.
  apply (proj1 (proj2 (proj2 (C1_triggerRefresh_dedup q7 s0))));
    reflexivity.
Defined.


(** C2. The iterator of the refresh for [q7] throws (or its validation
    rejects).  The deferred promise 0 is rejected, but it is still in
    [refreshPromises]: the next [triggerRefresh q7] returns the rejected
    promise and starts nothing. *)
Theorem C2_failed_refresh_stays_tracked :
  (exists s, runPlain iteratorThrows s0 = Some s /\
     jobs s = [] /\
     pstateOf s 0 = Rejected (IterErr "boom") /\
     refreshPromises s = [(q7, 0)] /\
     triggerRefresh q7 s = (0, s)) /\
  (exists s, runPlain validationRejects s0 = Some s /\
     jobs s = [] /\
     pstateOf s 0 = Rejected (ValidateErr "stale") /\
     refreshPromises s = [(q7, 0)] /\
     triggerRefresh q7 s = (0, s)).
Proof.
  split; (eexists; split; [vm_compute; reflexivity|]); vm_compute; repeat split.
Qed.

(** C4. The caller that started the failing refresh holds promise 4, the
    promise of the async [startRefresh]; it is fulfilled, because the
    [catch] callback returns normally.  The deferred promise 0, which later
    callers get, and the join read through [refreshPromise] (7) are rejected. *)
Theorem C4_starter_promise_fulfilled :
  fst (triggerRefresh q7 s0) = 4 /\
  fst (triggerRefresh q7 (snd (triggerRefresh q7 s0))) = 0 /\
  fst (refreshPromise (snd (triggerRefresh q7 s0))) = 7 /\
  exists s, runPlain throwsWhileJoined s0 = Some s /\
     jobs s = [] /\
     pstateOf s 4 = Fulfilled /\
     pstateOf s 0 = Rejected (IterErr "boom") /\
     pstateOf s 7 = Rejected (IterErr "boom").
Proof.
  repeat split; try (vm_compute; reflexivity).
  eexists; split; [vm_compute; reflexivity|]. vm_compute; repeat split.
Qed.


Lemma C3_witness :
  exists s,
    runUpdates [ETriggerRefresh None; EYield 0 envA; EUpdate 0 (Some (0, Some envA'));
                EEnd 0; EUpdate 0 None; EValidateDone 0 None] s0 = Some s /\
    log s = [LRefreshStarted; LIterEnvs None; LAddEnv envA;
             LUpdateEnv (Some envA) (Some envA'); LValidateCache 0; LFlush 0] /\
    (LValidateCache 0 ∈ log s ->
       exists d, drains s !! 0 = Some d /\
         drained [ETriggerRefresh None; EYield 0 envA; EUpdate 0 (Some (0, Some envA'));
                  EEnd 0; EUpdate 0 None; EValidateDone 0 None] 0 d).
Proof.
  eexists. split; [vm_compute; reflexivity|]. split; [vm_compute; reflexivity|].
  refine (proj1 (@C3_validation_after_drain _ _ withUpdates anyEnv [] _ _ 0 _)).
  vm_compute; reflexivity.
Defined.

End PlainLocator.

Section UpdatesLocator.
#[local] Existing Instance withUpdates.



End UpdatesLocator.

(** ** Concrete runs for the properties of the drain *)

Section UpdatesLocatorRuns.
#[local] Existing Instance withUpdates.


Lemma X2_witness :
  exists s',
    run anyEnv [ETriggerRefresh None; EUpdate 0 (Some (0, Some envA')); EYield 0 envA;
                EEnd 0; EUpdate 0 None] (init (StrictCache.mk [])) = Some s' /\
    (LValidateCache 0 ∉ log s') /\ (LFlush 0 ∉ log s') /\
    exists d', drains s' !! 0 = Some d' /\ 0 < d_pending d' /\
               d_phase d' <> Validating /\ d_phase d' <> Finished.
Proof.
  eexists. split; [vm_compute; reflexivity|].
  refine (X2_updateEnv_throw_stalls_drain anyEnv (StrictCache.mk [])
            [ETriggerRefresh None] [EYield 0 envA; EEnd 0; EUpdate 0 None]
            _ _ _ 0 0 _ (Some envA') _ _ _ _ _ _);
    vm_compute; reflexivity.
Defined.

Lemma X3_witness :
  let s := snd (triggerRefresh None s0) in
  exists s' d d',
    drains s !! 0 = Some d /\
    run anyEnv (map (EYield 0) [envA; envB]) s = Some s' /\
    drains s' !! 0 = Some d' /\ d_phase d' = Draining /\
    d_seen d' = d_seen d ++ map Some [envA; envB] /\
    log s' = log s ++ map LAddEnv [envA; envB] /\
    fold_left (fun oc env => c ← oc; match addEnv c env with
                                     | inr c' => Some c'
                                     | inl _ => None
                                     end) [envA; envB] (Some (cache s)) = Some (cache s') /\
    refreshPromises s' = refreshPromises s /\ jobs s' = jobs s.
Proof.
  cbn zeta. do 3 eexists.
  split; [vm_compute; reflexivity|]. split; [vm_compute; reflexivity|].
  split; [vm_compute; reflexivity|]. split; [vm_compute; reflexivity|].
  refine (X3_for_await_adds_in_order anyEnv 0 [envA; envB]
            (snd (triggerRefresh None s0)) _ _ _ _ _ _ _);
    vm_compute; reflexivity.
Defined.

Lemma X4_witness :
  let s := snd (triggerRefresh None s0) in
  exists s1 s' s2 d c,
    drains s !! 0 = Some d /\
    updateEnv (cache s) (js_get (d_seen d) 0) (Some envA') = inr c /\
    step anyEnv (EUpdate 0 (Some (0, Some envA'))) s = Some s1 /\
    run anyEnv [EYield 0 envB; EUpdate 0 (Some (1, None)); EUpdate 0 (Some (0, None))] s1
      = Some s' /\
    step anyEnv (EUpdate 0 (Some (0, Some envA))) s' = Some s2 /\
    exists rest, log s2 = log s' ++ LUpdateEnv (Some envA') (Some envA) :: rest.
Proof.
  cbn zeta. do 5 eexists.
  split; [vm_compute; reflexivity|]. split; [vm_compute; reflexivity|].
  split; [vm_compute; reflexivity|]. split; [vm_compute; reflexivity|].
  split; [vm_compute; reflexivity|].
  refine (X4_revisions_chain_on_seen anyEnv (snd (triggerRefresh None s0)) _ _ _ 0 0 _
            envA' _
            [EYield 0 envB; EUpdate 0 (Some (1, None)); EUpdate 0 (Some (0, None))]
            (Some envA) _ _ _ _ _ _).
  - vm_compute; reflexivity.
  - vm_compute; reflexivity.
  - vm_compute; reflexivity.
  - intros u' Hin. repeat (apply elem_of_cons in Hin as [Hin|Hin]; [discriminate Hin|]).
    by apply elem_of_nil in Hin.
  - vm_compute; reflexivity.
  - vm_compute; reflexivity.
Defined.


End UpdatesLocatorRuns.

Section PlainLocatorRuns.
#[local] Existing Instance plain.


Lemma X6_witness :
  exists s',
    run anyEnv [EEnd 0; EValidateDone 0 None; ETick; ETick; ETick; ETick;
                EEnd 1; EValidateDone 1 None; ETick; ETick; ETick; ETick; ETick; ETick]
      (onLocatorChanged (mkChange 1 None) (snd (triggerRefresh None s0))) = Some s' /\
    log s' = [LRefreshStarted; LIterEnvs None; LValidateCache 0; LFlush 0; LTelemetry 0;
              LRefreshStarted; LIterEnvs None; LValidateCache 1; LFlush 1; LTelemetry 0;
              LFire (mkChange 1 None)] /\
    let s1 := onLocatorChanged (mkChange 1 None) (snd (triggerRefresh None s0)) in
    let pf := length (promises s1) - 1 in
    (exists pa, reaction_at s1 pa
       (mkReaction (HFire (mkChange (ev_type (mkChange 1 None))
                                    (searchLocation (mkChange 1 None)))) HForward pf)) /\
    (pstateOf s' pf = Fulfilled ->
     exists k d, length (drains (snd (triggerRefresh None s0))) <= k /\
                 drains s' !! k = Some d /\ d_query d = None /\ terminal d).
Proof.
  destruct (run anyEnv _ (onLocatorChanged (mkChange 1 None) (snd (triggerRefresh None s0))))
    as [s'|] eqn:Hr; [|vm_compute in Hr; discriminate Hr].
  exists s'. split; [reflexivity|].
  split; [vm_compute in Hr; injection Hr as <-; reflexivity|].
  refine (X6_change_event_after_new_refresh anyEnv [] (snd (triggerRefresh None s0)) s'
            (mkChange 1 None) _ _ Hr).
  apply (reach_step anyEnv [] s0 (ETriggerRefresh None)); [apply reach_init|].
  reflexivity.
Defined.


Lemma X8_witness :
  refreshPromises s0 = [] /\ jobs s0 = [] /\
  pstateOf (snd (refreshPromise s0)) 0 = Fulfilled /\
  pstateOf (snd (refreshPromise s0)) (fst (refreshPromise s0)) = Pending /\
  exists s2, step anyEnv ETick (snd (refreshPromise s0)) = Some s2 /\
             pstateOf s2 (fst (refreshPromise s0)) = Fulfilled /\ jobs s2 = [].
Proof.
  split; [reflexivity|]. split; [reflexivity|].
  pose proof (proj2 (X8_refreshPromise_observes anyEnv s0) eq_refl) as (H1 & H2 & _ & H4).
  split; [exact H1|]. split; [exact H2|]. exact (H4 eq_refl).
Defined.


Lemma X12_witness :
  exists s',
    run anyEnv [EEnd 0; EValidateDone 0 (Some "stale"); ETick; ETick; ETick]
      (snd (triggerRefresh q7 s0)) = Some s' /\
    pstateOf s' 0 = Rejected (ValidateErr "stale") /\
    let b := length (promises s0) in
    map_get q7 (refreshPromises (snd (triggerRefresh q7 s0))) = Some b /\
    pstateOf (snd (triggerRefresh q7 s0)) b = Pending /\
    (pstateOf s' b <> Pending ->
     exists d, drains s' !! length (drains s0) = Some d /\ d_query d = q7 /\ terminal d).
Proof.
  eexists. split; [vm_compute; reflexivity|]. split; [vm_compute; reflexivity|].
  refine (X12_tracked_handle_settles_after_drain anyEnv [] s0 _ q7
            [EEnd 0; EValidateDone 0 (Some "stale"); ETick; ETick; ETick] _ _ _).
  - apply reach_init.
  - reflexivity.
  - vm_compute; reflexivity.
Defined.


Lemma X14_witness :
  exists s s',
    run anyEnv [ETriggerRefresh None; EThrow 0 "boom"; ETick; ETick; ETick] s0 = Some s /\
    getRefreshPromiseForQuery None s = Some 0 /\
    pstateOf s 0 = Rejected (IterErr "boom") /\
    run anyEnv [ETick; ETick; ETick] (onLocatorChanged (mkChange 1 None) s) = Some s' /\
    let s1 := onLocatorChanged (mkChange 1 None) s in
    let pf := length (promises s1) - 1 in
    (exists pa, reaction_at s1 pa
       (mkReaction (HFire (mkChange (ev_type (mkChange 1 None))
                                    (searchLocation (mkChange 1 None)))) HForward pf)) /\
    drains s1 = drains s /\
    pstateOf s' pf <> Fulfilled.
Proof.
  destruct (run anyEnv [ETriggerRefresh None; EThrow 0 "boom"; ETick; ETick; ETick] s0)
    as [s|] eqn:Hr1; [|vm_compute in Hr1; discriminate Hr1].
  assert (Hreach : reachable anyEnv [] s)
    by (eapply reachable_run; [apply reach_init|exact Hr1]).
  assert (Hg : getRefreshPromiseForQuery None s = Some 0)
    by (vm_compute in Hr1; injection Hr1 as <-; reflexivity).
  assert (Hp : pstateOf s 0 = Rejected (IterErr "boom"))
    by (vm_compute in Hr1; injection Hr1 as <-; reflexivity).
  destruct (run anyEnv [ETick; ETick; ETick] (onLocatorChanged (mkChange 1 None) s))
    as [s'|] eqn:Hr2;
    [|vm_compute in Hr1; injection Hr1 as <-; vm_compute in Hr2; discriminate Hr2].
  exists s, s'.
  exact (conj eq_refl (conj Hg (conj Hp (conj Hr2
           (X14_rejected_handle_swallows_change_events anyEnv [] s s' (mkChange 1 None)
              [ETick; ETick; ETick] 0 (IterErr "boom") Hreach Hg Hp Hr2))))).
Defined.

Lemma X15_witness :
  exists s',
    run anyEnv [EEnd 0; EValidateDone 0 (Some "stale"); ETick; ETick; ETick]
      (snd (triggerRefresh q7 s0)) = Some s' /\
    pstateOf s' 0 = Rejected (ValidateErr "stale") /\
    let b := length (promises s0) in
    exists d, drains s' !! length (drains s0) = Some d /\ d_query d = q7 /\
      (pstateOf s' b = Fulfilled -> d_phase d = Finished) /\
      (forall err, pstateOf s' b = Rejected err -> d_phase d = Failed).
Proof.
  eexists. split; [vm_compute; reflexivity|]. split; [vm_compute; reflexivity|].
  refine (X15_handle_mirrors_drain_outcome anyEnv [] s0 _ q7
            [EEnd 0; EValidateDone 0 (Some "stale"); ETick; ETick; ETick] _ _ _).
  - apply reach_init.
  - reflexivity.
  - vm_compute; reflexivity.
Defined.

End PlainLocatorRuns.

(** ** Overlapping refreshes *)

Section OverlappingRefreshes.
Context {C : Type} `{!IEnvsCollectionCache C}.
#[local] Existing Instance plain.

(** X10. Refreshes for one query can overlap, and then the tracking map
    loses track.  Two change events that arrive during one refresh are both
    chained behind it, so two drains for [undefined] are started one after
    the other when it ends; the second [startRefresh] overwrites the handle of
    the first.  When the first of the two drains finishes, its callback
    deletes the entry of the query, which by then is the handle of the second:
    [refreshPromises] is empty although a drain is still running, so
    [resolveEnv] answers from the cache and [triggerRefresh] starts one more
    drain. *)
Theorem X10_overlapping_refreshes_untracked (c : C) (ev1 ev2 : ChangeEvent) :
  exists s,
    run anyEnv (twoChanges ev1 ev2) (init c) = Some s /\
    refreshPromises s = [] /\
    map d_query (drains s) = [None; None; None] /\
    map d_phase (drains s) = [Finished; Finished; Draining] /\
    (forall path env, getEnv (cache s) path = Some env ->
       resolveEnv path s = FromCache env) /\
    drains (snd (triggerRefresh None s)) = drains s ++ [startedDrain s None].
Proof.
  eexists. split; [vm_compute; reflexivity|].
  split; [reflexivity|]. split; [reflexivity|]. split; [reflexivity|].
  split.
  - intros path env Hg. unfold resolveEnv. rewrite Hg. reflexivity.
  - rewrite triggerRefresh_miss by reflexivity. apply startRefresh_drains.
Qed.

End OverlappingRefreshes.

